(** * flare_bypass_server: the fork-race orchestration of process_solve_request

    A shallow embedding of [src/flare_bypasser/flare_bypass_server.py]:
    the race coordinator [wait_first_non_exception], the deferred
    scheduler [deffered_call], the identity fetch [get_user_agent], the
    attempt [solve] and the request pipeline [process_solve_request].

    Python objects become records, dicts become [gmap string PyVal],
    exceptions become values of [exn] carried by the [result] monad, and
    the event loop is replaced by explicit oracles gathered in [Env]:
    what the solver answers, which futures each [asyncio.wait] call finds
    done (and in which order the [for f in finished] loop visits them),
    and which branch of [asyncio.gather] fails first. *)

From Stdlib Require Import ZArith QArith.
From stdpp Require Import base option list strings gmap pretty.

Open Scope Z_scope.

(** ** Python values, exceptions and the result monad *)

(** The values that travel through dicts ([solver_args], cookies,
    [params]).  [VObj] stands for any other object, known by a tag. *)
Inductive PyVal : Type :=
| VNone
| VBool (b : bool)
| VInt (z : Z)
| VFloat (q : Q)
| VStr (s : string)
| VObj (tag : string).

(** Python truthiness, as used by [if x:] and [x if c else y]. *)
Definition truthy (v : PyVal) : bool :=
  match v with
  | VNone => false
  | VBool b => b
  | VInt z => negb (z =? 0)
  | VFloat q => negb (Qeq_bool q 0)
  | VStr s => negb (String.eqb s "")
  | VObj _ => true
  end.

Definition str_truthy (s : option string) : bool :=
  match s with
  | Some s => negb (String.eqb s "")
  | None => false
  end.

(** An instance of (a subclass of) Python's [Exception]: its class name
    and what [str(e)] returns. *)
Record exn : Type := Exn { exn_class : string; exn_str : string }.

Inductive result (A : Type) : Type :=
| Ok (a : A)
| Raise (e : exn).
Arguments Ok {A} a.
Arguments Raise {A} e.

#[global] Instance result_ret : MRet result := fun A a => Ok a.
#[global] Instance result_bind : MBind result := fun A B f m =>
  match m with
  | Ok a => f a
  | Raise e => Raise e
  end.

(** The double-quote character, for messages that contain one. *)
Definition dq : string := String (Ascii.ascii_of_nat 34) EmptyString.

Definition TypeError (msg : string) : exn := Exn "TypeError" msg.
Definition KeyError (key : string) : exn := Exn "KeyError" ("'" +:+ key +:+ "'").
Definition ValidationError (msg : string) : exn := Exn "ValidationError" msg.
Definition Exception (msg : string) : exn := Exn "Exception" msg.

(** [None + "..."]: the left operand is not a string. *)
Definition none_plus_str : exn :=
  TypeError "unsupported operand type(s) for +: 'NoneType' and 'str'".
(** ["..." + None]: the right operand is not a string. *)
Definition str_plus_none : exn :=
  TypeError ("can only concatenate str (not " +:+ dq +:+ "NoneType" +:+ dq +:+ ") to str").

(** ** The models of the REST layer (lines 87-125) *)

Record ProxyModel : Type := {
  proxy_url : option string;
  proxy_username : option string;
  proxy_password : option string
}.

Record CookieModel : Type := {
  cookie_name : string;
  cookie_value : string;
  cookie_domain : string;
  cookie_port : option Z;
  cookie_path : option string;
  cookie_secure : option bool;
  cookie_expires : option Q
}.

Record DefferedForksModel : Type := {
  forks : Z;
  delay : Q
}.

Record HandleCommandResponseSolution : Type := {
  sol_status : Z;
  sol_url : string;
  sol_cookies : list CookieModel;
  sol_userAgent : option string;
  sol_response : option PyVal
}.

Record HandleCommandResponse : Type := {
  status : string;
  message : string;
  startTimestamp : Q;
  endTimestamp : Q;
  solution : option HandleCommandResponseSolution
}.

(** [cookie.__dict__] of a [CookieModel]: every field, [None] included. *)
Definition opt_val {A} (f : A -> PyVal) (o : option A) : PyVal :=
  match o with Some a => f a | None => VNone end.

Definition CookieModel_dict (c : CookieModel) : gmap string PyVal :=
  <["name" := VStr (cookie_name c)]>
  (<["value" := VStr (cookie_value c)]>
  (<["domain" := VStr (cookie_domain c)]>
  (<["port" := opt_val VInt (cookie_port c)]>
  (<["path" := opt_val VStr (cookie_path c)]>
  (<["secure" := opt_val VBool (cookie_secure c)]>
  (<["expires" := opt_val VFloat (cookie_expires c)]> ∅)))))).

(** What the validation library does with a value that does not have
    the type of the field it is passed for: the converted value, or
    nothing when the value is refused.  Which values are converted
    depends on the library and its version (a string of digits for an
    [int] field, [1] for a [bool] field and so on), so the conversions
    are the library's, not this module's.  [error_text model kwargs] is
    [str(e)] of the [ValidationError] that the library raises for the
    keyword arguments [kwargs] of [model]: one exception for all the
    fields that do not validate. *)
Record Pydantic : Type := {
  convert_str : PyVal -> option string;
  convert_int : PyVal -> option Z;
  convert_bool : PyVal -> option bool;
  convert_float : PyVal -> option Q;
  error_text : string -> gmap string PyVal -> string
}.

Definition as_int (v : PyVal) : option Z :=
  match v with VInt z => Some z | _ => None end.
Definition as_str (v : PyVal) : option string :=
  match v with VStr s => Some s | _ => None end.
Definition as_bool (v : PyVal) : option bool :=
  match v with VBool b => Some b | _ => None end.
Definition as_float (v : PyVal) : option Q :=
  match v with VFloat q => Some q | VInt z => Some (inject_Z z) | _ => None end.

(** A field annotated [str] without a default: the key must be there
    and [None] is refused; a string is taken as it is, any other value is
    the library's to convert.  Nothing when the field does not
    validate. *)
Definition required_str (lib : Pydantic) (d : gmap string PyVal) (field : string)
    : option string :=
  match d !! field with
  | Some (VStr s) => Some s
  | Some VNone => None
  | Some v => convert_str lib v
  | None => None
  end.

(** An [Optional[...]] field with a default: the default when the key is
    missing, [None] when it is passed as [None]; a value that has the
    field's type is taken as it is ([typed]), any other value is the
    library's to convert.  Nothing when the field does not validate. *)
Definition optional_field {A} (d : gmap string PyVal) (field : string)
    (default : option A) (typed convert : PyVal -> option A) : option (option A) :=
  match d !! field with
  | None => Some default
  | Some VNone => Some None
  | Some v =>
      match typed v with
      | Some a => Some (Some a)
      | None => Some <$> convert v
      end
  end.

(** The fields of a [CookieModel] built from the keys of a cookie dict,
    lines 93-102: [name], [value] and [domain] are required, [port] and
    [expires] default to [None], [path] to ['/'] and [secure] to [True];
    other keys are ignored.  Nothing when a field does not validate. *)
Definition CookieModel_fields (lib : Pydantic) (d : gmap string PyVal)
    : option CookieModel :=
  name ← required_str lib d "name";
  value ← required_str lib d "value";
  domain ← required_str lib d "domain";
  port ← optional_field d "port" None as_int (convert_int lib);
  path ← optional_field d "path" (Some "/"%string) as_str (convert_str lib);
  secure ← optional_field d "secure" (Some true) as_bool (convert_bool lib);
  expires ← optional_field d "expires" None as_float (convert_float lib);
  Some {| cookie_name := name; cookie_value := value; cookie_domain := domain;
          cookie_port := port; cookie_path := path; cookie_secure := secure;
          cookie_expires := expires |}.

(** [CookieModel] called with the keys of the cookie dict [d] as
    keyword arguments (line 295): the model, or the library's
    [ValidationError]. *)
Definition CookieModel_init (lib : Pydantic) (d : gmap string PyVal) : result CookieModel :=
  match CookieModel_fields lib d with
  | Some c => Ok c
  | None => Raise (ValidationError (error_text lib "CookieModel" d))
  end.

(** The list comprehension of line 294-296: the first cookie that does
    not validate raises. *)
Fixpoint CookieModel_init_all (lib : Pydantic) (l : list (gmap string PyVal))
    : result (list CookieModel) :=
  match l with
  | [] => Ok []
  | d :: l' =>
      c ← CookieModel_init lib d;
      cs ← CookieModel_init_all lib l';
      Ok (c :: cs)
  end.

(** What a cookie looks like in the response body: the routes are
    declared with [response_model_exclude_none=True] (lines 316-321), so a
    field that is [None] is left out. *)
Definition put_opt {A} (key : string) (f : A -> PyVal) (o : option A)
    (d : gmap string PyVal) : gmap string PyVal :=
  match o with Some a => <[key := f a]> d | None => d end.

Definition CookieModel_public (c : CookieModel) : gmap string PyVal :=
  <["name" := VStr (cookie_name c)]>
  (<["value" := VStr (cookie_value c)]>
  (<["domain" := VStr (cookie_domain c)]>
  (put_opt "port" VInt (cookie_port c)
  (put_opt "path" VStr (cookie_path c)
  (put_opt "secure" VBool (cookie_secure c)
  (put_opt "expires" VFloat (cookie_expires c) ∅)))))).

(** ** The race coordinator, [wait_first_non_exception] (lines 128-152) *)

Section RaceCoordinator.
Context {R : Type}.

(** A future made by [asyncio.ensure_future(t())] (line 129): its
    identity (the position of [t] in [tasks]) and what awaiting it gives
    once it is done. *)
Record future : Type := Future {
  fut_id : nat;
  fut_outcome : result R
}.

Definition has_id (i : nat) (f : future) : bool := Nat.eqb (fut_id f) i.

(** The futures of [fs] other than those named by [ids]. *)
Definition without_ids (ids : list nat) (fs : list future) : list future :=
  List.filter (fun f => negb (existsb (Nat.eqb (fut_id f)) ids)) fs.

(** [asyncio.wait(fs, return_when=FIRST_COMPLETED)].  The event loop
    decides which futures are done when the call returns: [done_ids]
    names them, in the order in which [for f in finished] will visit
    the set.  The call returns at least one future, each of them one of
    [fs] and none twice; [pending] is the rest of [fs].  [None] when
    [done_ids] is not such an answer. *)
Definition asyncio_wait (fs : list future) (done_ids : list nat)
    : option (list future * list future) :=
  match done_ids with
  | [] => None
  | _ =>
      if bool_decide (NoDup done_ids) then
        finished ← mapM (fun i => List.find (has_id i) fs) done_ids;
        Some (finished, without_ids done_ids fs)
      else None
  end.

(** [task_features.remove(f)]: drops the first element that is [f]. *)
Fixpoint list_remove (f : future) (l : list future) : list future :=
  match l with
  | [] => []
  | g :: l' => if has_id (fut_id f) g then l' else g :: list_remove f l'
  end.

(** How the coroutine leaves the [try] block, with the two local lists
    as they are at that point. *)
Inductive race_exit : Type :=
| RaceReturn (res : option R) (skipped_results : list R) (exceptions : list exn)
| RaceRaise (e : exn) (skipped_results : list R) (exceptions : list exn)
| RaceSuspended.

(** The second [for f in finished] loop (lines 138-148).
    [task_features] is the list after the first loop has removed every
    finished future from it. *)
Fixpoint for_finished (return_condition : R -> bool) (task_features : list future)
    (finished : list future) (skipped_results : list R) (exceptions : list exn)
    : race_exit + (list R * list exn) :=
  match finished with
  | [] => inr (skipped_results, exceptions)
  | f :: rest =>
      match fut_outcome f with
      | Ok res =>
          if return_condition res
          then inl (RaceReturn (Some res) skipped_results exceptions)
          else for_finished return_condition task_features rest
                 (skipped_results ++ [res]) exceptions
      | Raise e =>
          let exceptions := exceptions ++ [e] in
          match task_features with
          | [] => inl (RaceRaise e skipped_results exceptions)
          | _ => for_finished return_condition task_features rest
                   skipped_results exceptions
          end
      end
  end.

(** A run of the coroutine: how it ends and the futures on which the
    [finally] block called [cancel()]. *)
Record race_run : Type := RaceRun {
  race_exit_of : race_exit;
  race_cancelled : list nat
}.

(** The [while task_features] loop (lines 134-148) followed by the
    [finally] block and line 152.  [schedule] lists the answers of the
    successive [asyncio.wait] calls; when it has no further answer the
    coroutine stays suspended in line 135. *)
Fixpoint race_loop (return_condition : R -> bool) (schedule : list (list nat))
    (task_features to_cancel_tasks : list future)
    (skipped_results : list R) (exceptions : list exn) : race_run :=
  match task_features with
  | [] => RaceRun (RaceReturn None skipped_results exceptions)
            (fut_id <$> to_cancel_tasks)
  | _ :: _ =>
      match schedule with
      | [] => RaceRun RaceSuspended []
      | done_ids :: schedule' =>
          match asyncio_wait task_features done_ids with
          | None => RaceRun RaceSuspended []
          | Some (finished, to_cancel_tasks) =>
              let task_features := foldl (fun l f => list_remove f l) task_features finished in
              match for_finished return_condition task_features finished
                      skipped_results exceptions with
              | inl ex => RaceRun ex (fut_id <$> to_cancel_tasks)
              | inr (skipped_results, exceptions) =>
                  race_loop return_condition schedule' task_features to_cancel_tasks
                    skipped_results exceptions
              end
          end
      end
  end.

(** [tasks] gives, for each task factory, what awaiting the future of
    its coroutine yields once that future is done. *)
Definition wait_first_non_exception (tasks : list (result R))
    (return_condition : R -> bool) (schedule : list (list nat)) : race_run :=
  let task_features := imap (fun i o => Future i o) tasks in
  race_loop return_condition schedule task_features [] [] [].

(** The default [return_condition = lambda x: True]. *)
Definition accept_any (x : R) : bool := true.

End RaceCoordinator.

Arguments future : clear implicits.
Arguments race_exit : clear implicits.
Arguments race_run : clear implicits.

(** ** The solver package, as this module uses it *)

(** [flare_bypasser.Request], filled in lines 226-235. *)
Record Request : Type := {
  req_cmd : string;
  req_url : string;
  req_cookies : list (gmap string PyVal);
  req_max_timeout : Q;
  req_proxy : option string;
  req_params : option (gmap string PyVal)
}.

(** What [Solver.solve] returns; line 284 sets [user_agent] on it.  The
    solver is taken to put strings in [message] and [url]. *)
Record Response : Type := {
  resp_message : string;
  resp_url : string;
  resp_cookies : list (gmap string PyVal);
  resp_response : option PyVal;
  resp_user_agent : option string
}.

(** The keyword arguments of one [flare_bypasser.Solver(...)] call:
    [ctor_proxy] is [None] when no [proxy] keyword is passed. *)
Record SolverCtor : Type := {
  ctor_proxy : option (option string);
  ctor_log_prefix : string;
  ctor_kwargs : gmap string PyVal
}.

(** What [asyncio.wait_for] sees of the awaited probe: it is done in
    time, or the timeout expires first. *)
Inductive probe : Type :=
| ProbeDone (r : result string)
| ProbeExpired.

(** A parsed URL, [urllib3.util.Url]; [hostname] is its [host]. *)
Record Url : Type := {
  url_scheme : option string;
  url_auth : option string;
  url_hostname : option string;
  url_port : option Z;
  url_path : option string
}.

(** Everything the coroutines get from outside: clock readings, the URL
    parser, the directory service, the solver's answers, the choices of
    the event loop, the validation library and the class hierarchy of the
    exceptions: [timeout_subclass c] says that the class named [c] is a
    subclass of [asyncio.TimeoutError]. *)
Record Env : Type := {
  now_start : Q;
  now_end : Q;
  parse_url : string -> result Url;
  uuid4_debug : string;
  uuid4_screenshots : string;
  path_join : string -> string -> string;
  mkdir : string -> result unit;
  solver_solve : SolverCtor -> Request -> result Response;
  solver_get_user_agent : SolverCtor -> probe;
  wait_schedule : list (list nat);
  race_fails_first : bool;
  pydantic : Pydantic;
  timeout_subclass : string -> bool
}.

(** The module-level dicts [solver_args] and
    [request_processing_default_args] (lines 73-84), as they are when the
    request arrives. *)
Record Globals : Type := {
  solver_args : gmap string PyVal;
  default_forks : list DefferedForksModel
}.

(** ** Coroutines as traces *)

(** What a coroutine does that the claims speak about. *)
Inductive event : Type :=
| EvLog (msg : string)
| EvSleep (seconds : Q)
| EvSolver (ctor : SolverCtor) (method : string)
| EvWaitFor (seconds : Q).

(** A coroutine run to its end: the events in order, then its result. *)
Definition task (A : Type) : Type := (list event * result A)%type.

Definition task_ret {A} (a : A) : task A := ([], Ok a).
Definition task_raise {A} (e : exn) : task A := ([], Raise e).
Definition tell (ev : event) : task unit := ([ev], Ok tt).
Definition task_bind {A B} (m : task A) (k : A -> task B) : task B :=
  match m with
  | (tr, Ok a) => let '(tr', r) := k a in (tr ++ tr', r)
  | (tr, Raise e) => (tr, Raise e)
  end.

Declare Scope task_scope.
Delimit Scope task_scope with task.
Notation "x <<- m ;; k" := (task_bind m (fun x => k))
  (at level 100, m at next level, right associativity) : task_scope.
Notation "m ;;; k" := (task_bind m (fun _ => k))
  (at level 100, right associativity) : task_scope.

(** ** Calling [solve] (lines 180-195) *)

(** An argument of the call. *)
Inductive PyArg : Type :=
| ArgRequest (r : Request)
| ArgProxy (p : option string)
| ArgStr (s : string)
| ArgDict (d : gmap string PyVal)
| ArgVal (v : PyVal).

(** The parameters of [solve], line 180-185; the first has no default.
    The signature has no catch-all for further keywords. *)
Definition solve_parameters : list string :=
  ["solve_request"; "proxy"; "log_prefix"; "solver_args"]%string.

(** Keywords of a call are matched against the parameter names. *)
Fixpoint bind_keywords (fname : string) (params : list string)
    (keywords : list (string * PyArg)) (bound : gmap string PyArg)
    : result (gmap string PyArg) :=
  match keywords with
  | [] => Ok bound
  | (k, v) :: keywords' =>
      if bool_decide (k ∈ params) then
        match bound !! k with
        | Some _ =>
            Raise (TypeError (fname +:+ "() got multiple values for argument '" +:+ k +:+ "'"))
        | None => bind_keywords fname params keywords' (<[k := v]> bound)
        end
      else
        Raise (TypeError (fname +:+ "() got an unexpected keyword argument '" +:+ k +:+ "'"))
  end.

(** Binding the arguments of a call to a function that takes only named
    parameters: positional arguments fill the parameters from the left,
    then the keywords are matched. *)
Definition bind_call (fname : string) (params : list string)
    (positional : list PyArg) (keywords : list (string * PyArg))
    : result (gmap string PyArg) :=
  bound ← bind_keywords fname params keywords (list_to_map (zip params positional));
  if (length params <? length positional)%nat then
    Raise (TypeError (fname +:+ "() takes at most " +:+ pretty (length params)
                        +:+ " positional arguments but "
                        +:+ pretty (length positional) +:+ " were given"))
  else Ok bound.

Section Coroutines.
Context (env : Env).

(** [solve]: the call is bound to the signature, then the body runs. *)
Definition solve (positional : list PyArg) (keywords : list (string * PyArg))
    : task Response :=
  match bind_call "solve" solve_parameters positional keywords with
  | Raise e => task_raise e
  | Ok bound =>
      match bound !! "solve_request" with
      | None =>
          task_raise
            (TypeError "solve() missing 1 required positional argument: 'solve_request'")
      | Some solve_request =>
          match solve_request,
                default (ArgProxy None) (bound !! "proxy"),
                default (ArgStr "") (bound !! "log_prefix"),
                default (ArgDict ∅) (bound !! "solver_args") with
          | ArgRequest solve_request, ArgProxy proxy, ArgStr log_prefix, ArgDict solver_args =>
              let ctor := {| ctor_proxy := Some proxy;
                             ctor_log_prefix := log_prefix;
                             ctor_kwargs := solver_args |} in
              (tell (EvLog (log_prefix +:+ "Solve start")) ;;;
               tell (EvSolver ctor "solve") ;;;
               ([], solver_solve env ctor solve_request))%task
          | _, _, _, _ =>
              task_raise (TypeError "solve(): argument of an unexpected type")
          end
      end
  end.

(** [deffered_call], lines 155-158. *)
Definition deffered_call {A} (task_ : unit -> task A) (timeout : Q) : task A :=
  ((if negb (Qle_bool timeout 0) then tell (EvSleep timeout) else task_ret tt) ;;;
   task_ tt)%task.

(** [asyncio.wait_for]: the result of the awaited call, or
    [TimeoutError] when the timeout expires first. *)
Definition asyncio_wait_for (p : probe) : result string :=
  match p with
  | ProbeDone r => r
  | ProbeExpired => Raise (Exn "TimeoutError" "")
  end.

(** [except asyncio.TimeoutError] (line 173): the clause catches the
    instances of that class and of its subclasses. *)
Definition is_timeout_error (e : exn) : bool :=
  String.eqb (exn_class e) "TimeoutError" || timeout_subclass env (exn_class e).

(** [get_user_agent], lines 161-177.  No [proxy] keyword is passed to
    the solver. *)
Definition get_user_agent (solver_args : gmap string PyVal) (max_timeout : Z)
    : task string :=
  let ctor := {| ctor_proxy := None;
                 ctor_log_prefix := "fork user-agent";
                 ctor_kwargs := solver_args |} in
  let inner : task string :=
    (tell (EvSolver ctor "get_user_agent") ;;;
     tell (EvWaitFor (inject_Z max_timeout / 1000)%Q) ;;;
     ([], match asyncio_wait_for (solver_get_user_agent env ctor) with
          | Ok ua => Ok ua
          | Raise e =>
              if is_timeout_error e then
                Raise (Exception ("Processing timeout (max_timeout="
                                    +:+ pretty max_timeout +:+ ")"))
              else Raise e
          end))%task in
  match inner with
  | (tr, Ok ua) => (tr, Ok ua)
  | (tr, Raise e) => (tr, Raise (Exception ("On user-agent getting: " +:+ exn_str e)))
  end.

End Coroutines.

(** ** The request pipeline, [process_solve_request] (lines 198-312) *)

(** [proxy: typing.Union[str, ProxyModel]] *)
Inductive proxy_arg : Type :=
| ProxyStr (s : string)
| ProxyObj (p : ProxyModel).

(** An element of [cookies]: line 230 takes a dict as it is and the
    [__dict__] of anything else. *)
Inductive cookie_arg : Type :=
| CookieDict (d : gmap string PyVal)
| CookieObj (c : CookieModel).

Definition cookie_as_dict (c : cookie_arg) : gmap string PyVal :=
  match c with
  | CookieDict d => d
  | CookieObj c => CookieModel_dict c
  end.

(** A task factory of [solve_tasks].  Both lambdas bind [fork_i] when
    they are made (it is a default argument); everything else in their
    bodies is read from the enclosing frame when they are called. *)
Inductive task_factory : Type :=
| PrimaryFactory (fork_i : nat)
| DeferredFactory (fork_i : nat).

(** The local variables of lines 249-275. [forks_model] is the variable
    of the outer [for]; it has no value before the first iteration. *)
Record plan_state : Type := {
  cur_fork_i : nat;
  solve_tasks : list task_factory;
  forks_model : option DefferedForksModel
}.

(** [range(n)] of a Python int: empty when [n <= 0]. *)
Definition py_range (n : Z) : list nat := seq 0 (Z.to_nat n).

(** Lines 265-275, the body of [for i in range(forks_model.forks)]. *)
Definition append_fork (st : plan_state) (i : nat) : plan_state :=
  {| cur_fork_i := S (cur_fork_i st);
     solve_tasks := solve_tasks st ++ [DeferredFactory (cur_fork_i st)];
     forks_model := forks_model st |}.

(** Lines 263-275, the body of [for forks_model in forks]. *)
Definition for_forks_model (st : plan_state) (m : DefferedForksModel) : plan_state :=
  foldl append_fork
    {| cur_fork_i := cur_fork_i st; solve_tasks := solve_tasks st; forks_model := Some m |}
    (py_range (forks m)).

(** Lines 249-275. *)
Definition fork_plan (forks : list DefferedForksModel) : plan_state :=
  let st := {| cur_fork_i := 1; solve_tasks := [PrimaryFactory 0]; forks_model := None |} in
  match forks with
  | [] => st
  | _ => foldl for_forks_model st forks
  end.

(** The variables of [process_solve_request] that the lambdas read when
    they are called, which is at line 129, after line 275. *)
Record frame : Type := {
  fr_solve_request : Request;
  fr_proxy : option string;
  fr_local_solver_args : gmap string PyVal;
  fr_forks_model : option DefferedForksModel
}.

Definition log_prefix_of (fork_i : nat) : string :=
  "fork #" +:+ pretty fork_i +:+ ", ".

(** The keywords both lambdas pass to [solve]. *)
Definition solve_keywords (fr : frame) (fork_i : nat) : list (string * PyArg) :=
  [("proxy", ArgProxy (fr_proxy fr));
   ("solver_args", ArgDict (fr_local_solver_args fr));
   ("log_prefix", ArgStr (log_prefix_of fork_i))]%string.

Section Pipeline.
Context (env : Env) (globals : Globals).

(** Lines 209-223, before the [try]. *)
Definition normalize_proxy (proxy : option proxy_arg) : result (option string) :=
  match proxy with
  | None => Ok None
  | Some (ProxyStr s) => Ok (Some s)
  | Some (ProxyObj p) =>
      match proxy_url p with
      | Some url =>
          parsed_proxy ← parse_url env url;
          head ← match url_scheme parsed_proxy with
                 | Some scheme => Ok (scheme +:+ "://")
                 | None => Raise none_plus_str
                 end;
          let credentials :=
            if str_truthy (proxy_username p)
            then default "" (proxy_username p) +:+ ":" +:+
                 (if str_truthy (proxy_password p)
                  then default "" (proxy_password p) else "") +:+ "@"
            else "" in
          with_host ← match url_hostname parsed_proxy with
                      | Some hostname => Ok (head +:+ credentials +:+ hostname)
                      | None => Raise str_plus_none
                      end;
          Ok (Some (with_host +:+
                    match url_port parsed_proxy with
                    | Some port => if port =? 0 then "" else ":" +:+ pretty port
                    | None => ""
                    end))
      | None => Ok None
      end
  end.

(** Lines 239-242 and 244-247: a configured directory gets a fresh
    subdirectory, which replaces it in the request's copy of the
    solver arguments. *)
Definition isolate_dir (key uuid : string) (local_solver_args : gmap string PyVal)
    : result (gmap string PyVal) :=
  match local_solver_args !! key with
  | None => Raise (KeyError key)
  | Some v =>
      if truthy v then
        match v with
        | VStr base =>
            let debug_dir := path_join env base uuid in
            _ ← mkdir env debug_dir;
            Ok (<[key := VStr debug_dir]> local_solver_args)
        | _ => Raise (TypeError "expected str, bytes or os.PathLike object")
        end
      else Ok local_solver_args
  end.

(** Calling a task factory, line 129: the coroutine it makes. *)
Definition call_factory (fr : frame) (t : task_factory) : task Response :=
  match t with
  | PrimaryFactory fork_i =>
      solve env [ArgRequest (fr_solve_request fr)] (solve_keywords fr fork_i)
  | DeferredFactory fork_i =>
      match fr_forks_model fr with
      | Some forks_model =>
          deffered_call
            (fun _ => solve env [ArgRequest (fr_solve_request fr)]
                        (solve_keywords fr fork_i
                           ++ [("fill_user_agent"%string, ArgVal (VBool false))]))
            (delay forks_model)
      | None => task_raise (Exn "NameError" "forks_model")
      end
  end.

(** What awaiting something gives: a result, or nothing ever. *)
Inductive awaited (A : Type) : Type :=
| Done (r : result A)
| Never.
Arguments Done {A} r.
Arguments Never {A}.

Definition await_race {R} (run : race_run R)
    : awaited (option R * list R * list exn) :=
  match race_exit_of run with
  | RaceReturn res skipped excs => Done (Ok (res, skipped, excs))
  | RaceRaise e _ _ => Done (Raise e)
  | RaceSuspended => Never
  end.

(** [asyncio.gather(a, b)]: both results once both are there; the
    exception of the branch that fails first as soon as it fails. *)
Definition asyncio_gather {A B} (a : awaited A) (b : awaited B)
    (a_fails_first : bool) : awaited (A * B) :=
  match a, b with
  | Done (Raise ea), Done (Raise eb) => Done (Raise (if a_fails_first then ea else eb))
  | Done (Raise ea), _ => Done (Raise ea)
  | _, Done (Raise eb) => Done (Raise eb)
  | Done (Ok x), Done (Ok y) => Done (Ok (x, y))
  | _, _ => Never
  end.

(** Lines 226-275: the request, the request's solver arguments and the
    task factories. *)
Definition setup (url cmd : string) (cookies : option (list cookie_arg))
    (max_timeout : Z) (proxy : option string)
    (params : option (gmap string PyVal))
    (forks : option (list DefferedForksModel))
    : result (frame * list task_factory) :=
  let solve_request :=
    {| req_cmd := cmd;
       req_url := url;
       req_cookies := match cookies with
                      | Some (c :: cs) => cookie_as_dict <$> (c :: cs)
                      | _ => []
                      end;
       req_max_timeout := (inject_Z max_timeout * 1 / 1000)%Q;
       req_proxy := proxy;
       req_params := params |} in
  let local_solver_args := solver_args globals in
  local_solver_args ← isolate_dir "debug_dir" (uuid4_debug env) local_solver_args;
  local_solver_args ← isolate_dir "challenge_screenshots_dir" (uuid4_screenshots env)
                        local_solver_args;
  let forks := match forks with
               | None => default_forks globals
               | Some forks => forks
               end in
  let plan := fork_plan forks in
  Ok ({| fr_solve_request := solve_request;
         fr_proxy := proxy;
         fr_local_solver_args := local_solver_args;
         fr_forks_model := forks_model plan |},
      solve_tasks plan).

(** The race of line 279 over the coroutines of the task factories. *)
Definition solve_race (fr : frame) (tasks : list task_factory) : race_run Response :=
  wait_first_non_exception ((fun t => snd (call_factory fr t)) <$> tasks)
    accept_any (wait_schedule env).

(** The identity fetch of line 280. *)
Definition identity_fetch (fr : frame) (max_timeout : Z) : task string :=
  get_user_agent env (fr_local_solver_args fr) max_timeout.

(** Lines 284-302. *)
Definition assemble (start_timestamp : Q) (solve_response : option Response)
    (user_agent : string) : result HandleCommandResponse :=
  match solve_response with
  | None => Raise (Exn "AttributeError" "'NoneType' object has no attribute 'user_agent'")
  | Some r =>
      let solve_response :=
        {| resp_message := resp_message r; resp_url := resp_url r;
           resp_cookies := resp_cookies r; resp_response := resp_response r;
           resp_user_agent := Some user_agent |} in
      cookies ← CookieModel_init_all (pydantic env) (resp_cookies solve_response);
      Ok {| status := "ok";
            message := resp_message solve_response;
            startTimestamp := start_timestamp;
            endTimestamp := now_end env;
            solution := Some {| sol_status := 200;
                                sol_url := resp_url solve_response;
                                sol_cookies := cookies;
                                sol_userAgent := resp_user_agent solve_response;
                                sol_response := resp_response solve_response |} |}
  end.

(** The body of the [try], lines 226-302. *)
Definition try_body (start_timestamp : Q) (url cmd : string)
    (cookies : option (list cookie_arg)) (max_timeout : Z) (proxy : option string)
    (params : option (gmap string PyVal)) (forks : option (list DefferedForksModel))
    : awaited HandleCommandResponse :=
  match setup url cmd cookies max_timeout proxy params forks with
  | Raise e => Done (Raise e)
  | Ok (fr, tasks) =>
      match asyncio_gather (await_race (solve_race fr tasks))
              (Done (snd (identity_fetch fr max_timeout)))
              (race_fails_first env) with
      | Never => Never
      | Done (Raise e) => Done (Raise e)
      | Done (Ok ((solve_response, _, _), user_agent)) =>
          Done (assemble start_timestamp solve_response user_agent)
      end
  end.

(** How a call of [process_solve_request] ends. *)
Inductive request_outcome : Type :=
| Responds (r : HandleCommandResponse)
| Escapes (e : exn)
| NeverReturns.

(** The handler of line 304-312. *)
Definition error_response (start_timestamp : Q) (e : exn) : HandleCommandResponse :=
  {| status := "error";
     message := "Error: " +:+ exn_str e;
     startTimestamp := start_timestamp;
     endTimestamp := now_end env;
     solution := None |}.

Definition process_solve_request (url cmd : string)
    (cookies : option (list cookie_arg)) (max_timeout : Z)
    (proxy : option proxy_arg) (params : option (gmap string PyVal))
    (forks : option (list DefferedForksModel)) : request_outcome :=
  let start_timestamp := now_start env in
  match normalize_proxy proxy with
  | Raise e => Escapes e
  | Ok proxy =>
      match try_body start_timestamp url cmd cookies max_timeout proxy params forks with
      | Done (Ok r) => Responds r
      | Done (Raise e) => Responds (error_response start_timestamp e)
      | Never => NeverReturns
      end
  end.

End Pipeline.

Arguments Done {A} r.
Arguments Never {A}.

(** ** Reading traces *)

(** The solver constructions of a trace, in order. *)
Definition solver_ctors (tr : list event) : list SolverCtor :=
  omap (fun ev => match ev with EvSolver c _ => Some c | _ => None end) tr.

(** The number of tasks that the fork groups ask for. *)
Definition total_forks (gs : list DefferedForksModel) : nat :=
  foldr (fun g n => (Z.to_nat (forks g) + n)%nat) 0%nat gs.

(** The sum of the [forks] fields, as Python adds them. *)
Definition sum_forks (gs : list DefferedForksModel) : Z :=
  foldr (fun g z => forks g + z) 0 gs.

(** What the binding of a call raises for a keyword that is no
    parameter of [solve]. *)
Definition unexpected_fill_user_agent : exn :=
  TypeError "solve() got an unexpected keyword argument 'fill_user_agent'".

(** Reading the outcome of a task. *)
Definition success_of {R} (o : result R) : option R :=
  match o with Ok r => Some r | Raise _ => None end.

Definition failure_of {R} (o : result R) : option exn :=
  match o with Ok _ => None | Raise e => Some e end.

(** An outcome that does not end the race by a return: a failure, or a
    success that the condition refuses. *)
Definition rejected {R} (return_condition : R -> bool) (o : result R) : Prop :=
  match o with
  | Ok r => return_condition r = false
  | Raise _ => True
  end.

(** The tasks among [0 .. n-1] that are not named by [done_ids]. *)
Definition not_yet_done (done_ids : list nat) (n : nat) : list nat :=
  List.filter (fun j => negb (existsb (Nat.eqb j) done_ids)) (seq 0 n).

Definition factory_index (t : task_factory) : nat :=
  match t with
  | PrimaryFactory i => i
  | DeferredFactory i => i
  end.

(** ** A concrete environment for the examples *)

(** A URL parser for the examples, after the shape
    [scheme://auth@host:port/path] that [urllib3.util.parse_url]
    accepts: every part but the host may be missing. *)
Definition split_once (sep s : string) : option (string * string) :=
  match String.index 0 sep s with
  | Some i =>
      let j := (i + String.length sep)%nat in
      Some (String.substring 0 i s, String.substring j (String.length s - j) s)
  | None => None
  end.

Fixpoint digits_value (s : string) (acc : Z) : option Z :=
  match s with
  | EmptyString => Some acc
  | String c s' =>
      let n := Z.of_nat (Ascii.nat_of_ascii c) in
      if (48 <=? n) && (n <=? 57) then digits_value s' (10 * acc + (n - 48)) else None
  end.

Definition nonempty (s : string) : option string :=
  if String.eqb s "" then None else Some s.

Definition parse_url_simple (url : string) : result Url :=
  let '(scheme, rest) :=
    match split_once "://" url with
    | Some (s, r) => (Some s, r)
    | None => (None, url)
    end in
  let '(authority, path) :=
    match String.index 0 "/" rest with
    | Some i => (String.substring 0 i rest,
                 Some (String.substring i (String.length rest - i) rest))
    | None => (rest, None)
    end in
  let '(auth, hostport) :=
    match split_once "@" authority with
    | Some (a, hp) => (Some a, hp)
    | None => (None, authority)
    end in
  match split_once ":" hostport with
  | Some (h, p) =>
      if String.eqb p "" then
        Ok {| url_scheme := scheme; url_auth := auth; url_hostname := nonempty h;
              url_port := None; url_path := path |}
      else
        match digits_value p 0 with
        | Some n => Ok {| url_scheme := scheme; url_auth := auth;
                          url_hostname := nonempty h; url_port := Some n;
                          url_path := path |}
        | None => Raise (Exn "LocationParseError" ("Failed to parse: " +:+ url))
        end
  | None => Ok {| url_scheme := scheme; url_auth := auth; url_hostname := nonempty hostport;
                  url_port := None; url_path := path |}
  end.

(** A validation library for the examples.  It converts a string of
    decimal digits, a boolean or a float without fraction for an [int]
    field, the numbers 0 and 1 and the words true and false for a [bool]
    field, a boolean or a decimal numeral for a [float] field, and
    nothing for a [str] field. *)
Definition digits (s : string) : option Z :=
  if String.eqb s "" then None else digits_value s 0.

Definition decimal_value (s : string) : option Q :=
  match split_once "." s with
  | Some (whole, fraction) =>
      match digits whole, digits fraction with
      | Some a, Some b =>
          Some (Qred (inject_Z a + inject_Z b / inject_Z (10 ^ Z.of_nat (String.length fraction))))
      | _, _ => None
      end
  | None => inject_Z <$> digits s
  end.

Definition sample_convert_int (v : PyVal) : option Z :=
  match v with
  | VBool b => Some (if b then 1 else 0)
  | VFloat q => if (Qden (Qred q) =? 1)%positive then Some (Qnum (Qred q)) else None
  | VStr s => digits s
  | _ => None
  end.

Definition sample_convert_bool (v : PyVal) : option bool :=
  match v with
  | VInt 0 => Some false
  | VInt 1 => Some true
  | VStr s =>
      if String.eqb s "true" || String.eqb s "1" then Some true
      else if String.eqb s "false" || String.eqb s "0" then Some false
      else None
  | _ => None
  end.

Definition sample_convert_float (v : PyVal) : option Q :=
  match v with
  | VBool b => Some (inject_Z (if b then 1 else 0))
  | VStr s => decimal_value s
  | _ => None
  end.

Definition sample_pydantic : Pydantic :=
  {| convert_str := fun _ => None;
     convert_int := sample_convert_int;
     convert_bool := sample_convert_bool;
     convert_float := sample_convert_float;
     error_text := fun model _ => "1 validation error for " +:+ model |}.

(** A solver cookie with only the three mandatory keys. *)
Definition cookie_abx : gmap string PyVal :=
  <["name" := VStr "a"]> (<["value" := VStr "b"]> (<["domain" := VStr "x.com"]> ∅)).

Definition sample_response : Response :=
  {| resp_message := "Challenge solved!";
     resp_url := "https://x.com/";
     resp_cookies := [cookie_abx];
     resp_response := None;
     resp_user_agent := None |}.

(** An environment in which the solver and the probe succeed, and the
    event loop gives [schedule] to the race. *)
Definition sample_env (schedule : list (list nat)) : Env :=
  {| now_start := 100;
     now_end := 101;
     parse_url := parse_url_simple;
     uuid4_debug := "0b6c";
     uuid4_screenshots := "7f3e";
     path_join := fun a b => a +:+ "/" +:+ b;
     mkdir := fun _ => Ok tt;
     solver_solve := fun _ _ => Ok sample_response;
     solver_get_user_agent := fun _ => ProbeDone (Ok "Mozilla/5.0"%string);
     wait_schedule := schedule;
     race_fails_first := true;
     pydantic := sample_pydantic;
     timeout_subclass := fun _ => false |}.

(** The same, with a probe that does not answer in time. *)
Definition slow_probe_env (schedule : list (list nat)) : Env :=
  {| now_start := 100;
     now_end := 101;
     parse_url := parse_url_simple;
     uuid4_debug := "0b6c";
     uuid4_screenshots := "7f3e";
     path_join := fun a b => a +:+ "/" +:+ b;
     mkdir := fun _ => Ok tt;
     solver_solve := fun _ _ => Ok sample_response;
     solver_get_user_agent := fun _ => ProbeExpired;
     wait_schedule := schedule;
     race_fails_first := true;
     pydantic := sample_pydantic;
     timeout_subclass := fun _ => false |}.


(** [solver_args] once [server_run] has filled it (lines 73-79, 682-683),
    with no debug directories configured. *)
Definition sample_globals : Globals :=
  {| solver_args :=
       <["command_processors" := VObj "dict"]>
       (<["proxy_controller" := VObj "ProxyController"]>
       (<["disable_gpu" := VBool false]>
       (<["headless" := VBool false]>
       (<["debug_dir" := VNone]>
       (<["challenge_screenshots_dir" := VNone]> ∅)))));
     default_forks := [] |}.

Definition proxy_1234 : ProxyModel :=
  {| proxy_url := Some "http://1.2.3.4:8080"%string;
     proxy_username := Some "u"%string;
     proxy_password := Some "p"%string |}.

Definition proxy_no_scheme : ProxyModel :=
  {| proxy_url := Some "google.com:80"%string;
     proxy_username := None;
     proxy_password := None |}.

Definition two_groups : list DefferedForksModel :=
  [ {| forks := 1; delay := 5 |}; {| forks := 1; delay := 10 |} ].

(** [solver_args] and [request_processing_default_args] as the module
    defines them (lines 73-84), before [server_run] has run: there is no
    key [challenge_screenshots_dir] yet. *)
Definition module_globals : Globals :=
  {| solver_args :=
       <["command_processors" := VObj "dict"]>
       (<["proxy_controller" := VNone]>
       (<["disable_gpu" := VBool false]>
       (<["headless" := VBool false]>
       (<["debug_dir" := VNone]> ∅))));
     default_forks := [] |}.

(** Globals with both directories configured. *)
Definition debug_globals : Globals :=
  {| solver_args :=
       <["debug_dir" := VStr "/tmp/dbg"]>
       (<["challenge_screenshots_dir" := VStr "/tmp/shots"]> (solver_args sample_globals));
     default_forks := [ {| forks := 2; delay := 5 |} ] |}.

(** A cookie dict without [domain]. *)
Definition cookie_no_domain : gmap string PyVal :=
  <["name" := VStr "a"]> (<["value" := VStr "b"]> ∅).

(** An environment whose solver returns a cookie without [domain]. *)
Definition bad_cookie_env (schedule : list (list nat)) : Env :=
  {| now_start := 100;
     now_end := 101;
     parse_url := parse_url_simple;
     uuid4_debug := "0b6c";
     uuid4_screenshots := "7f3e";
     path_join := fun a b => a +:+ "/" +:+ b;
     mkdir := fun _ => Ok tt;
     solver_solve := fun _ _ =>
       Ok {| resp_message := "Challenge solved!"; resp_url := "https://x.com/";
             resp_cookies := [cookie_abx; cookie_no_domain];
             resp_response := None; resp_user_agent := None |};
     solver_get_user_agent := fun _ => ProbeDone (Ok "Mozilla/5.0"%string);
     wait_schedule := schedule;
     race_fails_first := true;
     pydantic := sample_pydantic;
     timeout_subclass := fun _ => false |}.

(** A cookie dict whose optional values do not have the types of the
    fields: the port and the expiry time are strings and [secure] is the
    number 1. *)
Definition cookie_to_convert : gmap string PyVal :=
  <["port" := VStr "80"]> (<["secure" := VInt 1]> (<["expires" := VStr "1.5"]> cookie_abx)).

Definition converting_response : Response :=
  {| resp_message := "Challenge solved!"; resp_url := "https://x.com/";
     resp_cookies := [cookie_abx; cookie_to_convert];
     resp_response := None; resp_user_agent := None |}.

(** An environment whose solver returns such a cookie. *)
Definition converting_env (schedule : list (list nat)) : Env :=
  {| now_start := 100;
     now_end := 101;
     parse_url := parse_url_simple;
     uuid4_debug := "0b6c";
     uuid4_screenshots := "7f3e";
     path_join := fun a b => a +:+ "/" +:+ b;
     mkdir := fun _ => Ok tt;
     solver_solve := fun _ _ => Ok converting_response;
     solver_get_user_agent := fun _ => ProbeDone (Ok "Mozilla/5.0"%string);
     wait_schedule := schedule;
     race_fails_first := true;
     pydantic := sample_pydantic;
     timeout_subclass := fun _ => false |}.

(** ** The middleware [RemoveContentTypeRequirementMiddleware] (lines 35-54) *)

(** An element of [scope["headers"]]: a tuple of two byte strings, or
    anything else. *)
Inductive header : Type :=
| HeaderPair (name value : string)
| HeaderOther (tag : string).

(** [(b'content-type', b'application/json')] *)
Definition content_type_json : header := HeaderPair "content-type" "application/json".

Section Middleware.
(** [names_content_type name] is the test of line 47,
    [name.decode('utf-8').lower() == 'content-type']; decoding raises on
    bytes that are not UTF-8. *)
Context (names_content_type : string -> result bool).

(** The loop of lines 42-50 from position [header_index] on, over the
    list [headers] that assignment changes in place: the list after the
    loop and [content_type_found]. *)
Fixpoint scan_headers (headers rest : list header) (header_index : nat)
    : result (list header * bool) :=
  match rest with
  | [] => Ok (headers, false)
  | HeaderOther _ :: _ => Ok (headers, true)
  | HeaderPair name _ :: rest' =>
      is_content_type ← names_content_type name;
      if is_content_type : bool
      then Ok (<[header_index := content_type_json]> headers, true)
      else scan_headers headers rest' (S header_index)
  end.

(** Lines 40-52: what [scope["headers"]] holds when the wrapped
    application is called. *)
Definition middleware_headers (headers : list header) : result (list header) :=
  '(headers, content_type_found) ← scan_headers headers headers 0;
  Ok (if content_type_found : bool then headers else headers ++ [content_type_json]).

(** [__call__]: a scope without the key [headers] raises, otherwise the
    application runs on the scope with the headers as changed. *)
Definition middleware_call {A} (app : list header -> result A)
    (scope_headers : option (list header)) : result A :=
  match scope_headers with
  | None => Raise (KeyError "headers")
  | Some headers =>
      headers ← middleware_headers headers;
      app headers
  end.

(** A header that the loop passes over: a pair whose name is not
    [content-type]. *)
Definition passed_over (h : header) : Prop :=
  match h with
  | HeaderPair name _ => names_content_type name = Ok false
  | HeaderOther _ => False
  end.

(** A pair whose name the test of line 47 accepts or refuses without
    raising. *)
Definition decodable_pair (h : header) : Prop :=
  match h with
  | HeaderPair name _ => ∃ b, names_content_type name = Ok b
  | HeaderOther _ => False
  end.

End Middleware.

(** The test of line 47 on names that are ASCII: case is ignored. *)
Definition ascii_lower (c : Ascii.ascii) : Ascii.ascii :=
  let n := Ascii.nat_of_ascii c in
  if ((65 <=? n) && (n <=? 90))%nat then Ascii.ascii_of_nat (n + 32) else c.

Fixpoint string_lower (s : string) : string :=
  match s with
  | EmptyString => EmptyString
  | String c s' => String (ascii_lower c) (string_lower s')
  end.

Definition names_content_type_ascii (name : string) : result bool :=
  Ok (String.eqb (string_lower name) "content-type").

(** ** Strings as Python splits and strips them *)

(** [s.split(sep)] for a separator of one character: the pieces between
    the occurrences of [sep]; there is always at least one piece. *)
Fixpoint py_split (sep : Ascii.ascii) (s : string) : list string :=
  match s with
  | EmptyString => [EmptyString]
  | String c s' =>
      if Ascii.eqb c sep then EmptyString :: py_split sep s'
      else match py_split sep s' with
           | piece :: pieces => String c piece :: pieces
           | [] => [String c EmptyString]
           end
  end.

(** [sep.join(pieces)] *)
Fixpoint py_join (sep : Ascii.ascii) (pieces : list string) : string :=
  match pieces with
  | [] => EmptyString
  | [piece] => piece
  | piece :: pieces' => piece +:+ String sep (py_join sep pieces')
  end.

Fixpoint has_char (c : Ascii.ascii) (s : string) : bool :=
  match s with
  | EmptyString => false
  | String c' s' => Ascii.eqb c' c || has_char c s'
  end.

Fixpoint count_char (c : Ascii.ascii) (s : string) : nat :=
  match s with
  | EmptyString => 0
  | String c' s' => ((if Ascii.eqb c' c then 1 else 0) + count_char c s')%nat
  end.

Definition char_in (chars : list Ascii.ascii) (c : Ascii.ascii) : bool :=
  existsb (Ascii.eqb c) chars.

(** [s.lstrip(chars)], [s.rstrip(chars)] and [s.strip(chars)]. *)
Fixpoint py_lstrip (chars : list Ascii.ascii) (s : string) : string :=
  match s with
  | EmptyString => EmptyString
  | String c s' => if char_in chars c then py_lstrip chars s' else s
  end.

Fixpoint py_rstrip (chars : list Ascii.ascii) (s : string) : string :=
  match s with
  | EmptyString => EmptyString
  | String c s' =>
      match py_rstrip chars s' with
      | EmptyString => if char_in chars c then EmptyString else String c EmptyString
      | t => String c t
      end
  end.

Definition py_strip (chars : list Ascii.ascii) (s : string) : string :=
  py_rstrip chars (py_lstrip chars s).

(** Every character of [s] is one of [chars]. *)
Fixpoint only_chars (chars : list Ascii.ascii) (s : string) : bool :=
  match s with
  | EmptyString => true
  | String c s' => char_in chars c && only_chars chars s'
  end.

(** The space and the double quote, the two characters that line 568
    strips. *)
Definition space_and_quote : list Ascii.ascii :=
  [Ascii.ascii_of_nat 32; Ascii.ascii_of_nat 34].

Definition comma : Ascii.ascii := Ascii.ascii_of_nat 44.
Definition colon : Ascii.ascii := Ascii.ascii_of_nat 58.

(** The builtins that read numbers: [s.strip()], [float(s)] and
    [int(s)]. *)
Record Builtins : Type := {
  str_strip : string -> string;
  float_of_str : string -> result Q;
  int_of_str : string -> result Z
}.

Definition ValueError (msg : string) : exn := Exn "ValueError" msg.

(** ** [parse_solve_forks] (lines 566-578) *)

(** The body of the loop, lines 570-577: the group that is appended,
    or nothing when [fork_str.split(':')] is empty. *)
Definition parse_fork_str (b : Builtins) (fork_str : string)
    : result (option DefferedForksModel) :=
  match py_split colon fork_str with
  | [] => Ok None
  | first :: others =>
      delay ← float_of_str b (str_strip b first);
      forks ← match others with
              | second :: _ => int_of_str b (str_strip b second)
              | [] => Ok 1
              end;
      Ok (Some {| forks := forks; delay := delay |})
  end.

Fixpoint parse_forks_loop (b : Builtins) (forks_arr : list string)
    (res : list DefferedForksModel) : result (list DefferedForksModel) :=
  match forks_arr with
  | [] => Ok res
  | fork_str :: forks_arr' =>
      g ← parse_fork_str b fork_str;
      parse_forks_loop b forks_arr'
        (match g with Some g => res ++ [g] | None => res end)
  end.

Definition parse_solve_forks (b : Builtins) (solve_forks : string)
    : result (list DefferedForksModel) :=
  parse_forks_loop b (py_split comma (py_strip space_and_quote solve_forks)) [].

(** ** The bind address of [server_run] (lines 663-667) *)

(** [host, port = args.bind.split(':')]: the unpacking wants two
    pieces. *)
Definition split_bind (bind : string) : result (string * string) :=
  match py_split colon bind with
  | [host; port] => Ok (host, port)
  | [] | [_] => Raise (ValueError "not enough values to unpack (expected 2, got 1)")
  | _ => Raise (ValueError "too many values to unpack (expected 2)")
  end.

(** Lines 663-667: the pair, or the exit status of [sys.exit(1)]. *)
Definition bind_or_exit (bind : string) : (string * string) + Z :=
  match split_bind bind with
  | Ok hp => inl hp
  | Raise _ => inr 1
  end.

(** Builtins for the examples: decimal digits only, nothing stripped. *)
Definition digits_builtins : Builtins :=
  {| str_strip := fun s => s;
     float_of_str := fun s =>
       match s with
       | EmptyString => Raise (ValueError "could not convert string to float: ''")
       | _ => match digits_value s 0 with
              | Some n => Ok (inject_Z n)
              | None => Raise (ValueError ("could not convert string to float: '" +:+ s +:+ "'"))
              end
       end;
     int_of_str := fun s =>
       match s with
       | EmptyString => Raise (ValueError "invalid literal for int() with base 10: ''")
       | _ => match digits_value s 0 with
              | Some n => Ok n
              | None => Raise (ValueError ("invalid literal for int() with base 10: '"
                                             +:+ s +:+ "'"))
              end
       end |}.

(** The forks argument [5:2,10] between double quotes. *)
Definition quoted_forks : string := dq +:+ "5:2,10" +:+ dq.

(** ** Loading user commands (lines 529-563 and 626-638) *)

Definition semicolon : Ascii.ascii := Ascii.ascii_of_nat 59.
Definition dot : Ascii.ascii := Ascii.ascii_of_nat 46.

Definition cons_first (c : Ascii.ascii) (pieces : list string) : list string :=
  match pieces with
  | piece :: pieces' => String c piece :: pieces'
  | [] => [String c EmptyString]
  end.

(** [s.split(sep)] for the separator made of the two characters [c1]
    and [c2]: occurrences are found from the left and do not overlap. *)
Fixpoint py_split2 (c1 c2 : Ascii.ascii) (s : string) : list string :=
  match s with
  | EmptyString => [EmptyString]
  | String a s' =>
      match s' with
      | String b s'' =>
          if Ascii.eqb a c1 && Ascii.eqb b c2
          then EmptyString :: py_split2 c1 c2 s''
          else cons_first a (py_split2 c1 c2 s')
      | EmptyString => [String a EmptyString]
      end
  end.

(** [c1] followed by [c2] occurs in [s]. *)
Fixpoint has_pair (c1 c2 : Ascii.ascii) (s : string) : bool :=
  match s with
  | EmptyString => false
  | String a s' =>
      match s' with
      | String b _ => (Ascii.eqb a c1 && Ascii.eqb b c2) || has_pair c1 c2 s'
      | EmptyString => false
      end
  end.

(** [s.split(sep, 1)] as a pair when [sep] occurs: what precedes its
    first occurrence and what follows.  Without an occurrence the split
    has one element and cannot be unpacked into two names. *)
Fixpoint py_partition (sep : Ascii.ascii) (s : string) : option (string * string) :=
  match s with
  | EmptyString => None
  | String c s' =>
      if Ascii.eqb c sep then Some (EmptyString, s')
      else match py_partition sep s' with
           | Some (a, b) => Some (String c a, b)
           | None => None
           end
  end.

(** [s.rsplit(sep, 1)] as a pair when [sep] occurs: what precedes its
    last occurrence and what follows. *)
Fixpoint py_rpartition (sep : Ascii.ascii) (s : string) : option (string * string) :=
  match s with
  | EmptyString => None
  | String c s' =>
      match py_rpartition sep s' with
      | Some (a, b) => Some (String c a, b)
      | None => if Ascii.eqb c sep then Some (EmptyString, s') else None
      end
  end.

Definition unpack_two_failed : exn :=
  ValueError "not enough values to unpack (expected 2, got 1)".

(** What the import machinery does for this module.
    [instantiate_class m c] stands for lines 535-539: import module [m],
    assert that it has [c], get it and call it.  [call_entry_point m f]
    stands for lines 552-556: import [m], assert that it has [f], call it
    and list the items of the dict it returns. *)
Record Importer : Type := {
  instantiate_class : string -> string -> result PyVal;
  call_entry_point : string -> string -> result (list (string * PyVal))
}.

(** Lines 533-539, the body of the [try] for one element. *)
Definition load_class_entry (imp : Importer) (mod_ : string) : result (string * PyVal) :=
  match py_partition colon mod_ with
  | None => Raise unpack_two_failed
  | Some (command_name, import_module_and_class_name) =>
      match py_rpartition dot import_module_and_class_name with
      | None => Raise unpack_two_failed
      | Some (import_module_name, import_class_name) =>
          obj ← instantiate_class imp import_module_name import_class_name;
          Ok (command_name, obj)
      end
  end.

(** The loop of lines 531-544. *)
Fixpoint class_loop (imp : Importer) (mods : list string)
    (result_command_processors : gmap string PyVal) : result (gmap string PyVal) :=
  match mods with
  | [] => Ok result_command_processors
  | mod_ :: mods' =>
      match load_class_entry imp mod_ with
      | Ok (command_name, obj) =>
          class_loop imp mods' (<[command_name := obj]> result_command_processors)
      | Raise e =>
          Raise (Exception ("Can't load user command '" +:+ mod_
                              +:+ "'(by FLARE_BYPASS_COMMANDPROCESSORS): " +:+ exn_str e))
      end
  end.

Definition parse_class_command_processors (imp : Importer)
    (custom_command_processors_str : string) : result (gmap string PyVal) :=
  class_loop imp (py_split2 comma semicolon custom_command_processors_str) ∅.

(** Lines 548-563. *)
Definition parse_entrypoint_command_processors (imp : Importer) (extension : string)
    : result (gmap string PyVal) :=
  let body :=
    match py_partition colon extension with
    | None => Raise unpack_two_failed
    | Some (import_module_name, entry_point) =>
        user_commands ← call_entry_point imp import_module_name entry_point;
        Ok (foldl (fun acc kv => <[kv.1 := kv.2]> acc) (∅ : gmap string PyVal)
              user_commands)
    end in
  match body with
  | Ok result_command_processors => Ok result_command_processors
  | Raise e =>
      Raise (Exception ("Can't load user command for '" +:+ extension +:+ "': "
                          +:+ exn_str e))
  end.

(** [d.update(other)]: the keys of [other] take its values. *)
Definition dict_update (d other : gmap string PyVal) : gmap string PyVal := other ∪ d.

(** The loop of lines 635-638 over [args.extensions]:
    [solver_args['command_processors']] as it is left, and the exception
    that ended the loop, if any. *)
Fixpoint extensions_loop (imp : Importer) (extensions : list string)
    (command_processors : gmap string PyVal) : gmap string PyVal * option exn :=
  match extensions with
  | [] => (command_processors, None)
  | extension :: extensions' =>
      match parse_entrypoint_command_processors imp extension with
      | Ok commands => extensions_loop imp extensions' (dict_update command_processors commands)
      | Raise e => (command_processors, Some e)
      end
  end.

(** [init_extensions] (lines 626-638): [environ] is the value of
    [FLARE_BYPASS_COMMANDPROCESSORS], [extensions] the value of
    [args.extensions]. *)
Definition init_extensions (imp : Importer) (environ : option string)
    (extensions : option (list string)) (command_processors : gmap string PyVal)
    : gmap string PyVal * option exn :=
  let after_environ :=
    if str_truthy environ then
      match parse_class_command_processors imp (default "" environ) with
      | Ok commands => (dict_update command_processors commands, None)
      | Raise e => (command_processors, Some e)
      end
    else (command_processors, None) in
  match after_environ with
  | (command_processors, Some e) => (command_processors, Some e)
  | (command_processors, None) =>
      match extensions with
      | Some (extension :: extensions') =>
          extensions_loop imp (extension :: extensions') command_processors
      | _ => (command_processors, None)
      end
  end.

(** An importer for the examples: every class [C] of every module gives
    the object [VObj C], and the only entry point, [cmds:get], returns two
    commands. *)
Definition sample_importer : Importer :=
  {| instantiate_class := fun m c => Ok (VObj c);
     call_entry_point := fun m f =>
       if String.eqb m "cmds" && String.eqb f "get"
       then Ok [("shot"%string, VObj "Shot"); ("pdf"%string, VObj "Pdf")]
       else Raise (Exn "ModuleNotFoundError" ("No module named '" +:+ m +:+ "'")) |}.

(** * Properties *)

(** ** Strings *)

Lemma append_cons (x : Ascii.ascii) (a b : string) :
  String x a +:+ b = String x (a +:+ b).
Proof. reflexivity. Qed.

Lemma append_assoc (a b c : string) : (a +:+ b) +:+ c = a +:+ (b +:+ c).
Proof.
  induction a as [|x a IH]; [reflexivity|].
  rewrite !append_cons. by rewrite IH.
Qed.

(** ** The fork plan *)

Lemma foldl_append_fork (n a : nat) (st : plan_state) :
  foldl append_fork st (seq a n) =
  {| cur_fork_i := (cur_fork_i st + n)%nat;
     solve_tasks := solve_tasks st ++ (DeferredFactory <$> seq (cur_fork_i st) n);
     forks_model := forks_model st |}.
Proof.
  revert a st. induction n as [|n IH]; intros a st; simpl.
  - destruct st as [c ts fm]; simpl. by rewrite Nat.add_0_r, app_nil_r.
  - rewrite IH. simpl. f_equal; [lia |].
    by rewrite <- app_assoc.
Qed.

Lemma for_forks_model_spec (st : plan_state) (m : DefferedForksModel) :
  for_forks_model st m =
  {| cur_fork_i := (cur_fork_i st + Z.to_nat (forks m))%nat;
     solve_tasks := solve_tasks st
                      ++ (DeferredFactory <$> seq (cur_fork_i st) (Z.to_nat (forks m)));
     forks_model := Some m |}.
Proof. unfold for_forks_model, py_range. by rewrite foldl_append_fork. Qed.

Lemma foldl_for_forks_model (gs : list DefferedForksModel) (st : plan_state) :
  foldl for_forks_model st gs =
  {| cur_fork_i := (cur_fork_i st + total_forks gs)%nat;
     solve_tasks := solve_tasks st
                      ++ (DeferredFactory <$> seq (cur_fork_i st) (total_forks gs));
     forks_model := match last gs with
                    | Some m => Some m
                    | None => forks_model st
                    end |}.
Proof.
  revert st. induction gs as [|g gs IH]; intros st.
  - destruct st as [c ts fm]; simpl. by rewrite Nat.add_0_r, app_nil_r.
  - cbn [foldl]. rewrite IH, for_forks_model_spec. cbn [cur_fork_i solve_tasks forks_model].
    cbn [total_forks foldr]. fold (total_forks gs).
    f_equal.
    + lia.
    + rewrite <- app_assoc. f_equal. by rewrite seq_app, fmap_app.
    + destruct gs as [|g' gs']; [reflexivity|]. simpl.
      destruct (last (g' :: gs')) eqn:E; [reflexivity|].
      by apply last_None in E.
Qed.

Lemma fork_plan_spec (gs : list DefferedForksModel) :
  fork_plan gs =
  {| cur_fork_i := S (total_forks gs);
     solve_tasks := PrimaryFactory 0 :: (DeferredFactory <$> seq 1 (total_forks gs));
     forks_model := last gs |}.
Proof.
  unfold fork_plan. destruct gs as [|g gs]; [reflexivity|].
  rewrite foldl_for_forks_model. cbn [cur_fork_i solve_tasks forks_model].
  f_equal. destruct (last (g :: gs)) eqn:E; [reflexivity|].
  by apply last_None in E.
Qed.

Lemma fork_plan_length (gs : list DefferedForksModel) :
  length (solve_tasks (fork_plan gs)) = S (total_forks gs).
Proof. rewrite fork_plan_spec. simpl. by rewrite length_fmap, length_seq. Qed.

Lemma fork_plan_lookup (gs : list DefferedForksModel) (i : nat) (t : task_factory) :
  solve_tasks (fork_plan gs) !! i = Some t →
  (i = 0%nat ∧ t = PrimaryFactory 0) ∨ (i ≠ 0%nat ∧ t = DeferredFactory i).
Proof.
  rewrite fork_plan_spec. cbn [solve_tasks]. destruct i as [|i]; simpl.
  - intros [= <-]. by left.
  - rewrite list_lookup_fmap. intros H. right. split; [lia|].
    destruct (seq 1 (total_forks gs) !! i) as [k|] eqn:E; [|discriminate].
    apply lookup_seq in E as [-> _]. simpl in H. by injection H as <-.
Qed.

Lemma fork_plan_indices (gs : list DefferedForksModel) :
  factory_index <$> solve_tasks (fork_plan gs) =
  seq 0 (length (solve_tasks (fork_plan gs))).
Proof.
  rewrite fork_plan_length, fork_plan_spec. cbn [solve_tasks]. simpl. f_equal.
  rewrite <- list_fmap_compose. apply list_fmap_id.
Qed.

Lemma total_forks_app (gs hs : list DefferedForksModel) :
  total_forks (gs ++ hs) = (total_forks gs + total_forks hs)%nat.
Proof. induction gs as [|g gs IH]; simpl; [reflexivity|]. rewrite IH. lia. Qed.

(** ** The race coordinator: whoever wins is one of the tasks *)

Section RaceFacts.
Context {R : Type}.
Implicit Types (f : future R) (fs : list (future R)).

Lemma find_has_id fs i f :
  List.find (has_id i) fs = Some f → f ∈ fs ∧ fut_id f = i.
Proof.
  intros H. apply find_some in H as [Hin Hid]. split.
  - by apply list_elem_of_In.
  - unfold has_id in Hid. by apply Nat.eqb_eq in Hid.
Qed.

Lemma mapM_find_has_id fs ids finished :
  mapM (fun i => List.find (has_id i) fs) ids = Some finished →
  Forall (fun f => f ∈ fs) finished ∧ fut_id <$> finished = ids.
Proof.
  intros E. apply mapM_Some_1 in E.
  induction E as [|i f ids' fin' Hf _ IH].
  - by split.
  - apply find_has_id in Hf as [Hin Hid]. destruct IH as [IH1 IH2].
    split; [by constructor|]. rewrite fmap_cons. by rewrite Hid, IH2.
Qed.

Lemma asyncio_wait_finished fs done_ids finished pending :
  asyncio_wait fs done_ids = Some (finished, pending) →
  Forall (fun f => f ∈ fs) finished ∧ fut_id <$> finished = done_ids.
Proof.
  unfold asyncio_wait. destruct done_ids as [|d ds]; [discriminate|].
  case_bool_decide; [|discriminate].
  destruct (mapM _ _) as [fin|] eqn:E; [|discriminate].
  intros [= <- <-]. by apply mapM_find_has_id.
Qed.

Lemma asyncio_wait_pending fs done_ids finished pending :
  asyncio_wait fs done_ids = Some (finished, pending) →
  pending = without_ids done_ids fs.
Proof.
  unfold asyncio_wait. destruct done_ids as [|d ds]; [discriminate|].
  case_bool_decide; [|discriminate].
  destruct (mapM _ _); [|discriminate]. by intros [= <- <-].
Qed.

Lemma list_remove_incl f fs g : g ∈ list_remove f fs → g ∈ fs.
Proof.
  induction fs as [|h fs IH]; simpl; [done|].
  destruct (has_id (fut_id f) h).
  - intros H. by right.
  - intros [->|H]%elem_of_cons; [by left | right; auto].
Qed.

Lemma foldl_list_remove_incl finished fs g :
  g ∈ foldl (fun l f => list_remove f l) fs finished → g ∈ fs.
Proof.
  revert fs. induction finished as [|f finished IH]; intros fs; simpl; [done|].
  intros H. apply IH in H. by apply list_remove_incl in H.
Qed.

Lemma for_finished_winner return_condition task_features finished sk ex res sk' ex' :
  for_finished return_condition task_features finished sk ex
    = inl (RaceReturn (Some res) sk' ex') →
  ∃ f, f ∈ finished ∧ fut_outcome f = Ok res ∧ return_condition res = true.
Proof.
  revert sk ex. induction finished as [|f finished IH]; intros sk ex; simpl; [discriminate|].
  destruct (fut_outcome f) as [r|e] eqn:Ef.
  - destruct (return_condition r) eqn:Ec.
    + intros [= -> _ _]. exists f. split; [by left | done].
    + intros H. apply IH in H as (g & Hg & Hr). exists g. split; [by right | done].
  - destruct task_features; [discriminate|].
    intros H. apply IH in H as (g & Hg & Hr). exists g. split; [by right | done].
Qed.

(** A raised exception is the failure of one of the finished futures. *)
Lemma for_finished_raiser return_condition task_features finished sk ex e sk' ex' :
  for_finished return_condition task_features finished sk ex
    = inl (RaceRaise e sk' ex') →
  ∃ f, f ∈ finished ∧ fut_outcome f = Raise e.
Proof.
  revert sk ex. induction finished as [|f finished IH]; intros sk ex; simpl; [discriminate|].
  destruct (fut_outcome f) as [r|e0] eqn:Ef.
  - destruct (return_condition r); [discriminate|].
    intros H. apply IH in H as (g & Hg & Hr). exists g. split; [by right | done].
  - destruct task_features.
    + intros [= -> _ _]. exists f. split; [by left | done].
    + intros H. apply IH in H as (g & Hg & Hr). exists g. split; [by right | done].
Qed.

Lemma race_loop_winner return_condition schedule fs to_cancel sk ex res sk' ex' :
  race_exit_of (race_loop return_condition schedule fs to_cancel sk ex)
    = RaceReturn (Some res) sk' ex' →
  ∃ f, f ∈ fs ∧ fut_outcome f = Ok res ∧ return_condition res = true.
Proof.
  revert fs to_cancel sk ex.
  induction schedule as [|done_ids schedule IH]; intros fs to_cancel sk ex.
  - destruct fs; simpl; discriminate.
  - destruct fs as [|f0 fs0]; [simpl; discriminate|].
    cbn [race_loop].
    destruct (asyncio_wait (f0 :: fs0) done_ids) as [[finished pending]|] eqn:Ew;
      [|simpl; discriminate].
    apply asyncio_wait_finished in Ew as [Hfin _].
    destruct (for_finished _ _ finished sk ex) as [exit|[sk1 ex1]] eqn:Ef.
    + cbn [race_exit_of]. intros ->.
      apply for_finished_winner in Ef as (g & Hg & Hr).
      exists g. split; [|done]. rewrite Forall_forall in Hfin. auto.
    + intros H. apply IH in H as (g & Hg & Hr). exists g. split; [|done].
      by apply foldl_list_remove_incl in Hg.
Qed.

Lemma race_loop_raiser return_condition schedule fs to_cancel sk ex e sk' ex' :
  race_exit_of (race_loop return_condition schedule fs to_cancel sk ex)
    = RaceRaise e sk' ex' →
  ∃ f, f ∈ fs ∧ fut_outcome f = Raise e.
Proof.
  revert fs to_cancel sk ex.
  induction schedule as [|done_ids schedule IH]; intros fs to_cancel sk ex.
  - destruct fs; simpl; discriminate.
  - destruct fs as [|f0 fs0]; [simpl; discriminate|].
    cbn [race_loop].
    destruct (asyncio_wait (f0 :: fs0) done_ids) as [[finished pending]|] eqn:Ew;
      [|simpl; discriminate].
    apply asyncio_wait_finished in Ew as [Hfin _].
    destruct (for_finished _ _ finished sk ex) as [exit|[sk1 ex1]] eqn:Ef.
    + cbn [race_exit_of]. intros ->.
      apply for_finished_raiser in Ef as (g & Hg & Hr).
      exists g. split; [|done]. rewrite Forall_forall in Hfin. auto.
    + intros H. apply IH in H as (g & Hg & Hr). exists g. split; [|done].
      by apply foldl_list_remove_incl in Hg.
Qed.

Lemma wait_first_non_exception_winner (tasks : list (result R))
    return_condition schedule res sk ex :
  race_exit_of (wait_first_non_exception tasks return_condition schedule)
    = RaceReturn (Some res) sk ex →
  ∃ i, tasks !! i = Some (Ok res) ∧ return_condition res = true.
Proof.
  unfold wait_first_non_exception. intros H.
  apply race_loop_winner in H as (f & Hf & Ho & Hc).
  apply elem_of_lookup_imap_1 in Hf as (i & o & -> & Hi).
  exists i. simpl in Ho. by subst.
Qed.

Lemma wait_first_non_exception_raiser (tasks : list (result R))
    return_condition schedule e sk ex :
  race_exit_of (wait_first_non_exception tasks return_condition schedule)
    = RaceRaise e sk ex →
  ∃ i, tasks !! i = Some (Raise e).
Proof.
  unfold wait_first_non_exception. intros H.
  apply race_loop_raiser in H as (f & Hf & Ho).
  apply elem_of_lookup_imap_1 in Hf as (i & o & -> & Hi).
  exists i. simpl in Ho. by subst.
Qed.


End RaceFacts.

(** ** The race coordinator when every wait finds one future *)

Section RaceSequential.
Context {R : Type}.
Implicit Types (f g : future R) (fs : list (future R)).

Lemma elem_of_without_ids ids fs g :
  g ∈ without_ids ids fs ↔ g ∈ fs ∧ fut_id g ∉ ids.
Proof.
  unfold without_ids. rewrite !list_elem_of_In, List.filter_In, <- !list_elem_of_In.
  split; intros [Hg H]; (split; [exact Hg|]).
  - intros Hin. apply negb_true_iff in H.
    assert (existsb (Nat.eqb (fut_id g)) ids = true); [|congruence].
    apply existsb_exists. exists (fut_id g). split.
    + by apply list_elem_of_In.
    + apply Nat.eqb_refl.
  - apply negb_true_iff. destruct (existsb _ ids) eqn:E; [|reflexivity].
    apply existsb_exists in E as (j & Hj & Heq). apply Nat.eqb_eq in Heq. subst j.
    exfalso. apply H. by apply list_elem_of_In.
Qed.

Lemma without_ids_sublist ids fs : sublist (without_ids ids fs) fs.
Proof.
  unfold without_ids. induction fs as [|g fs IH]; simpl; [constructor|].
  destruct (negb _); by constructor.
Qed.

Lemma NoDup_without_ids ids fs :
  NoDup (fut_id <$> fs) → NoDup (fut_id <$> without_ids ids fs).
Proof.
  intros H. eapply sublist_NoDup; [exact H|].
  apply fmap_sublist, without_ids_sublist.
Qed.

Lemma without_ids_without_ids ids1 ids2 fs :
  without_ids ids2 (without_ids ids1 fs) = without_ids (ids1 ++ ids2) fs.
Proof.
  unfold without_ids. induction fs as [|g fs IH]; simpl; [reflexivity|].
  rewrite existsb_app, negb_orb.
  destruct (existsb (Nat.eqb (fut_id g)) ids1); simpl; [exact IH|].
  destruct (existsb (Nat.eqb (fut_id g)) ids2); simpl; by rewrite IH.
Qed.

Lemma find_has_id_NoDup fs f :
  NoDup (fut_id <$> fs) → f ∈ fs → List.find (has_id (fut_id f)) fs = Some f.
Proof.
  induction fs as [|g fs IH]; [by intros _ ?%elem_of_nil|].
  rewrite fmap_cons, NoDup_cons. intros [Hg Hnd] Hin. simpl.
  unfold has_id at 1. destruct (Nat.eqb_spec (fut_id g) (fut_id f)) as [Heq|Hne].
  - apply elem_of_cons in Hin as [->|Hin]; [reflexivity|].
    exfalso. apply Hg. rewrite Heq. by apply list_elem_of_fmap_2.
  - apply elem_of_cons in Hin as [->|Hin]; [done|]. by apply IH.
Qed.

Lemma list_remove_without fs f :
  NoDup (fut_id <$> fs) → list_remove f fs = without_ids [fut_id f] fs.
Proof.
  unfold without_ids. induction fs as [|g fs IH]; [reflexivity|].
  rewrite fmap_cons, NoDup_cons. intros [Hg Hnd]. simpl.
  unfold has_id at 1. rewrite orb_false_r.
  destruct (Nat.eqb_spec (fut_id g) (fut_id f)) as [Heq|Hne]; simpl.
  - symmetry. rewrite <- (List.filter_ext_in (fun _ => true)).
    + clear. induction fs as [|h fs IH]; simpl; by rewrite ?IH.
    + intros h Hh. symmetry. apply negb_true_iff. rewrite orb_false_r.
      apply Nat.eqb_neq. intros Hid. apply Hg. rewrite Heq, <- Hid.
      apply list_elem_of_fmap_2. by apply list_elem_of_In.
  - f_equal. by apply IH.
Qed.

Lemma asyncio_wait_single fs f :
  NoDup (fut_id <$> fs) → f ∈ fs →
  asyncio_wait fs [fut_id f] = Some ([f], without_ids [fut_id f] fs).
Proof.
  intros Hnd Hin. unfold asyncio_wait.
  rewrite bool_decide_eq_true_2 by (apply NoDup_singleton).
  cbn. by rewrite (find_has_id_NoDup fs f Hnd Hin).
Qed.

(** One turn of the loop when the wait finds the single future [f]. *)
Lemma race_loop_single return_condition schedule fs to_cancel sk ex f :
  NoDup (fut_id <$> fs) → f ∈ fs →
  race_loop return_condition ([fut_id f] :: schedule) fs to_cancel sk ex =
  match fut_outcome f with
  | Ok r =>
      if return_condition r
      then RaceRun (RaceReturn (Some r) sk ex) (fut_id <$> without_ids [fut_id f] fs)
      else race_loop return_condition schedule (without_ids [fut_id f] fs)
             (without_ids [fut_id f] fs) (sk ++ [r]) ex
  | Raise e =>
      match without_ids [fut_id f] fs with
      | [] => RaceRun (RaceRaise e sk (ex ++ [e])) []
      | _ => race_loop return_condition schedule (without_ids [fut_id f] fs)
               (without_ids [fut_id f] fs) sk (ex ++ [e])
      end
  end.
Proof.
  intros Hnd Hin.
  destruct fs as [|g0 fs0]; [by apply elem_of_nil in Hin|].
  cbn [race_loop]. rewrite (asyncio_wait_single _ f Hnd Hin).
  cbn [foldl]. rewrite (list_remove_without _ f Hnd).
  cbn [for_finished].
  destruct (fut_outcome f) as [r|e].
  - by destruct (return_condition r).
  - by destruct (without_ids [fut_id f] (g0 :: fs0)).
Qed.

(** The futures visited before the last one are rejected one by one;
    [last] is still outstanding all along. *)
Lemma still_outstanding f (pre : list (future R)) last fs :
  NoDup (fut_id <$> (f :: pre ++ [last])) →
  Forall (fun g => g ∈ fs) (f :: pre ++ [last]) →
  Forall (fun g => g ∈ without_ids [fut_id f] fs) (pre ++ [last]).
Proof.
  rewrite fmap_cons, NoDup_cons, Forall_cons. intros [Hf _] [_ Hin].
  rewrite Forall_forall in Hin |- *. intros g Hg.
  apply elem_of_without_ids. split; [by apply Hin|].
  intros Heq%list_elem_of_singleton. apply Hf. rewrite <- Heq.
  by apply list_elem_of_fmap_2.
Qed.

Lemma race_loop_first_success return_condition (pre : list (future R)) :
  ∀ fs to_cancel sk ex fw res rest,
  NoDup (fut_id <$> fs) →
  NoDup (fut_id <$> (pre ++ [fw])) →
  Forall (fun g => g ∈ fs) (pre ++ [fw]) →
  Forall (fun g => rejected return_condition (fut_outcome g)) pre →
  fut_outcome fw = Ok res → return_condition res = true →
  race_loop return_condition (((fun g => [fut_id g]) <$> pre) ++ [fut_id fw] :: rest)
    fs to_cancel sk ex
  = RaceRun (RaceReturn (Some res)
               (sk ++ omap (fun g => success_of (fut_outcome g)) pre)
               (ex ++ omap (fun g => failure_of (fut_outcome g)) pre))
      (fut_id <$> without_ids (fut_id <$> (pre ++ [fw])) fs).
Proof.
  induction pre as [|f pre IH]; intros fs to_cancel sk ex fw res rest Hnd Hpre Hin Hrej Ho Hc.
  - cbn [fmap list_fmap app omap list_omap]. rewrite !app_nil_r.
    cbn [app] in Hin. rewrite Forall_singleton in Hin.
    rewrite (race_loop_single _ _ _ _ _ _ fw Hnd Hin), Ho, Hc. reflexivity.
  - pose proof (still_outstanding f pre fw fs Hpre Hin) as Hin'.
    apply Forall_cons in Hrej as [Hf Hrej].
    assert (Hfin : f ∈ fs) by (by apply Forall_cons in Hin as [? _]).
    assert (Hpre' : NoDup (fut_id <$> (pre ++ [fw])))
      by (by rewrite <- app_comm_cons, fmap_cons, NoDup_cons in Hpre; destruct Hpre).
    pose proof (NoDup_without_ids [fut_id f] fs Hnd) as Hnd'.
    rewrite <- ?app_comm_cons, !fmap_cons, <- ?app_comm_cons.
    rewrite (race_loop_single _ _ _ _ _ _ f Hnd Hfin).
    change (fut_id f :: (fut_id <$> pre ++ [fw]))
      with ([fut_id f] ++ (fut_id <$> pre ++ [fw])).
    rewrite <- (without_ids_without_ids [fut_id f]).
    cbn [omap list_omap].
    destruct (fut_outcome f) as [r|e] eqn:Ef; cbn [rejected success_of failure_of] in *.
    + rewrite Hf. rewrite (IH _ _ _ _ fw res rest Hnd' Hpre' Hin' Hrej Ho Hc).
      by rewrite <- app_assoc.
    + destruct (without_ids [fut_id f] fs) as [|g0 gs0] eqn:Ew.
      * exfalso. rewrite Forall_forall in Hin'.
        specialize (Hin' fw). eapply elem_of_nil, Hin'.
        apply elem_of_app. right. by apply list_elem_of_singleton.
      * rewrite (IH _ _ _ _ fw res rest Hnd' Hpre' Hin' Hrej Ho Hc).
        by rewrite <- app_assoc.
Qed.

Lemma race_loop_all_rejected_last_fails return_condition (pre : list (future R)) :
  ∀ fs to_cancel sk ex fl e,
  NoDup (fut_id <$> fs) →
  NoDup (fut_id <$> (pre ++ [fl])) →
  Forall (fun g => g ∈ fs) (pre ++ [fl]) →
  (∀ g, g ∈ fs → g ∈ pre ++ [fl]) →
  Forall (fun g => rejected return_condition (fut_outcome g)) pre →
  fut_outcome fl = Raise e →
  race_loop return_condition (((fun g => [fut_id g]) <$> pre) ++ [[fut_id fl]])
    fs to_cancel sk ex
  = RaceRun (RaceRaise e
               (sk ++ omap (fun g => success_of (fut_outcome g)) pre)
               (ex ++ omap (fun g => failure_of (fut_outcome g)) pre ++ [e]))
      [].
Proof.
  induction pre as [|f pre IH]; intros fs to_cancel sk ex fl e Hnd Hpre Hin Hcov Hrej Ho.
  - cbn [fmap list_fmap app omap list_omap]. rewrite !app_nil_r.
    cbn [app] in Hin. rewrite Forall_singleton in Hin.
    rewrite (race_loop_single _ _ _ _ _ _ fl Hnd Hin), Ho.
    destruct (without_ids [fut_id fl] fs) as [|g0 gs0] eqn:Ew; [reflexivity|].
    exfalso. assert (Hg0 : g0 ∈ without_ids [fut_id fl] fs) by (rewrite Ew; by left).
    apply elem_of_without_ids in Hg0 as [Hg0 Hne].
    apply Hcov, list_elem_of_singleton in Hg0. subst g0.
    apply Hne. by apply list_elem_of_singleton.
  - pose proof (still_outstanding f pre fl fs Hpre Hin) as Hin'.
    apply Forall_cons in Hrej as [Hf Hrej].
    assert (Hfin : f ∈ fs) by (by apply Forall_cons in Hin as [? _]).
    assert (Hpre' : NoDup (fut_id <$> (pre ++ [fl])))
      by (by rewrite <- app_comm_cons, fmap_cons, NoDup_cons in Hpre; destruct Hpre).
    pose proof (NoDup_without_ids [fut_id f] fs Hnd) as Hnd'.
    assert (Hcov' : ∀ g, g ∈ without_ids [fut_id f] fs → g ∈ pre ++ [fl]).
    { intros g [Hg Hne]%elem_of_without_ids.
      apply Hcov in Hg. rewrite <- app_comm_cons in Hg.
      apply elem_of_cons in Hg as [->|Hg]; [|exact Hg].
      exfalso. apply Hne. by apply list_elem_of_singleton. }
    rewrite <- ?app_comm_cons, !fmap_cons, <- ?app_comm_cons.
    rewrite (race_loop_single _ _ _ _ _ _ f Hnd Hfin).
    cbn [omap list_omap].
    destruct (fut_outcome f) as [r|e0] eqn:Ef; cbn [rejected success_of failure_of] in *.
    + rewrite Hf. rewrite (IH _ _ _ _ fl e Hnd' Hpre' Hin' Hcov' Hrej Ho).
      by rewrite <- app_assoc.
    + destruct (without_ids [fut_id f] fs) as [|g0 gs0] eqn:Ew.
      * exfalso. rewrite Forall_forall in Hin'.
        specialize (Hin' fl). eapply elem_of_nil, Hin'.
        apply elem_of_app. right. by apply list_elem_of_singleton.
      * rewrite (IH _ _ _ _ fl e Hnd' Hpre' Hin' Hcov' Hrej Ho).
        by rewrite <- !app_assoc.
Qed.

Lemma imap_Future_ids (tasks : list (result R)) :
  fut_id <$> imap Future tasks = seq 0 (length tasks).
Proof.
  apply list_eq. intros i. rewrite list_lookup_fmap, list_lookup_imap.
  destruct (tasks !! i) as [o|] eqn:E; cbn; symmetry.
  - apply lookup_seq. split; [reflexivity|]. by apply lookup_lt_Some in E.
  - apply lookup_ge_None. rewrite length_seq. by apply lookup_ge_None in E.
Qed.

Lemma NoDup_imap_Future (tasks : list (result R)) :
  NoDup (fut_id <$> imap Future tasks).
Proof. rewrite imap_Future_ids. apply NoDup_seq. Qed.

Lemma fmap_without_ids ids fs :
  fut_id <$> without_ids ids fs =
  List.filter (fun j => negb (existsb (Nat.eqb j) ids)) (fut_id <$> fs).
Proof.
  unfold without_ids. induction fs as [|g fs IH]; [reflexivity|].
  rewrite fmap_cons. cbn [List.filter].
  destruct (negb _); [rewrite fmap_cons|]; by rewrite IH.
Qed.

Lemma cancelled_not_yet_done ids (tasks : list (result R)) :
  fut_id <$> without_ids ids (imap Future tasks) = not_yet_done ids (length tasks).
Proof. by rewrite fmap_without_ids, imap_Future_ids. Qed.

Lemma Future_in_imap (tasks : list (result R)) (i : nat) (o : result R) :
  tasks !! i = Some o → Future i o ∈ imap Future tasks.
Proof. intros H. by apply (elem_of_lookup_imap_2 Future tasks o i). Qed.

(** X1.  When every wait finds one future, the first success that the
    condition accepts is returned, with the successes skipped and the
    failures recorded before it, in completion order, and exactly the
    tasks that are not yet done are cancelled.  [pre] lists the tasks done
    before the winner [w], with their outcomes. *)
Theorem wait_first_non_exception_first_success (tasks : list (result R))
    (return_condition : R -> bool) (pre : list (nat * result R)) (w : nat) (res : R)
    (rest : list (list nat)) :
  NoDup (pre.*1 ++ [w]) →
  Forall (fun p => tasks !! p.1 = Some p.2 ∧ rejected return_condition p.2) pre →
  tasks !! w = Some (Ok res) →
  return_condition res = true →
  wait_first_non_exception tasks return_condition
    (((fun p => [p.1]) <$> pre) ++ [w] :: rest)
  = RaceRun (RaceReturn (Some res) (omap success_of pre.*2) (omap failure_of pre.*2))
      (not_yet_done (pre.*1 ++ [w]) (length tasks)).
Proof.
  intros Hnd Hpre Hw Hc. unfold wait_first_non_exception.
  pose (pre_fs := (fun p : nat * result R => Future p.1 p.2) <$> pre).
  assert (Hids : fut_id <$> pre_fs = pre.*1)
    by (unfold pre_fs; rewrite <- list_fmap_compose; reflexivity).
  assert (Hsched : (fun g : future R => [fut_id g]) <$> pre_fs = (fun p => [p.1]) <$> pre)
    by (unfold pre_fs; rewrite <- list_fmap_compose; reflexivity).
  assert (Hsk : omap (fun g : future R => success_of (fut_outcome g)) pre_fs
                = omap success_of pre.*2).
  { unfold pre_fs. clear. induction pre as [|[i o] pre IH]; [reflexivity|].
    cbn. rewrite IH. reflexivity. }
  assert (Hex : omap (fun g : future R => failure_of (fut_outcome g)) pre_fs
                = omap failure_of pre.*2).
  { unfold pre_fs. clear. induction pre as [|[i o] pre IH]; [reflexivity|].
    cbn. rewrite IH. reflexivity. }
  assert (Hin : Forall (fun g => g ∈ imap Future tasks) (pre_fs ++ [Future w (Ok res)])).
  { apply Forall_app. split.
    - unfold pre_fs. apply Forall_fmap. eapply Forall_impl; [exact Hpre|].
      intros [i o] [Hi _]. by apply Future_in_imap.
    - apply Forall_singleton. by apply Future_in_imap. }
  assert (Hrej : Forall (fun g => rejected return_condition (fut_outcome g)) pre_fs).
  { unfold pre_fs. apply Forall_fmap. eapply Forall_impl; [exact Hpre|].
    by intros [i o] [_ Hr]. }
  assert (Hnd' : NoDup (fut_id <$> pre_fs ++ [Future w (Ok res)]))
    by (by rewrite fmap_app, Hids).
  pose proof (race_loop_first_success return_condition pre_fs (imap Future tasks)
                [] [] [] (Future w (Ok res)) res rest
                (NoDup_imap_Future tasks) Hnd' Hin Hrej eq_refl Hc) as H.
  rewrite Hsched, Hsk, Hex, cancelled_not_yet_done, fmap_app, Hids in H.
  exact H.
Qed.

(** X2.  When every wait finds one future and every task fails, each failure
    is recorded, in completion order, and the failure of the task that
    completes last is raised.  [pre] lists the tasks done before the last
    one [l], with their failures. *)
Theorem wait_first_non_exception_all_fail (tasks : list (result R))
    (return_condition : R -> bool) (pre : list (nat * exn)) (l : nat) (e : exn) :
  pre.*1 ++ [l] ≡ₚ seq 0 (length tasks) →
  Forall (fun p => tasks !! p.1 = Some (Raise p.2)) (pre ++ [(l, e)]) →
  wait_first_non_exception tasks return_condition (((fun p => [p.1]) <$> pre) ++ [[l]])
  = RaceRun (RaceRaise e [] (pre.*2 ++ [e])) [].
Proof.
  intros Hperm Hall. unfold wait_first_non_exception.
  pose (mk := fun p : nat * exn => Future (R := R) p.1 (Raise p.2)).
  pose (pre_fs := mk <$> pre).
  assert (Hids : fut_id <$> pre_fs = pre.*1)
    by (unfold pre_fs; rewrite <- list_fmap_compose; reflexivity).
  assert (Hsched : (fun g : future R => [fut_id g]) <$> pre_fs = (fun p => [p.1]) <$> pre)
    by (unfold pre_fs; rewrite <- list_fmap_compose; reflexivity).
  assert (Hsk : omap (fun g : future R => success_of (fut_outcome g)) pre_fs = []).
  { unfold pre_fs. clear. induction pre as [|[i o] pre IH]; [reflexivity|]. exact IH. }
  assert (Hex : omap (fun g : future R => failure_of (fut_outcome g)) pre_fs = pre.*2).
  { unfold pre_fs. clear. induction pre as [|[i o] pre IH]; [reflexivity|].
    cbn. rewrite IH. reflexivity. }
  assert (Hin : Forall (fun g => g ∈ imap Future tasks) (mk <$> (pre ++ [(l, e)]))).
  { apply Forall_fmap. eapply Forall_impl; [exact Hall|].
    intros [i x] Hi. by apply Future_in_imap. }
  assert (Hnd' : NoDup (fut_id <$> pre_fs ++ [mk (l, e)])).
  { rewrite fmap_app, Hids. cbn. rewrite Hperm. apply NoDup_seq. }
  assert (Hin' : Forall (fun g => g ∈ imap Future tasks) (pre_fs ++ [mk (l, e)]))
    by (by rewrite fmap_app in Hin).
  assert (Hcov : ∀ g, g ∈ imap Future tasks → g ∈ pre_fs ++ [mk (l, e)]).
  { intros g Hg. apply elem_of_lookup_imap_1 in Hg as (i & o & -> & Hi).
    assert (Hi' : i ∈ (pre ++ [(l, e)]).*1).
    { rewrite fmap_app. cbn. rewrite Hperm. apply elem_of_seq.
      apply lookup_lt_Some in Hi. lia. }
    apply list_elem_of_fmap in Hi' as ([j x] & -> & Hp).
    rewrite Forall_forall in Hall. specialize (Hall _ Hp). cbn in Hall, Hi.
    rewrite Hi in Hall. injection Hall as ->.
    change (pre_fs ++ [mk (l, e)]) with ((mk <$> pre) ++ (mk <$> [(l, e)])).
    rewrite <- fmap_app. by apply (list_elem_of_fmap_2 mk) in Hp. }
  assert (Hrej : Forall (fun g => rejected return_condition (fut_outcome g)) pre_fs).
  { unfold pre_fs. apply Forall_fmap, Forall_true. by intros [i x]. }
  pose proof (race_loop_all_rejected_last_fails return_condition pre_fs
                (imap Future tasks) [] [] [] (mk (l, e)) e
                (NoDup_imap_Future tasks) Hnd' Hin' Hcov Hrej eq_refl) as H.
  rewrite Hsched, Hsk, Hex in H.
  exact H.
Qed.

End RaceSequential.

(** ** Calling [solve] *)

Section SolveFacts.
Context (env : Env).

(** The call of line 267-271 does not bind: [solve] has no parameter
    [fill_user_agent]. *)
Lemma solve_with_fill_user_agent (fr : frame) (fork_i : nat) :
  solve env [ArgRequest (fr_solve_request fr)]
    (solve_keywords fr fork_i ++ [("fill_user_agent"%string, ArgVal (VBool false))])
  = ([], Raise unexpected_fill_user_agent).
Proof. reflexivity. Qed.

(** The call of line 252-255 binds, and the body runs. *)
Lemma solve_primary (fr : frame) (fork_i : nat) :
  solve env [ArgRequest (fr_solve_request fr)] (solve_keywords fr fork_i)
  = let ctor := {| ctor_proxy := Some (fr_proxy fr);
                   ctor_log_prefix := log_prefix_of fork_i;
                   ctor_kwargs := fr_local_solver_args fr |} in
    ([EvLog (log_prefix_of fork_i +:+ "Solve start"); EvSolver ctor "solve"],
     solver_solve env ctor (fr_solve_request fr)).
Proof. reflexivity. Qed.

End SolveFacts.

(** ** The deferred scheduler *)

Section DeferredFacts.
Context (env : Env).

(** A positive delay: one suspension of that length, then the task. *)
Lemma deffered_call_positive {A} (task_ : unit -> task A) (timeout : Q) :
  (0 < timeout)%Q →
  deffered_call task_ timeout = (EvSleep timeout :: fst (task_ tt), snd (task_ tt)).
Proof.
  intros H. unfold deffered_call.
  destruct (Qle_bool timeout 0) eqn:E.
  - apply Qle_bool_iff in E. exfalso. by apply (Qlt_not_le _ _ H).
  - simpl. by destruct (task_ tt) as [tr [a|e]].
Qed.

(** No positive delay: the task at once, with no suspension. *)
Lemma deffered_call_immediate {A} (task_ : unit -> task A) (timeout : Q) :
  (timeout <= 0)%Q →
  deffered_call task_ timeout = task_ tt.
Proof.
  intros H. unfold deffered_call.
  apply Qle_bool_iff in H. rewrite H. simpl.
  by destruct (task_ tt) as [tr [a|e]].
Qed.

(** A deferred factory sleeps for the delay that the variable
    [forks_model] holds when the factory is called, and then fails to
    call [solve]. *)
Lemma call_deferred (fr : frame) (m : DefferedForksModel) (fork_i : nat) :
  fr_forks_model fr = Some m →
  call_factory env fr (DeferredFactory fork_i) =
  ((if Qle_bool (delay m) 0 then [] else [EvSleep (delay m)]),
   Raise unexpected_fill_user_agent).
Proof.
  intros H. unfold call_factory. rewrite H.
  unfold deffered_call. rewrite solve_with_fill_user_agent.
  by destruct (Qle_bool (delay m) 0).
Qed.

End DeferredFacts.

(** ** What [setup] hands to the race *)

Lemma setup_inv env globals url cmd cookies max_timeout proxy params forks fr tasks :
  setup env globals url cmd cookies max_timeout proxy params forks = Ok (fr, tasks) →
  let gs := match forks with None => default_forks globals | Some gs => gs end in
  tasks = solve_tasks (fork_plan gs)
  ∧ fr_forks_model fr = last gs
  ∧ fr_proxy fr = proxy
  ∧ req_proxy (fr_solve_request fr) = proxy.
Proof.
  unfold setup. intros H.
  destruct (isolate_dir env "debug_dir" _ _) as [a1|]; [|discriminate].
  cbn in H.
  destruct (isolate_dir env "challenge_screenshots_dir" _ _) as [a2|]; [|discriminate].
  cbn in H. injection H as <- <-. cbn.
  by rewrite fork_plan_spec.
Qed.

(** * The statements of the specification *)

(** ** The race coordinator *)

(** C1, at a failing input.  Two tasks, the first fails with [e] and the
    second succeeds with [res]; both are done when the first
    [asyncio.wait] returns and the loop visits them in that order.  The
    coordinator removes both from [task_features], meets the failure
    first, finds [task_features] empty and raises [e]: the success that
    already sits in [finished] is never looked at, and no triple is
    returned. *)
Theorem race_raises_despite_success {R : Type} (e : exn) (res : R) :
  wait_first_non_exception [Raise e; Ok res] accept_any [[0; 1]%nat]
  = RaceRun (RaceRaise e [] [e]) [].
Proof. reflexivity. Qed.

(** The same two tasks visited in the other order: the success wins. *)
Lemma race_returns_success_visited_first {R : Type} (e : exn) (res : R) :
  wait_first_non_exception [Raise e; Ok res] accept_any [[1; 0]%nat]
  = RaceRun (RaceReturn (Some res) [] []) [].
Proof. reflexivity. Qed.

(** C4, at a failing input.  Two tasks fail with [e0] and [e1]; both are
    done when the first [asyncio.wait] returns and the loop visits them
    in that order.  The coordinator raises [e0] as soon as it has
    recorded it: [e1] is neither recorded nor propagated. *)
Theorem race_raises_before_recording_all {R : Type} (e0 e1 : exn) :
  wait_first_non_exception (R := R) [Raise e0; Raise e1] accept_any [[0; 1]%nat]
  = RaceRun (RaceRaise e0 [] [e0]) [].
Proof. reflexivity. Qed.

(** When the two failures are found by two successive waits, both are
    recorded and the later one is raised. *)
Lemma race_raises_last_of_two {R : Type} (e0 e1 : exn) :
  wait_first_non_exception (R := R) [Raise e0; Raise e1] accept_any [[1]; [0]]%nat
  = RaceRun (RaceRaise e0 [] [e1; e0]) [].
Proof. reflexivity. Qed.

(** The same defect seen from a request: one fork, whose coroutine
    fails as every fork does, is done together with the primary attempt,
    which succeeds, and is visited first.  The request is answered with
    the fork's error. *)
Lemma request_fails_despite_primary_success :
  process_solve_request (sample_env [[1; 0]%nat]) sample_globals "https://x.com"
    "get_cookies" None 60000 None None (Some [ {| forks := 1; delay := 0 |} ])
  = Responds {| status := "error";
                message := "Error: solve() got an unexpected keyword argument 'fill_user_agent'";
                startTimestamp := 100;
                endTimestamp := 101;
                solution := None |}.
Proof. reflexivity. Qed.

(** A batch of one task that fails raises that failure at once. *)
Lemma race_single_failure {R : Type} (e : exn) (return_condition : R -> bool) :
  wait_first_non_exception [Raise e] return_condition [[0]%nat]
  = RaceRun (RaceRaise e [] [e]) [].
Proof. reflexivity. Qed.

(** ** The deferred scheduler and the fork groups *)

(** C6, at a failing input.  Two fork groups, one member each, with
    delays 5 and 10.  The member of the first group (task 1) is a lambda
    whose body reads [forks_model.delay] when it is called, which is in
    [wait_first_non_exception], after the loop has left [forks_model] at
    the last group: it sleeps 10, not 5. *)
Theorem first_group_sleeps_last_delay :
  match setup (sample_env []) sample_globals "https://x.com" "get_cookies"
          None 60000 None None (Some two_groups) with
  | Ok (fr, tasks) =>
      tasks = [PrimaryFactory 0; DeferredFactory 1; DeferredFactory 2]
      ∧ fst (call_factory (sample_env []) fr (DeferredFactory 1)) = [EvSleep 10]
      ∧ fst (call_factory (sample_env []) fr (DeferredFactory 2)) = [EvSleep 10]
  | Raise _ => False
  end.
Proof. vm_compute. repeat split. Qed.

(** In general every deferred task sleeps for the delay of the last
    group of the list. *)
Lemma deferred_tasks_use_last_group env globals url cmd cookies max_timeout proxy params
    (gs : list DefferedForksModel) fr tasks (m : DefferedForksModel) (i : nat) :
  setup env globals url cmd cookies max_timeout proxy params (Some gs) = Ok (fr, tasks) →
  last gs = Some m →
  fst (call_factory env fr (DeferredFactory i))
  = if Qle_bool (delay m) 0 then [] else [EvSleep (delay m)].
Proof.
  intros Hs Hl. apply setup_inv in Hs as (_ & Hfm & _). cbn in Hfm.
  rewrite Hl in Hfm. by rewrite (call_deferred env fr m i Hfm).
Qed.

(** C10.  Once [setup] has built the tasks, every task other than the
    first is a deferred fork whose coroutine sleeps for its delay (when
    positive) and then raises the [TypeError] of the call that passes
    [fill_user_agent] to [solve]; and whenever the race returns a result,
    it is the result of task 0, the primary attempt. *)
Theorem fork_attempts_raise env globals url cmd cookies max_timeout proxy params forks
    fr tasks :
  setup env globals url cmd cookies max_timeout proxy params forks = Ok (fr, tasks) →
  (∀ (i : nat) (t : task_factory), tasks !! i = Some t → i ≠ 0%nat →
     ∃ m, fr_forks_model fr = Some m
          ∧ call_factory env fr t =
            ((if Qle_bool (delay m) 0 then [] else [EvSleep (delay m)]),
             Raise unexpected_fill_user_agent))
  ∧ (∀ res skipped excs,
       race_exit_of (solve_race env fr tasks) = RaceReturn (Some res) skipped excs →
       tasks !! 0%nat = Some (PrimaryFactory 0)
       ∧ snd (call_factory env fr (PrimaryFactory 0)) = Ok res).
Proof.
  intros Hs. apply setup_inv in Hs as (Ht & Hfm & _). cbn zeta in Ht, Hfm.
  set (gs := match forks with None => default_forks globals | Some gs => gs end) in *.
  assert (Hforks : ∀ (i : nat) (t : task_factory), tasks !! i = Some t → i ≠ 0%nat →
     ∃ m, fr_forks_model fr = Some m
          ∧ call_factory env fr t =
            ((if Qle_bool (delay m) 0 then [] else [EvSleep (delay m)]),
             Raise unexpected_fill_user_agent)).
  { intros i t Hi Hne. subst tasks.
    destruct (fork_plan_lookup gs i t Hi) as [[-> _]|[_ ->]]; [done|].
    destruct (last gs) as [m|] eqn:El.
    - exists m. split; [done|]. by apply call_deferred.
    - apply last_None in El. rewrite El in Hi. by destruct i. }
  split; [exact Hforks|].
  intros res sk ex Hr. unfold solve_race in Hr.
  apply wait_first_non_exception_winner in Hr as (i & Hi & _).
  rewrite list_lookup_fmap in Hi.
  destruct (tasks !! i) as [t|] eqn:Et; [|discriminate]. simpl in Hi.
  destruct (decide (i = 0%nat)) as [->|Hne].
  - subst tasks. destruct (fork_plan_lookup gs 0 t Et) as [[_ ->]|[? _]]; [|done].
    split; [done|]. by injection Hi.
  - destruct (Hforks i t Et Hne) as (m & _ & Hc). rewrite Hc in Hi. discriminate.
Qed.

Lemma fork_attempts_raise_witness :
  ∃ fr tasks,
    setup (sample_env [[1]; [0]]%nat) sample_globals "https://x.com" "get_cookies"
      None 60000 None None (Some two_groups) = Ok (fr, tasks)
    ∧ (∀ (i : nat) (t : task_factory), tasks !! i = Some t → i ≠ 0%nat →
         ∃ m, fr_forks_model fr = Some m
              ∧ call_factory (sample_env [[1]; [0]]%nat) fr t =
                ((if Qle_bool (delay m) 0 then [] else [EvSleep (delay m)]),
                 Raise unexpected_fill_user_agent))
    ∧ (∀ res skipped excs,
         race_exit_of (solve_race (sample_env [[1]; [0]]%nat) fr tasks)
           = RaceReturn (Some res) skipped excs →
         tasks !! 0%nat = Some (PrimaryFactory 0)
         ∧ snd (call_factory (sample_env [[1]; [0]]%nat) fr (PrimaryFactory 0)) = Ok res).
Proof.
  eexists _, _. split; [reflexivity|].
  apply (fork_attempts_raise (sample_env [[1]; [0]]%nat) sample_globals
           "https://x.com" "get_cookies" None 60000 None None (Some two_groups)).
  reflexivity.
Defined.

(** ** The fork plan *)

(** C5.  For fork groups whose counts are not negative, the plan has
    one task more than the sum of the counts; task 0 is the primary
    attempt, which is not deferred; the task at position [i] carries
    index [i]; the members of a group follow, in one block, the tasks of
    the groups before it; and the index reaches the solver only through
    the log prefix: the coroutine of the primary factory differs from one
    index to another in the prefix alone, and the coroutine of a deferred
    factory does not depend on the index at all. *)
Theorem fork_plan_shape (gs : list DefferedForksModel) :
  Forall (fun g => 0 <= forks g) gs →
  let tasks := solve_tasks (fork_plan gs) in
  Z.of_nat (length tasks) = 1 + sum_forks gs
  ∧ tasks !! 0%nat = Some (PrimaryFactory 0)
  ∧ factory_index <$> tasks = seq 0 (length tasks)
  ∧ (∀ (i : nat) (t : task_factory), tasks !! i = Some t → i ≠ 0%nat →
       t = DeferredFactory i)
  ∧ (∀ pre g post, gs = pre ++ g :: post →
       ∃ later,
         tasks = solve_tasks (fork_plan pre)
                   ++ (DeferredFactory <$>
                         seq (length (solve_tasks (fork_plan pre))) (Z.to_nat (forks g)))
                   ++ later)
  ∧ (∀ env fr (i : nat),
       call_factory env fr (PrimaryFactory i) =
       let ctor := {| ctor_proxy := Some (fr_proxy fr);
                      ctor_log_prefix := "fork #" +:+ pretty i +:+ ", ";
                      ctor_kwargs := fr_local_solver_args fr |} in
       ([EvLog (("fork #" +:+ pretty i +:+ ", ") +:+ "Solve start");
         EvSolver ctor "solve"],
        solver_solve env ctor (fr_solve_request fr)))
  ∧ (∀ env fr (i j : nat),
       call_factory env fr (DeferredFactory i) = call_factory env fr (DeferredFactory j)).
Proof.
  intros Hpos tasks. subst tasks.
  (* the two statements about coroutines hold by computation *)
  repeat split.
  - rewrite fork_plan_length.
    induction Hpos as [|g gs' Hg _ IH]; [reflexivity|].
    cbn [total_forks sum_forks foldr]. fold (total_forks gs') (sum_forks gs').
    lia.
  - by rewrite fork_plan_spec.
  - apply fork_plan_indices.
  - intros i t Hi Hne. by destruct (fork_plan_lookup gs i t Hi) as [[-> _]|[_ ->]].
  - intros pre g post ->. rewrite fork_plan_length, !fork_plan_spec.
    cbn [solve_tasks]. rewrite total_forks_app. cbn [total_forks foldr].
    fold (total_forks post).
    exists (DeferredFactory <$>
              seq (S (total_forks pre) + Z.to_nat (forks g)) (total_forks post)).
    rewrite !seq_app, !fmap_app. reflexivity.
Qed.

Lemma fork_plan_shape_witness :
  let gs := [ {| forks := 3; delay := 5 |}; {| forks := 2; delay := 0 |} ] in
  Forall (fun g => 0 <= forks g) gs
  ∧ Z.of_nat (length (solve_tasks (fork_plan gs))) = 1 + sum_forks gs
  ∧ solve_tasks (fork_plan gs) !! 0%nat = Some (PrimaryFactory 0).
Proof.
  intros gs.
  assert (H : Forall (fun g => 0 <= forks g) gs)
    by (repeat constructor; simpl; lia).
  split; [exact H|].
  destruct (fork_plan_shape gs H) as (Hlen & Hfirst & _).
  split; [exact Hlen | exact Hfirst].
Defined.

(** ** Proxy normalization *)

(** C7.  A proxy object without [url] becomes no proxy.  When the
    parser finds a scheme and a host in [url], the object becomes
    [scheme://host] followed by the port when the parser found one (other
    than 0), with [username:password@] before the host when [username] is
    given and not empty, and nothing there otherwise; what the parser
    found as credentials in [url] does not appear.  So the object with
    url [http://1.2.3.4:8080], username [u] and password [p] becomes
    [http://u:p@1.2.3.4:8080]. *)
Theorem proxy_object_normalization (env : Env) (p : ProxyModel) :
  (proxy_url p = None → normalize_proxy env (Some (ProxyObj p)) = Ok None)
  ∧ (∀ url parsed scheme hostname,
       proxy_url p = Some url →
       parse_url env url = Ok parsed →
       url_scheme parsed = Some scheme →
       url_hostname parsed = Some hostname →
       let port := match url_port parsed with
                   | Some n => if n =? 0 then "" else ":" +:+ pretty n
                   | None => ""
                   end in
       normalize_proxy env (Some (ProxyObj p)) =
       Ok (Some match proxy_username p with
                | None => scheme +:+ "://" +:+ hostname +:+ port
                | Some u =>
                    if String.eqb u "" then scheme +:+ "://" +:+ hostname +:+ port
                    else scheme +:+ "://" +:+ u +:+ ":" +:+ default "" (proxy_password p)
                           +:+ "@" +:+ hostname +:+ port
                end))
  ∧ (∀ parsed,
       p = proxy_1234 →
       parse_url env "http://1.2.3.4:8080" = Ok parsed →
       url_scheme parsed = Some "http"%string →
       url_hostname parsed = Some "1.2.3.4"%string →
       url_port parsed = Some 8080 →
       normalize_proxy env (Some (ProxyObj p)) = Ok (Some "http://u:p@1.2.3.4:8080"%string)).
Proof.
  split; [|split].
  - intros H. unfold normalize_proxy. by rewrite H.
  - intros url parsed scheme hostname Hu Hp Hs Hh port.
    unfold normalize_proxy. rewrite Hu, Hp. cbn. rewrite Hs. cbn. rewrite Hh. cbn.
    fold port. do 2 f_equal.
    destruct (proxy_username p) as [u|]; cbn.
    + destruct (String.eqb u ""); cbn.
      * by rewrite !append_assoc.
      * rewrite !append_assoc. do 5 f_equal.
        destruct (proxy_password p) as [pw|]; cbn; [|reflexivity].
        destruct (String.eqb pw "") eqn:E; cbn; [|reflexivity].
        apply String.eqb_eq in E. by subst.
    + by rewrite !append_assoc.
  - intros parsed -> Hp Hs Hh Hport.
    unfold normalize_proxy. cbn. rewrite Hp. cbn. rewrite Hs. cbn. rewrite Hh. cbn.
    by rewrite Hport.
Qed.

Lemma proxy_object_normalization_witness :
  normalize_proxy (sample_env []) (Some (ProxyObj proxy_1234))
  = Ok (Some "http://u:p@1.2.3.4:8080"%string)
  ∧ normalize_proxy (sample_env [])
      (Some (ProxyObj {| proxy_url := Some "http://a:b@1.2.3.4:8080"%string;
                         proxy_username := None; proxy_password := None |}))
    = Ok (Some "http://1.2.3.4:8080"%string).
Proof.
  split.
  - apply (proj2 (proj2 (proxy_object_normalization (sample_env []) proxy_1234))
             {| url_scheme := Some "http"%string; url_auth := None;
                url_hostname := Some "1.2.3.4"%string; url_port := Some 8080;
                url_path := None |});
      reflexivity.
  - apply (proj1 (proj2 (proxy_object_normalization (sample_env [])
                           {| proxy_url := Some "http://a:b@1.2.3.4:8080"%string;
                              proxy_username := None; proxy_password := None |}))
             "http://a:b@1.2.3.4:8080"%string
             {| url_scheme := Some "http"%string; url_auth := Some "a:b"%string;
                url_hostname := Some "1.2.3.4"%string; url_port := Some 8080;
                url_path := None |}
             "http"%string "1.2.3.4"%string);
      reflexivity.
Defined.

(** C3, at failing inputs.  The proxy object is turned into a string
    before the [try] of line 225: when the parser finds no scheme in its
    [url], line 214 adds [None] and a string, and the [TypeError] leaves
    [process_solve_request]; no response is built. *)
Theorem proxy_failure_escapes env globals url cmd cookies max_timeout
    (p : ProxyModel) params forks (purl : string) (parsed : Url) :
  proxy_url p = Some purl →
  parse_url env purl = Ok parsed →
  url_scheme parsed = None →
  process_solve_request env globals url cmd cookies max_timeout
    (Some (ProxyObj p)) params forks
  = Escapes none_plus_str.
Proof.
  intros Hu Hp Hs. unfold process_solve_request, normalize_proxy.
  rewrite Hu, Hp. cbn. by rewrite Hs.
Qed.

Lemma proxy_failure_escapes_witness :
  process_solve_request (sample_env [[0]%nat]) sample_globals "https://x.com" "get_cookies"
    None 60000 (Some (ProxyObj proxy_no_scheme)) None None
  = Escapes none_plus_str.
Proof.
  apply (proxy_failure_escapes (sample_env [[0]%nat]) sample_globals "https://x.com"
           "get_cookies" None 60000 proxy_no_scheme None None "google.com:80"
           {| url_scheme := None; url_auth := None;
              url_hostname := Some "google.com"%string; url_port := Some 80;
              url_path := None |});
    reflexivity.
Defined.

(** An error of the parser itself escapes in the same way. *)
Lemma parser_failure_escapes env globals url cmd cookies max_timeout
    (p : ProxyModel) params forks (purl : string) (e : exn) :
  proxy_url p = Some purl →
  parse_url env purl = Raise e →
  process_solve_request env globals url cmd cookies max_timeout
    (Some (ProxyObj p)) params forks
  = Escapes e.
Proof.
  intros Hu Hp. unfold process_solve_request, normalize_proxy. by rewrite Hu, Hp.
Qed.

(** Past the proxy, nothing escapes: a failure of the [try] body becomes
    the error response, with the message that line 309 builds. *)
Lemma failure_in_try_is_answered env globals url cmd cookies max_timeout proxy proxy'
    params forks (e : exn) :
  normalize_proxy env proxy = Ok proxy' →
  try_body env globals (now_start env) url cmd cookies max_timeout proxy' params forks
    = Done (Raise e) →
  process_solve_request env globals url cmd cookies max_timeout proxy params forks
  = Responds {| status := "error";
                message := "Error: " +:+ exn_str e;
                startTimestamp := now_start env;
                endTimestamp := now_end env;
                solution := None |}.
Proof. intros Hn Ht. unfold process_solve_request. by rewrite Hn, Ht. Qed.

Lemma nothing_escapes_past_the_proxy env globals url cmd cookies max_timeout proxy proxy'
    params forks (e : exn) :
  normalize_proxy env proxy = Ok proxy' →
  process_solve_request env globals url cmd cookies max_timeout proxy params forks
  ≠ Escapes e.
Proof.
  intros Hn. unfold process_solve_request. rewrite Hn.
  by destruct (try_body _ _ _ _ _ _ _ _ _ _) as [[r|e']|].
Qed.

(** ** The identity fetch *)

Section IdentityFacts.
Context (env : Env).

Lemma identity_fetch_trace (fr : frame) (max_timeout : Z) :
  fst (identity_fetch env fr max_timeout) =
  [EvSolver {| ctor_proxy := None; ctor_log_prefix := "fork user-agent";
               ctor_kwargs := fr_local_solver_args fr |} "get_user_agent";
   EvWaitFor (inject_Z max_timeout / 1000)%Q].
Proof.
  unfold identity_fetch, get_user_agent. cbn.
  by destruct (asyncio_wait_for _) as [ua|e]; [|destruct (is_timeout_error env e)].
Qed.

Lemma identity_fetch_expired (fr : frame) (max_timeout : Z) :
  solver_get_user_agent env
    {| ctor_proxy := None; ctor_log_prefix := "fork user-agent";
       ctor_kwargs := fr_local_solver_args fr |} = ProbeExpired →
  snd (identity_fetch env fr max_timeout) =
  Raise (Exception ("On user-agent getting: Processing timeout (max_timeout="
                      +:+ pretty max_timeout +:+ ")")).
Proof.
  intros H. unfold identity_fetch, get_user_agent. cbn. rewrite H. reflexivity.
Qed.

(** The solver constructions of an attempt. *)
Lemma attempt_ctors (fr : frame) (t : task_factory) (c : SolverCtor) :
  c ∈ solver_ctors (fst (call_factory env fr t)) →
  ctor_kwargs c = fr_local_solver_args fr ∧ ctor_proxy c = Some (fr_proxy fr).
Proof.
  destruct t as [i|i].
  - unfold call_factory. rewrite solve_primary. cbn.
    intros ->%list_elem_of_singleton. by split.
  - destruct (fr_forks_model fr) as [m|] eqn:E.
    + rewrite (call_deferred env fr m i E). cbn.
      destruct (Qle_bool (delay m) 0); cbn; by intros ?%elem_of_nil.
    + unfold call_factory. rewrite E. cbn. by intros ?%elem_of_nil.
Qed.

End IdentityFacts.

(** C8 as stated fails: for a request with a proxy, the solver of the
    identity fetch is built without the [proxy] keyword, while the solver
    of the primary attempt is built with the request's proxy. *)
Lemma identity_fetch_gets_no_proxy :
  ¬ (∀ fr tasks,
       setup (sample_env [[0]%nat]) sample_globals "https://x.com" "get_cookies"
         None 60000 (Some "socks5://1.1.1.1:2000"%string) None None = Ok (fr, tasks) →
       ∀ ci ca,
         ci ∈ solver_ctors (fst (identity_fetch (sample_env [[0]%nat]) fr 60000)) →
         ca ∈ solver_ctors (fst (call_factory (sample_env [[0]%nat]) fr (PrimaryFactory 0))) →
         ctor_proxy ci = ctor_proxy ca).
Proof.
  intros H.
  assert (∃ fr tasks,
            setup (sample_env [[0]%nat]) sample_globals "https://x.com" "get_cookies"
              None 60000 (Some "socks5://1.1.1.1:2000"%string) None None = Ok (fr, tasks))
    as (fr & tasks & Hs) by (eexists _, _; reflexivity).
  specialize (H fr tasks Hs).
  specialize (H {| ctor_proxy := None; ctor_log_prefix := "fork user-agent";
                   ctor_kwargs := fr_local_solver_args fr |}
                {| ctor_proxy := Some (fr_proxy fr); ctor_log_prefix := log_prefix_of 0;
                   ctor_kwargs := fr_local_solver_args fr |}).
  assert (Hd : ctor_proxy {| ctor_proxy := None; ctor_log_prefix := "fork user-agent";
                             ctor_kwargs := fr_local_solver_args fr |}
               = ctor_proxy {| ctor_proxy := Some (fr_proxy fr);
                               ctor_log_prefix := log_prefix_of 0;
                               ctor_kwargs := fr_local_solver_args fr |}).
  { apply H.
    - rewrite identity_fetch_trace. cbn. by left.
    - unfold call_factory. rewrite solve_primary. cbn. by left. }
  discriminate Hd.
Qed.

(** C8, amended.  Once [setup] has passed, the identity fetch builds one
    solver, with the request's solver arguments, which are those of every
    attempt, and without a [proxy] keyword, whereas the attempts pass the
    request's proxy; it awaits [get_user_agent] under a timeout of
    [max_timeout / 1000] seconds; when the timeout expires it raises an
    exception whose text is ["On user-agent getting: Processing timeout
    (max_timeout=N)"], and the [try] body, which gathers it with the
    race, ends with an exception instead of waiting. *)
Theorem identity_fetch_contract env globals url cmd cookies max_timeout proxy params forks
    fr tasks :
  setup env globals url cmd cookies max_timeout proxy params forks = Ok (fr, tasks) →
  let identity_ctor := {| ctor_proxy := None; ctor_log_prefix := "fork user-agent";
                          ctor_kwargs := fr_local_solver_args fr |} in
  fst (identity_fetch env fr max_timeout) =
    [EvSolver identity_ctor "get_user_agent"; EvWaitFor (inject_Z max_timeout / 1000)%Q]
  ∧ (∀ t c, t ∈ tasks → c ∈ solver_ctors (fst (call_factory env fr t)) →
       ctor_kwargs c = ctor_kwargs identity_ctor ∧ ctor_proxy c = Some proxy)
  ∧ (solver_get_user_agent env identity_ctor = ProbeExpired →
       snd (identity_fetch env fr max_timeout) =
         Raise (Exception ("On user-agent getting: Processing timeout (max_timeout="
                             +:+ pretty max_timeout +:+ ")"))
       ∧ ∃ e, try_body env globals (now_start env) url cmd cookies max_timeout proxy
                params forks = Done (Raise e)).
Proof.
  intros Hs idc. split; [apply identity_fetch_trace|]. split.
  - intros t c _ Hc. apply attempt_ctors in Hc as [Hk Hp].
    apply setup_inv in Hs as (_ & _ & Hproxy & _). by rewrite <- Hproxy.
  - intros Hx. pose proof (identity_fetch_expired env fr max_timeout Hx) as Hid.
    split; [exact Hid|].
    unfold try_body. rewrite Hs, Hid.
    destruct (await_race (solve_race env fr tasks)) as [[x|e]|]; cbn.
    + eauto.
    + destruct (race_fails_first env); eauto.
    + eauto.
Qed.

Lemma identity_fetch_contract_witness :
  ∃ fr tasks,
    setup (slow_probe_env [[0]%nat]) sample_globals "https://x.com" "get_cookies"
      None 1000 (Some "socks5://1.1.1.1:2000"%string) None None = Ok (fr, tasks)
    ∧ snd (identity_fetch (slow_probe_env [[0]%nat]) fr 1000) =
        Raise (Exception "On user-agent getting: Processing timeout (max_timeout=1000)").
Proof.
  eexists _, _. split; [reflexivity|].
  refine (proj1 (proj2 (proj2
    (identity_fetch_contract (slow_probe_env [[0]%nat]) sample_globals
       "https://x.com" "get_cookies" None 1000 (Some "socks5://1.1.1.1:2000"%string)
       None None _ _ eq_refl)) eq_refl)).
Defined.

(** ** The response *)

Lemma assemble_ok_inv env start_timestamp solve_response user_agent r :
  assemble env start_timestamp solve_response user_agent = Ok r →
  ∃ res cookies,
    solve_response = Some res
    ∧ CookieModel_init_all (pydantic env) (resp_cookies res) = Ok cookies
    ∧ r = {| status := "ok";
             message := resp_message res;
             startTimestamp := start_timestamp;
             endTimestamp := now_end env;
             solution := Some {| sol_status := 200;
                                 sol_url := resp_url res;
                                 sol_cookies := cookies;
                                 sol_userAgent := Some user_agent;
                                 sol_response := resp_response res |} |}.
Proof.
  unfold assemble. destruct solve_response as [res|]; [|discriminate]. cbn.
  destruct (CookieModel_init_all (pydantic env) (resp_cookies res)) as [cookies|e] eqn:E; [|discriminate].
  cbn. intros [= <-]. by exists res, cookies.
Qed.

Lemma asyncio_gather_ok_inv {A B} (a : awaited A) (b : awaited B) first x y :
  asyncio_gather a b first = Done (Ok (x, y)) → a = Done (Ok x) ∧ b = Done (Ok y).
Proof.
  unfold asyncio_gather.
  destruct a as [[x'|ea]|], b as [[y'|eb]|]; try discriminate.
  by intros [= -> ->].
Qed.

Lemma await_race_ok_inv {R} (run : race_run R) res skipped excs :
  await_race run = Done (Ok (res, skipped, excs)) →
  race_exit_of run = RaceReturn res skipped excs.
Proof.
  unfold await_race. destruct (race_exit_of run); try discriminate.
  by intros [= -> -> ->].
Qed.

(** The [try] body ends well only along one path: [setup] passes, the
    race returns the result of a task, the identity fetch returns, and
    the cookies of the result validate. *)
Lemma try_body_ok_inv env globals start_timestamp url cmd cookies max_timeout proxy params
    forks r :
  try_body env globals start_timestamp url cmd cookies max_timeout proxy params forks
    = Done (Ok r) →
  ∃ fr tasks res skipped excs user_agent public_cookies,
    setup env globals url cmd cookies max_timeout proxy params forks = Ok (fr, tasks)
    ∧ race_exit_of (solve_race env fr tasks) = RaceReturn (Some res) skipped excs
    ∧ snd (identity_fetch env fr max_timeout) = Ok user_agent
    ∧ CookieModel_init_all (pydantic env) (resp_cookies res) = Ok public_cookies
    ∧ r = {| status := "ok";
             message := resp_message res;
             startTimestamp := start_timestamp;
             endTimestamp := now_end env;
             solution := Some {| sol_status := 200;
                                 sol_url := resp_url res;
                                 sol_cookies := public_cookies;
                                 sol_userAgent := Some user_agent;
                                 sol_response := resp_response res |} |}.
Proof.
  unfold try_body.
  destruct (setup _ _ _ _ _ _ _ _ _) as [[fr tasks]|e] eqn:Es; [|discriminate].
  destruct (asyncio_gather _ _ _) as [[[[[sr sk] ex] ua]|e]|] eqn:Eg; try discriminate.
  intros [= Ha].
  apply asyncio_gather_ok_inv in Eg as [Hrace Hid].
  apply await_race_ok_inv in Hrace. injection Hid as Hid.
  apply assemble_ok_inv in Ha as (res & cs & -> & Hc & ->).
  by exists fr, tasks, res, sk, ex, ua, cs.
Qed.

Lemma process_solve_request_ok_inv env globals url cmd cookies max_timeout proxy params
    forks r :
  process_solve_request env globals url cmd cookies max_timeout proxy params forks
    = Responds r →
  status r = "ok"%string →
  ∃ proxy',
    normalize_proxy env proxy = Ok proxy'
    ∧ try_body env globals (now_start env) url cmd cookies max_timeout proxy' params forks
      = Done (Ok r).
Proof.
  unfold process_solve_request.
  destruct (normalize_proxy env proxy) as [proxy'|e]; [|discriminate].
  destruct (try_body _ _ _ _ _ _ _ _ _ _) as [[r'|e]|] eqn:Et; try discriminate.
  - intros [= ->] _. by exists proxy'.
  - intros [= <-]. cbn. discriminate.
Qed.

(** C2.  A response with status ["ok"] is only given when the race has
    returned the result of an attempt and the identity fetch has returned
    too; and when the identity fetch raises, a request that got as far as
    the race is answered with status ["error"] and no solution, whatever
    the race gives. *)
Theorem ok_needs_race_and_identity env globals url cmd cookies max_timeout proxy params
    forks :
  (∀ r,
     process_solve_request env globals url cmd cookies max_timeout proxy params forks
       = Responds r →
     status r = "ok"%string →
     ∃ proxy' fr tasks res skipped excs user_agent,
       normalize_proxy env proxy = Ok proxy'
       ∧ setup env globals url cmd cookies max_timeout proxy' params forks = Ok (fr, tasks)
       ∧ race_exit_of (solve_race env fr tasks) = RaceReturn (Some res) skipped excs
       ∧ snd (identity_fetch env fr max_timeout) = Ok user_agent)
  ∧ (∀ proxy' fr tasks e,
       normalize_proxy env proxy = Ok proxy' →
       setup env globals url cmd cookies max_timeout proxy' params forks = Ok (fr, tasks) →
       snd (identity_fetch env fr max_timeout) = Raise e →
       ∃ r e',
         process_solve_request env globals url cmd cookies max_timeout proxy params forks
           = Responds r
         ∧ status r = "error"%string
         ∧ message r = "Error: " +:+ exn_str e'
         ∧ solution r = None).
Proof.
  split.
  - intros r Hr Hok.
    apply process_solve_request_ok_inv in Hr as (proxy' & Hn & Ht); [|exact Hok].
    apply try_body_ok_inv in Ht as (fr & tasks & res & sk & ex & ua & cs & Hs & Hrace & Hid & _).
    by exists proxy', fr, tasks, res, sk, ex, ua.
  - intros proxy' fr tasks e Hn Hs Hid.
    assert (∃ e', try_body env globals (now_start env) url cmd cookies max_timeout proxy'
                    params forks = Done (Raise e')) as [e' He'].
    { unfold try_body. rewrite Hs, Hid.
      destruct (await_race (solve_race env fr tasks)) as [[x|e0]|]; cbn.
      - eauto.
      - destruct (race_fails_first env); eauto.
      - eauto. }
    exists (error_response env (now_start env) e'), e'.
    unfold process_solve_request. rewrite Hn, He'. by repeat split.
Qed.

Lemma ok_needs_race_and_identity_witness :
  ∃ r,
    process_solve_request (slow_probe_env [[0]%nat]) sample_globals "https://x.com"
      "get_cookies" None 1000 None None None = Responds r
    ∧ status r = "error"%string
    ∧ solution r = None.
Proof.
  destruct (proj2 (ok_needs_race_and_identity (slow_probe_env [[0]%nat]) sample_globals
                     "https://x.com" "get_cookies" None 1000 None None None)
              None _ _ _ eq_refl eq_refl eq_refl) as (r & e' & Hr & Hst & _ & Hsol).
  by exists r.
Defined.

(** The list comprehension validates the cookies one by one, in
    order. *)
Lemma CookieModel_init_all_Forall2 (lib : Pydantic) (l : list (gmap string PyVal))
    (cs : list CookieModel) :
  CookieModel_init_all lib l = Ok cs
  ↔ Forall2 (fun d c => CookieModel_init lib d = Ok c) l cs.
Proof.
  revert cs. induction l as [|d l IH]; intros cs; cbn [CookieModel_init_all].
  - split.
    + intros [= <-]. constructor.
    + intros H. by inversion H.
  - split.
    + destruct (CookieModel_init lib d) as [c|e] eqn:Ec; cbn; [|discriminate].
      destruct (CookieModel_init_all lib l) as [cs'|e] eqn:Ecs; cbn; [|discriminate].
      intros [= <-]. constructor; [exact Ec|]. by apply IH.
    + intros H. inversion H as [|d' c l' cs' Hc Hcs]; subst.
      apply IH in Hcs. rewrite Hc, Hcs. reflexivity.
Qed.

(** A solver cookie that has the three mandatory keys as strings and
    none of the optional ones gets the defaults, whatever the library
    converts. *)
Lemma CookieModel_init_defaults (lib : Pydantic) (d : gmap string PyVal)
    (name value domain : string) :
  d !! "name" = Some (VStr name) →
  d !! "value" = Some (VStr value) →
  d !! "domain" = Some (VStr domain) →
  d !! "port" = None → d !! "path" = None →
  d !! "secure" = None → d !! "expires" = None →
  CookieModel_init lib d =
  Ok {| cookie_name := name; cookie_value := value; cookie_domain := domain;
        cookie_port := None; cookie_path := Some "/"%string;
        cookie_secure := Some true; cookie_expires := None |}.
Proof.
  intros Hn Hv Hd Hpo Hpa Hs He.
  unfold CookieModel_init, CookieModel_fields, required_str, optional_field.
  by rewrite Hn, Hv, Hd, Hpo, Hpa, Hs, He.
Qed.

(** C9.  A response with status ["ok"] carries the message of the
    result that won the race, and a solution with status 200, the URL of
    that result, the user agent that the identity fetch returned and the
    response body of the result as it is.  Its cookies are the cookies of
    the result, one [CookieModel] for each, in order.  A cookie of the
    result that has [name], [value] and [domain] as strings and no other
    key, such as the one with name [a], value [b] and domain [x.com],
    becomes the model with path [/] and secure [true], and is published
    with exactly these five keys: [port] and [expires] are left out. *)
Theorem ok_response_shape env globals url cmd cookies max_timeout proxy params forks r :
  process_solve_request env globals url cmd cookies max_timeout proxy params forks
    = Responds r →
  status r = "ok"%string →
  ∃ proxy' fr tasks res skipped excs user_agent sol,
    normalize_proxy env proxy = Ok proxy'
    ∧ setup env globals url cmd cookies max_timeout proxy' params forks = Ok (fr, tasks)
    ∧ race_exit_of (solve_race env fr tasks) = RaceReturn (Some res) skipped excs
    ∧ snd (identity_fetch env fr max_timeout) = Ok user_agent
    ∧ message r = resp_message res
    ∧ solution r = Some sol
    ∧ sol_status sol = 200
    ∧ sol_url sol = resp_url res
    ∧ sol_userAgent sol = Some user_agent
    ∧ sol_response sol = resp_response res
    ∧ Forall2 (fun d c => CookieModel_init (pydantic env) d = Ok c)
        (resp_cookies res) (sol_cookies sol)
    ∧ (∀ (i : nat) d name value domain,
         resp_cookies res !! i = Some d →
         d !! "name" = Some (VStr name) →
         d !! "value" = Some (VStr value) →
         d !! "domain" = Some (VStr domain) →
         d !! "port" = None → d !! "path" = None →
         d !! "secure" = None → d !! "expires" = None →
         ∃ c, sol_cookies sol !! i = Some c
              ∧ c = {| cookie_name := name; cookie_value := value;
                       cookie_domain := domain; cookie_port := None;
                       cookie_path := Some "/"%string; cookie_secure := Some true;
                       cookie_expires := None |}
              ∧ CookieModel_public c =
                  <["name" := VStr name]> (<["value" := VStr value]>
                  (<["domain" := VStr domain]> (<["path" := VStr "/"]>
                  (<["secure" := VBool true]> ∅))))
              ∧ CookieModel_public c !! "port" = None
              ∧ CookieModel_public c !! "expires" = None).
Proof.
  intros Hr Hok.
  apply process_solve_request_ok_inv in Hr as (proxy' & Hn & Ht); [|exact Hok].
  apply try_body_ok_inv in Ht
    as (fr & tasks & res & sk & ex & ua & cs & Hs & Hrace & Hid & Hc & ->).
  apply CookieModel_init_all_Forall2 in Hc.
  exists proxy', fr, tasks, res, sk, ex, ua.
  eexists. do 10 (split; [first [eassumption | reflexivity]|]).
  cbn [sol_cookies]. split; [exact Hc|].
  intros i d name value domain Hi Hna Hv Hd Hpo Hpa Hse He.
  destruct (Forall2_lookup_l _ _ _ _ _ Hc Hi) as (c & Hci & Ec).
  rewrite (CookieModel_init_defaults _ _ _ _ _ Hna Hv Hd Hpo Hpa Hse He) in Ec.
  injection Ec as <-.
  exists {| cookie_name := name; cookie_value := value; cookie_domain := domain;
            cookie_port := None; cookie_path := Some "/"%string;
            cookie_secure := Some true; cookie_expires := None |}.
  split; [exact Hci|]. split; [reflexivity|]. split; [reflexivity|].
  split.
  - unfold CookieModel_public, put_opt. cbn.
    rewrite !lookup_insert_ne by done. apply lookup_empty.
  - unfold CookieModel_public, put_opt. cbn.
    rewrite !lookup_insert_ne by done. apply lookup_empty.
Qed.

Lemma ok_response_shape_witness :
  ∃ r sol c,
    process_solve_request (sample_env [[0]%nat]) sample_globals "https://x.com"
      "get_cookies" None 60000 None None None = Responds r
    ∧ status r = "ok"%string
    ∧ message r = "Challenge solved!"%string
    ∧ solution r = Some sol
    ∧ sol_status sol = 200
    ∧ sol_cookies sol = [c]
    ∧ CookieModel_public c =
        <["name" := VStr "a"]> (<["value" := VStr "b"]> (<["domain" := VStr "x.com"]>
        (<["path" := VStr "/"]> (<["secure" := VBool true]> ∅)))).
Proof.
  destruct (ok_response_shape (sample_env [[0]%nat]) sample_globals "https://x.com"
              "get_cookies" None 60000 None None None _ eq_refl eq_refl)
    as (p' & fr & tasks & res & sk & ex & ua & sol & Hn & Hs & Hrace & _ & Hm & Hsol
        & Hst & _ & _ & _ & Hall & Hdef).
  injection Hn as <-.
  vm_compute in Hs. injection Hs as <- <-.
  vm_compute in Hrace. injection Hrace as <- _ _.
  destruct (Hdef 0%nat cookie_abx "a"%string "b"%string "x.com"%string
              eq_refl eq_refl eq_refl eq_refl eq_refl eq_refl eq_refl eq_refl)
    as (c & Hc & _ & Hpub & _).
  eexists _, sol, c. split; [reflexivity|]. split; [reflexivity|].
  split; [exact Hm|]. split; [exact Hsol|]. split; [exact Hst|].
  split; [|exact Hpub].
  apply Forall2_length in Hall. cbn in Hall.
  destruct (sol_cookies sol) as [|c0 [|c1 l]]; try discriminate.
  cbn in Hc. by injection Hc as ->.
Defined.

(** * Further properties of the code *)

(** ** The race coordinator, for every schedule *)

Section RaceGeneral.
Context {R : Type}.
Implicit Types (f g : future R) (fs : list (future R)).

Lemma foldl_list_remove_without finished fs :
  NoDup (fut_id <$> fs) →
  foldl (fun l f => list_remove f l) fs finished = without_ids (fut_id <$> finished) fs.
Proof.
  revert fs. induction finished as [|f finished IH]; intros fs Hnd.
  - cbn. unfold without_ids. symmetry.
    clear. induction fs as [|g fs IH]; [reflexivity|]. cbn. f_equal. exact IH.
  - cbn [foldl]. rewrite (list_remove_without fs f Hnd).
    rewrite IH by (by apply NoDup_without_ids).
    rewrite without_ids_without_ids. reflexivity.
Qed.

Lemma asyncio_wait_inv fs done_ids finished pending :
  NoDup (fut_id <$> fs) →
  asyncio_wait fs done_ids = Some (finished, pending) →
  finished ≠ []
  ∧ Forall (fun f => f ∈ fs) finished
  ∧ pending = without_ids done_ids fs
  ∧ foldl (fun l f => list_remove f l) fs finished = without_ids done_ids fs.
Proof.
  intros Hnd Hw.
  pose proof (asyncio_wait_finished _ _ _ _ Hw) as [Hin Hids].
  pose proof (asyncio_wait_pending _ _ _ _ Hw) as Hp.
  split; [|split; [exact Hin|split; [exact Hp|]]].
  - intros ->. unfold asyncio_wait in Hw. cbn in Hids. subst done_ids. discriminate.
  - rewrite (foldl_list_remove_without _ _ Hnd). by rewrite Hids.
Qed.

(** What the second loop has recorded when it stops or ends. *)
Lemma for_finished_records (return_condition : R -> bool) (P : R -> Prop) (Q : exn -> Prop)
    task_features finished sk ex :
  Forall (fun f => match fut_outcome f with
                   | Ok r => return_condition r = false → P r
                   | Raise e => Q e
                   end) finished →
  Forall P sk → Forall Q ex →
  match for_finished return_condition task_features finished sk ex with
  | inl (RaceReturn _ sk' ex') => Forall P sk' ∧ Forall Q ex'
  | inl (RaceRaise e sk' ex') =>
      Forall P sk' ∧ Forall Q ex' ∧ last ex' = Some e ∧ task_features = []
  | inl RaceSuspended => False
  | inr (sk', ex') => Forall P sk' ∧ Forall Q ex'
  end.
Proof.
  revert sk ex. induction finished as [|f finished IH]; intros sk ex Hfin Hsk Hex.
  - by cbn.
  - apply Forall_cons in Hfin as [Hf Hfin]. cbn [for_finished].
    destruct (fut_outcome f) as [r|e].
    + destruct (return_condition r) eqn:Ec; [by split|].
      apply IH; [exact Hfin| |exact Hex].
      apply Forall_app. split; [exact Hsk|]. apply Forall_singleton. by apply Hf.
    + assert (Hex' : Forall Q (ex ++ [e]))
        by (apply Forall_app; split; [exact Hex | by apply Forall_singleton]).
      destruct task_features as [|g gs].
      * repeat split; try done. apply last_snoc.
      * by apply IH.
Qed.

Lemma race_loop_records (return_condition : R -> bool) (P : R -> Prop) (Q : exn -> Prop)
    schedule :
  ∀ fs to_cancel sk ex,
  Forall (fun f => match fut_outcome f with
                   | Ok r => return_condition r = false → P r
                   | Raise e => Q e
                   end) fs →
  Forall P sk → Forall Q ex →
  match race_exit_of (race_loop return_condition schedule fs to_cancel sk ex) with
  | RaceReturn _ sk' ex' => Forall P sk' ∧ Forall Q ex'
  | RaceRaise e sk' ex' => Forall P sk' ∧ Forall Q ex' ∧ last ex' = Some e
  | RaceSuspended => True
  end.
Proof.
  induction schedule as [|done_ids schedule IH]; intros fs to_cancel sk ex Hfs Hsk Hex.
  - destruct fs; by cbn.
  - destruct fs as [|f0 fs0]; [by cbn|]. cbn [race_loop].
    destruct (asyncio_wait (f0 :: fs0) done_ids) as [[finished pending]|] eqn:Ew;
      [|by cbn].
    apply asyncio_wait_finished in Ew as [Hin _].
    assert (Hfin : Forall (fun f => match fut_outcome f with
                                    | Ok r => return_condition r = false → P r
                                    | Raise e => Q e
                                    end) finished).
    { rewrite Forall_forall in Hin, Hfs |- *. intros g Hg. apply Hfs, Hin, Hg. }
    pose proof (for_finished_records return_condition P Q
                  (foldl (fun l f => list_remove f l) (f0 :: fs0) finished)
                  finished sk ex Hfin Hsk Hex) as Hrec.
    destruct (for_finished _ _ finished sk ex) as [[res sk' ex'|e sk' ex'|]|[sk' ex']].
    + exact Hrec.
    + cbn. by destruct Hrec as (? & ? & ? & _).
    + done.
    + destruct Hrec as [Hsk' Hex']. apply IH; [|exact Hsk'|exact Hex'].
      rewrite Forall_forall in Hfs |- *. intros g Hg.
      apply Hfs. by apply foldl_list_remove_incl in Hg.
Qed.

(** X3.  Whatever the event loop does, what the coordinator hands back
    comes from the tasks: a returned result is the success of a task and
    satisfies the condition, every skipped result is the success of a
    task that the condition refused, every recorded exception is the
    failure of a task, and a raised exception is the failure of a task
    and the last one recorded. *)
Theorem race_outcome_comes_from_tasks (tasks : list (result R))
    (return_condition : R -> bool) (schedule : list (list nat)) :
  let skipped_ok (r : R) :=
    ∃ i, tasks !! i = Some (Ok r) ∧ return_condition r = false in
  let recorded_ok (e : exn) := ∃ i, tasks !! i = Some (Raise e) in
  match race_exit_of (wait_first_non_exception tasks return_condition schedule) with
  | RaceReturn res skipped excs =>
      (∀ r, res = Some r → ∃ i, tasks !! i = Some (Ok r) ∧ return_condition r = true)
      ∧ Forall skipped_ok skipped ∧ Forall recorded_ok excs
  | RaceRaise e skipped excs =>
      recorded_ok e ∧ last excs = Some e
      ∧ Forall skipped_ok skipped ∧ Forall recorded_ok excs
  | RaceSuspended => True
  end.
Proof.
  intros skipped_ok recorded_ok.
  assert (Hfs : Forall (fun f : future R =>
                          match fut_outcome f with
                          | Ok r => return_condition r = false → skipped_ok r
                          | Raise e => recorded_ok e
                          end) (imap Future tasks)).
  { apply Forall_forall. intros f Hf.
    apply elem_of_lookup_imap_1 in Hf as (i & o & -> & Hi). cbn.
    destruct o as [r|e]; [intros Hc|]; by exists i. }
  pose proof (race_loop_records return_condition skipped_ok recorded_ok schedule
                (imap Future tasks) [] [] [] Hfs (Forall_nil_2 _) (Forall_nil_2 _)) as Hrec.
  unfold wait_first_non_exception.
  destruct (race_exit_of (race_loop return_condition schedule (imap Future tasks) [] [] []))
    as [res sk ex|e sk ex|] eqn:Ex; [| |done].
  - destruct Hrec as [Hsk Hex]. split; [|by split].
    intros r ->. apply race_loop_winner in Ex as (f & Hf & Ho & Hc).
    apply elem_of_lookup_imap_1 in Hf as (i & o & -> & Hi).
    exists i. cbn in Ho. by subst.
  - destruct Hrec as (Hsk & Hex & Hlast). split; [|by split].
    apply race_loop_raiser in Ex as (f & Hf & Ho).
    apply elem_of_lookup_imap_1 in Hf as (i & o & -> & Hi).
    exists i. cbn in Ho. by subst.
Qed.

Lemma without_ids_nil fs : without_ids [] fs = fs.
Proof.
  unfold without_ids. induction fs as [|g fs IH]; [reflexivity|]. cbn. f_equal. exact IH.
Qed.

(** The loop, started on what is left of [all] once the tasks named by
    [done] are gone: when it ends, it does so at its [k]-th wait (with
    the answers of fewer waits it is still suspended, with those of the
    first [k] it ends as it does), and [cancel()] has been called on what
    is left once the answers of these [k] waits are gone too. *)
Lemma race_loop_cancelled (return_condition : R -> bool) (all : list (future R))
    schedule :
  NoDup (fut_id <$> all) →
  ∀ done to_cancel sk ex,
  (without_ids done all = [] → to_cancel = []) →
  race_exit_of (race_loop return_condition schedule (without_ids done all) to_cancel sk ex)
    ≠ RaceSuspended →
  ∃ k, (k ≤ length schedule)%nat
       ∧ (∀ j, (j < k)%nat →
            race_exit_of (race_loop return_condition (take j schedule)
                            (without_ids done all) to_cancel sk ex) = RaceSuspended)
       ∧ race_loop return_condition (take k schedule) (without_ids done all) to_cancel sk ex
         = race_loop return_condition schedule (without_ids done all) to_cancel sk ex
       ∧ race_cancelled
           (race_loop return_condition schedule (without_ids done all) to_cancel sk ex)
         = fut_id <$> without_ids (done ++ concat (take k schedule)) all.
Proof.
  intros Hall.
  induction schedule as [|done_ids schedule IH]; intros done to_cancel sk ex Hc Hex.
  - destruct (without_ids done all) as [|f0 fs0] eqn:Efs.
    + exists 0%nat. split; [done|]. split; [intros j Hj; lia|]. split; [done|].
      cbn. rewrite app_nil_r, Efs, Hc; done.
    + by cbn in Hex.
  - destruct (without_ids done all) as [|f0 fs0] eqn:Efs.
    + exists 0%nat. split; [cbn; lia|]. split; [intros j Hj; lia|]. split; [done|].
      cbn. rewrite app_nil_r, Efs, Hc; done.
    + assert (Hnd : NoDup (fut_id <$> f0 :: fs0))
        by (rewrite <- Efs; by apply NoDup_without_ids).
      destruct (asyncio_wait (f0 :: fs0) done_ids) as [[finished pending]|] eqn:Ew;
        [|exfalso; apply Hex; cbn [race_loop]; by rewrite Ew].
      destruct (asyncio_wait_inv _ _ _ _ Hnd Ew) as (_ & _ & Hp & Hrem).
      assert (Hp' : pending = without_ids (done ++ done_ids) all)
        by (by rewrite Hp, <- Efs, without_ids_without_ids).
      assert (Hrem' : foldl (fun l f => list_remove f l) (f0 :: fs0) finished
                      = without_ids (done ++ done_ids) all)
        by (by rewrite Hrem, <- Efs, without_ids_without_ids).
      assert (Hstep : ∀ s,
                race_loop return_condition (done_ids :: s) (f0 :: fs0) to_cancel sk ex
                = match for_finished return_condition
                          (without_ids (done ++ done_ids) all) finished sk ex with
                  | inl exit =>
                      RaceRun exit (fut_id <$> without_ids (done ++ done_ids) all)
                  | inr (sk', ex') =>
                      race_loop return_condition s (without_ids (done ++ done_ids) all)
                        (without_ids (done ++ done_ids) all) sk' ex'
                  end).
      { intros s. cbn [race_loop]. rewrite Ew. cbn zeta. by rewrite Hrem', Hp'. }
      rewrite Hstep in Hex.
      destruct (for_finished return_condition (without_ids (done ++ done_ids) all)
                  finished sk ex) as [exit|[sk' ex']] eqn:Eff.
      * exists 1%nat. split; [cbn; lia|]. split; [|split].
        -- intros j Hj. replace j with 0%nat by lia. reflexivity.
        -- cbn [take]. by rewrite !Hstep.
        -- rewrite Hstep. cbn. by rewrite app_nil_r.
      * destruct (IH (done ++ done_ids) _ sk' ex' (fun H => H) Hex)
          as (k & Hk & Hpre & Heq & Hcan).
        exists (S k). split; [cbn; lia|]. split; [|split].
        -- intros [|j] Hj; [reflexivity|]. cbn [take]. rewrite Hstep.
           apply Hpre. lia.
        -- cbn [take]. by rewrite !Hstep.
        -- rewrite Hstep, Hcan. cbn. by rewrite (assoc_L (++)).
Qed.

(** X4.  When the coordinator returns or raises, it does so at its
    [k]-th wait: with the answers of fewer waits it is still waiting,
    and with those of the first [k] it ends as it does.  The futures on
    which it has called [cancel()] are exactly the tasks that none of
    these [k] waits had found done. *)
Theorem race_cancels_what_is_pending (tasks : list (result R))
    (return_condition : R -> bool) (schedule : list (list nat)) :
  race_exit_of (wait_first_non_exception tasks return_condition schedule) ≠ RaceSuspended →
  ∃ k, (k ≤ length schedule)%nat
       ∧ (∀ j, (j < k)%nat →
            race_exit_of (wait_first_non_exception tasks return_condition (take j schedule))
            = RaceSuspended)
       ∧ wait_first_non_exception tasks return_condition (take k schedule)
         = wait_first_non_exception tasks return_condition schedule
       ∧ race_cancelled (wait_first_non_exception tasks return_condition schedule)
         = not_yet_done (concat (take k schedule)) (length tasks).
Proof.
  unfold wait_first_non_exception. intros Hex.
  pose proof (race_loop_cancelled return_condition (imap Future tasks) schedule
                (NoDup_imap_Future tasks) [] [] [] []) as H.
  rewrite without_ids_nil in H.
  destruct (H (fun _ => eq_refl) Hex) as (k & Hk & Hpre & Heq & Hcan).
  exists k. split; [exact Hk|]. split; [exact Hpre|]. split; [exact Heq|].
  etransitivity; [exact Hcan|].
  apply cancelled_not_yet_done.
Qed.

(** The loop raises only when no future is left. *)
Lemma race_loop_raise_cancelled (return_condition : R -> bool) schedule :
  ∀ fs to_cancel sk ex e sk' ex',
  NoDup (fut_id <$> fs) →
  race_exit_of (race_loop return_condition schedule fs to_cancel sk ex)
    = RaceRaise e sk' ex' →
  race_cancelled (race_loop return_condition schedule fs to_cancel sk ex) = [].
Proof.
  induction schedule as [|done_ids schedule IH]; intros fs to_cancel sk ex e sk' ex' Hnd.
  - destruct fs; discriminate.
  - destruct fs as [|f0 fs0]; [discriminate|]. cbn [race_loop].
    destruct (asyncio_wait (f0 :: fs0) done_ids) as [[finished pending]|] eqn:Ew;
      [|discriminate].
    apply (asyncio_wait_inv _ _ _ _ Hnd) in Ew as (_ & Hin & -> & Hrem).
    rewrite Hrem.
    pose proof (for_finished_records return_condition (fun _ => True) (fun _ => True)
                  (without_ids done_ids (f0 :: fs0)) finished sk ex) as Hrec.
    destruct (for_finished _ _ finished sk ex) as [[res sk1 ex1|e1 sk1 ex1|]|[sk1 ex1]].
    + discriminate.
    + intros _.
      assert (Hany : Forall (fun f : future R =>
                               match fut_outcome f with
                               | Ok r => return_condition r = false → True
                               | Raise e => True
                               end) finished)
        by (apply Forall_forall; intros g _; by destruct (fut_outcome g)).
      destruct (Hrec Hany (Forall_true _ _ (fun _ => I)) (Forall_true _ _ (fun _ => I)))
        as (_ & _ & _ & Hempty).
      cbn [race_cancelled]. by rewrite Hempty.
    + discriminate.
    + apply IH. by apply NoDup_without_ids.
Qed.

(** X5.  When the coordinator raises, every task has completed: the
    [finally] block has no future left to cancel. *)
Theorem race_raise_cancels_nothing (tasks : list (result R))
    (return_condition : R -> bool) (schedule : list (list nat)) e skipped excs :
  race_exit_of (wait_first_non_exception tasks return_condition schedule)
    = RaceRaise e skipped excs →
  race_cancelled (wait_first_non_exception tasks return_condition schedule) = [].
Proof.
  unfold wait_first_non_exception. intros H.
  eapply race_loop_raise_cancelled; [apply NoDup_imap_Future | exact H].
Qed.




End RaceGeneral.

Lemma race_cancels_what_is_pending_witness :
  race_cancelled
    (wait_first_non_exception [Raise (Exception "e0"); Ok 7%nat; Ok 8%nat; Ok 9%nat]
       accept_any [[0]; [2]; [1]]%nat)
  = not_yet_done [0; 2]%nat 4.
Proof.
  destruct (race_cancels_what_is_pending
              [Raise (Exception "e0"); Ok 7%nat; Ok 8%nat; Ok 9%nat]
              accept_any [[0]; [2]; [1]]%nat)
    as (k & Hk & Hpre & Heq & Hcan); [discriminate|].
  destruct k as [|[|[|k]]].
  - discriminate Heq.
  - discriminate Heq.
  - exact Hcan.
  - discriminate (Hpre 2%nat ltac:(lia)).
Defined.

Lemma race_raise_cancels_nothing_witness :
  race_cancelled
    (wait_first_non_exception (R := nat) [Raise (Exception "e0"); Raise (Exception "e1")]
       accept_any [[1]; [0]]%nat)
  = [].
Proof.
  apply (race_raise_cancels_nothing (R := nat) [Raise (Exception "e0"); Raise (Exception "e1")]
           accept_any [[1]; [0]]%nat (Exception "e0") []
           [Exception "e1"; Exception "e0"]).
  reflexivity.
Defined.

Lemma wait_first_non_exception_first_success_witness :
  wait_first_non_exception [Raise (Exception "e0"); Ok 7%nat; Ok 8%nat; Ok 9%nat]
    (fun r => Nat.ltb 7 r) [[0]; [1]; [3]; [2]]%nat
  = RaceRun (RaceReturn (Some 9%nat) [7%nat] [Exception "e0"]) [2%nat].
Proof.
  apply (wait_first_non_exception_first_success
           [Raise (Exception "e0"); Ok 7%nat; Ok 8%nat; Ok 9%nat]
           (fun r => Nat.ltb 7 r)
           [(0%nat, Raise (Exception "e0")); (1%nat, Ok 7%nat)] 3%nat 9%nat [[2%nat]]).
  - cbn. repeat constructor; rewrite ?not_elem_of_cons; repeat split;
      try discriminate; apply not_elem_of_nil.
  - repeat constructor.
  - reflexivity.
  - reflexivity.
Defined.

Lemma wait_first_non_exception_all_fail_witness :
  wait_first_non_exception (R := nat)
    [Raise (Exception "e0"); Raise (Exception "e1"); Raise (Exception "e2")]
    accept_any [[2]; [0]; [1]]%nat
  = RaceRun (RaceRaise (Exception "e1") [] [Exception "e2"; Exception "e0"; Exception "e1"]) [].
Proof.
  apply (wait_first_non_exception_all_fail (R := nat)
           [Raise (Exception "e0"); Raise (Exception "e1"); Raise (Exception "e2")]
           accept_any [(2%nat, Exception "e2"); (0%nat, Exception "e0")] 1%nat
           (Exception "e1")).
  - cbn. apply (Permutation_cons_app [0%nat; 1%nat] [] 2%nat). cbn.
    constructor. constructor. constructor.
  - repeat constructor.
Defined.

(** ** The request pipeline *)

Lemma CookieModel_init_all_raise (lib : Pydantic) (l : list (gmap string PyVal))
    (d : gmap string PyVal) :
  d ∈ l → (∃ e, CookieModel_init lib d = Raise e) →
  ∃ e, CookieModel_init_all lib l = Raise e.
Proof.
  intros Hin [e He]. induction l as [|d0 l IH]; [by apply elem_of_nil in Hin|].
  cbn [CookieModel_init_all].
  apply elem_of_cons in Hin as [<-|Hin].
  - rewrite He. cbn. eauto.
  - destruct (CookieModel_init lib d0) as [c|e0]; cbn; [|eauto].
    destruct (IH Hin) as [e1 ->]. cbn. eauto.
Qed.

Lemma CookieModel_init_needs_domain (lib : Pydantic) (d : gmap string PyVal) :
  d !! "domain" = None → ∃ e, CookieModel_init lib d = Raise e.
Proof.
  intros Hd. unfold CookieModel_init, CookieModel_fields.
  destruct (required_str lib d "name") as [n|]; cbn; [|eauto].
  destruct (required_str lib d "value") as [v|]; cbn; [|eauto].
  unfold required_str at 1. rewrite Hd. cbn. eauto.
Qed.

Lemma try_body_after_gather env globals start_timestamp url cmd cookies max_timeout proxy
    params forks fr tasks res skipped excs user_agent :
  setup env globals url cmd cookies max_timeout proxy params forks = Ok (fr, tasks) →
  race_exit_of (solve_race env fr tasks) = RaceReturn (Some res) skipped excs →
  snd (identity_fetch env fr max_timeout) = Ok user_agent →
  try_body env globals start_timestamp url cmd cookies max_timeout proxy params forks
  = Done (assemble env start_timestamp (Some res) user_agent).
Proof.
  intros Hs Hr Hi. unfold try_body. rewrite Hs, Hi.
  unfold await_race. rewrite Hr. reflexivity.
Qed.

(** X7.  When the proxy and the setup pass, the race returns the result
    of an attempt, the identity fetch returns and each cookie of the
    result gives a [CookieModel], with the conversions that the
    validation library makes, the request is answered with status
    ["ok"], the message, URL and response body of that result, these
    models as its cookies, the user agent of the identity fetch and the
    two clock readings. *)
Theorem ok_response_when_all_succeed env globals url cmd cookies max_timeout proxy params
    forks proxy' fr tasks res skipped excs user_agent public_cookies :
  normalize_proxy env proxy = Ok proxy' →
  setup env globals url cmd cookies max_timeout proxy' params forks = Ok (fr, tasks) →
  race_exit_of (solve_race env fr tasks) = RaceReturn (Some res) skipped excs →
  snd (identity_fetch env fr max_timeout) = Ok user_agent →
  Forall2 (fun d c => CookieModel_init (pydantic env) d = Ok c)
    (resp_cookies res) public_cookies →
  process_solve_request env globals url cmd cookies max_timeout proxy params forks
  = Responds {| status := "ok";
                message := resp_message res;
                startTimestamp := now_start env;
                endTimestamp := now_end env;
                solution := Some {| sol_status := 200;
                                    sol_url := resp_url res;
                                    sol_cookies := public_cookies;
                                    sol_userAgent := Some user_agent;
                                    sol_response := resp_response res |} |}.
Proof.
  intros Hn Hs Hr Hi Hc. unfold process_solve_request. rewrite Hn.
  rewrite (try_body_after_gather _ _ _ _ _ _ _ _ _ _ _ _ _ _ _ _ Hs Hr Hi).
  apply CookieModel_init_all_Forall2 in Hc.
  unfold assemble. cbn. by rewrite Hc.
Qed.

Lemma ok_response_when_all_succeed_witness :
  process_solve_request (converting_env [[0]%nat]) debug_globals "https://x.com" "get_page"
    None 60000 (Some (ProxyStr "socks5://1.1.1.1:2000")) None (Some [])
  = Responds {| status := "ok";
                message := "Challenge solved!";
                startTimestamp := 100;
                endTimestamp := 101;
                solution :=
                  Some {| sol_status := 200;
                          sol_url := "https://x.com/";
                          sol_cookies :=
                            [ {| cookie_name := "a"; cookie_value := "b";
                                 cookie_domain := "x.com"; cookie_port := None;
                                 cookie_path := Some "/"%string;
                                 cookie_secure := Some true;
                                 cookie_expires := None |};
                              {| cookie_name := "a"; cookie_value := "b";
                                 cookie_domain := "x.com"; cookie_port := Some 80;
                                 cookie_path := Some "/"%string;
                                 cookie_secure := Some true;
                                 cookie_expires := Some (3 # 2)%Q |} ];
                          sol_userAgent := Some "Mozilla/5.0"%string;
                          sol_response := None |} |}.
Proof.
  refine (ok_response_when_all_succeed (converting_env [[0]%nat]) debug_globals
            "https://x.com" "get_page" None 60000
            (Some (ProxyStr "socks5://1.1.1.1:2000")) None (Some [])
            _ _ _ (converting_response) [] [] _ _ eq_refl eq_refl eq_refl eq_refl _).
  repeat constructor.
Defined.

(** X8.  A cookie without [domain] in the result that won the race
    fails the whole request: it is answered with status ["error"] and no
    solution although the attempt and the identity fetch succeeded. *)
Theorem cookie_without_domain_fails_request env globals url cmd cookies max_timeout proxy
    params forks proxy' fr tasks res skipped excs user_agent (d : gmap string PyVal) :
  normalize_proxy env proxy = Ok proxy' →
  setup env globals url cmd cookies max_timeout proxy' params forks = Ok (fr, tasks) →
  race_exit_of (solve_race env fr tasks) = RaceReturn (Some res) skipped excs →
  snd (identity_fetch env fr max_timeout) = Ok user_agent →
  d ∈ resp_cookies res →
  d !! "domain" = None →
  ∃ e, process_solve_request env globals url cmd cookies max_timeout proxy params forks
       = Responds {| status := "error";
                     message := "Error: " +:+ exn_str e;
                     startTimestamp := now_start env;
                     endTimestamp := now_end env;
                     solution := None |}.
Proof.
  intros Hn Hs Hr Hi Hin Hd. unfold process_solve_request. rewrite Hn.
  rewrite (try_body_after_gather _ _ _ _ _ _ _ _ _ _ _ _ _ _ _ _ Hs Hr Hi).
  unfold assemble. cbn.
  destruct (CookieModel_init_all_raise (pydantic env) (resp_cookies res) d Hin
              (CookieModel_init_needs_domain (pydantic env) d Hd)) as [e ->].
  by exists e.
Qed.

Lemma cookie_without_domain_fails_request_witness :
  ∃ e, process_solve_request (bad_cookie_env [[0]%nat]) sample_globals "https://x.com"
         "get_cookies" None 60000 None None None
       = Responds {| status := "error";
                     message := "Error: " +:+ exn_str e;
                     startTimestamp := 100;
                     endTimestamp := 101;
                     solution := None |}.
Proof.
  refine (cookie_without_domain_fails_request (bad_cookie_env [[0]%nat]) sample_globals
            "https://x.com" "get_cookies" None 60000 None None None
            _ _ _ _ [] [] _ cookie_no_domain eq_refl eq_refl eq_refl eq_refl _ eq_refl).
  apply elem_of_cons. right. by left.
Defined.

(** X9.  Every response carries the two clock readings, and either
    status ["ok"] with a solution of status 200 that has a user agent, or
    status ["error"] with a message that starts with ["Error: "] and no
    solution. *)
Theorem response_invariant env globals url cmd cookies max_timeout proxy params forks r :
  process_solve_request env globals url cmd cookies max_timeout proxy params forks
    = Responds r →
  startTimestamp r = now_start env
  ∧ endTimestamp r = now_end env
  ∧ ((status r = "ok"%string
      ∧ ∃ sol, solution r = Some sol ∧ sol_status sol = 200 ∧ is_Some (sol_userAgent sol))
     ∨ (status r = "error"%string
        ∧ solution r = None
        ∧ ∃ e, message r = "Error: " +:+ exn_str e)).
Proof.
  unfold process_solve_request.
  destruct (normalize_proxy env proxy) as [proxy'|e]; [|discriminate].
  destruct (try_body _ _ _ _ _ _ _ _ _ _) as [[r'|e]|] eqn:Et; [| |discriminate].
  - intros [= ->].
    apply try_body_ok_inv in Et as (fr & tasks & res & sk & ex & ua & cs & _ & _ & _ & _ & ->).
    cbn. repeat split. left. split; [done|]. eexists. by repeat split.
  - intros [= <-]. cbn. repeat split. right. repeat split. by exists e.
Qed.

Lemma response_invariant_witness :
  ∃ r, process_solve_request (slow_probe_env [[0]%nat]) sample_globals "https://x.com"
         "get_cookies" None 1000 None None None = Responds r
       ∧ startTimestamp r = inject_Z 100 ∧ endTimestamp r = inject_Z 101.
Proof.
  eexists. split; [reflexivity|].
  destruct (response_invariant (slow_probe_env [[0]%nat]) sample_globals "https://x.com"
              "get_cookies" None 1000 None None None _ eq_refl) as (Hs & He & _).
  split; [exact Hs | exact He].
Defined.

(** ** Setting up a request *)

Lemma isolate_dir_ok_inv env key uuid (args args' : gmap string PyVal) :
  isolate_dir env key uuid args = Ok args' →
  (∀ k, k ≠ key → args' !! k = args !! k)
  ∧ ∃ v, args !! key = Some v
         ∧ (truthy v = false → args' = args)
         ∧ (truthy v = true →
              ∃ base, v = VStr base
                      ∧ mkdir env (path_join env base uuid) = Ok tt
                      ∧ args' !! key = Some (VStr (path_join env base uuid))).
Proof.
  unfold isolate_dir. destruct (args !! key) as [v|] eqn:Ek; [|discriminate].
  destruct (truthy v) eqn:Et.
  - destruct v as [| | | |base|]; try discriminate.
    destruct (mkdir env (path_join env base uuid)) as [[]|e] eqn:Em; [|discriminate].
    cbn. intros [= <-]. split.
    + intros k Hk. by rewrite lookup_insert_ne.
    + exists (VStr base). split; [done|]. split; [by rewrite Et|].
      intros _. exists base. by rewrite lookup_insert_eq.
  - intros [= <-]. split; [done|]. exists v. split; [done|]. split; [done|].
    by rewrite Et.
Qed.

Lemma setup_args_inv env globals url cmd cookies max_timeout proxy params forks fr tasks :
  setup env globals url cmd cookies max_timeout proxy params forks = Ok (fr, tasks) →
  ∃ args1,
    isolate_dir env "debug_dir" (uuid4_debug env) (solver_args globals) = Ok args1
    ∧ isolate_dir env "challenge_screenshots_dir" (uuid4_screenshots env) args1
      = Ok (fr_local_solver_args fr).
Proof.
  unfold setup. intros H.
  destruct (isolate_dir env "debug_dir" _ _) as [a1|]; [|discriminate]. cbn in H.
  destruct (isolate_dir env "challenge_screenshots_dir" _ _) as [a2|] eqn:E2;
    [|discriminate].
  cbn in H. injection H as <- <-. by exists a1.
Qed.

(** X10.  The solver arguments of a request differ from the shared
    ones in the two directory keys at most; a configured debug directory
    is replaced by a subdirectory of it, named by the first UUID, which
    has been created. *)
Theorem setup_changes_only_directories env globals url cmd cookies max_timeout proxy
    params forks fr tasks :
  setup env globals url cmd cookies max_timeout proxy params forks = Ok (fr, tasks) →
  (∀ k, k ≠ "debug_dir"%string → k ≠ "challenge_screenshots_dir"%string →
     fr_local_solver_args fr !! k = solver_args globals !! k)
  ∧ (∀ base, solver_args globals !! "debug_dir" = Some (VStr base) → base ≠ ""%string →
       mkdir env (path_join env base (uuid4_debug env)) = Ok tt
       ∧ fr_local_solver_args fr !! "debug_dir"
         = Some (VStr (path_join env base (uuid4_debug env)))).
Proof.
  intros Hs. apply setup_args_inv in Hs as (args1 & H1 & H2).
  apply isolate_dir_ok_inv in H1 as (Hk1 & v1 & Hv1 & _ & Hset1).
  apply isolate_dir_ok_inv in H2 as (Hk2 & _).
  split.
  - intros k Hd Hc. by rewrite Hk2, Hk1.
  - intros base Hb Hne. rewrite Hb in Hv1. injection Hv1 as <-.
    destruct Hset1 as (base' & [= <-] & Hm & Hl).
    { cbn. apply negb_true_iff. by apply String.eqb_neq. }
    split; [exact Hm|]. by rewrite Hk2.
Qed.

Lemma setup_changes_only_directories_witness :
  ∃ fr tasks,
    setup (sample_env [[0]%nat]) debug_globals "https://x.com" "get_cookies" None 60000
      None None None = Ok (fr, tasks)
    ∧ fr_local_solver_args fr !! "headless" = Some (VBool false)
    ∧ fr_local_solver_args fr !! "debug_dir" = Some (VStr "/tmp/dbg/0b6c").
Proof.
  eexists _, _. split; [reflexivity|].
  destruct (setup_changes_only_directories (sample_env [[0]%nat]) debug_globals
              "https://x.com" "get_cookies" None 60000 None None None _ _ eq_refl)
    as [Hk Hd].
  split.
  - rewrite Hk; [reflexivity|discriminate|discriminate].
  - by destruct (Hd "/tmp/dbg"%string eq_refl ltac:(discriminate)) as [_ ->].
Defined.

(** X11.  When the solver arguments have no key
    [challenge_screenshots_dir], as in the dict of lines 73-79, and no
    debug directory is configured, the setup of every request raises the
    error of the missing key, so that no task factory is built and no
    attempt is started, and every request whose proxy passes is answered
    with that error. *)
Theorem missing_screenshots_key_fails_request env globals url cmd cookies max_timeout
    proxy params forks proxy' v :
  normalize_proxy env proxy = Ok proxy' →
  solver_args globals !! "debug_dir" = Some v →
  truthy v = false →
  solver_args globals !! "challenge_screenshots_dir" = None →
  setup env globals url cmd cookies max_timeout proxy' params forks
  = Raise (KeyError "challenge_screenshots_dir")
  ∧ try_body env globals (now_start env) url cmd cookies max_timeout proxy' params forks
    = Done (Raise (KeyError "challenge_screenshots_dir"))
  ∧ process_solve_request env globals url cmd cookies max_timeout proxy params forks
    = Responds {| status := "error";
                  message := "Error: 'challenge_screenshots_dir'";
                  startTimestamp := now_start env;
                  endTimestamp := now_end env;
                  solution := None |}.
Proof.
  intros Hn Hd Ht Hc.
  assert (Hs : setup env globals url cmd cookies max_timeout proxy' params forks
               = Raise (KeyError "challenge_screenshots_dir")).
  { unfold setup, isolate_dir. rewrite Hd, Ht. cbn. rewrite Hc. reflexivity. }
  assert (Hb : try_body env globals (now_start env) url cmd cookies max_timeout proxy'
                 params forks = Done (Raise (KeyError "challenge_screenshots_dir"))).
  { unfold try_body. by rewrite Hs. }
  split; [exact Hs|]. split; [exact Hb|].
  unfold process_solve_request. rewrite Hn, Hb. reflexivity.
Qed.

Lemma missing_screenshots_key_fails_request_witness :
  setup (sample_env [[0]%nat]) module_globals "https://x.com" "get_cookies"
    None 60000 None None None
  = Raise (KeyError "challenge_screenshots_dir")
  ∧ process_solve_request (sample_env [[0]%nat]) module_globals "https://x.com"
      "get_cookies" None 60000 None None None
    = Responds {| status := "error";
                  message := "Error: 'challenge_screenshots_dir'";
                  startTimestamp := 100;
                  endTimestamp := 101;
                  solution := None |}.
Proof.
  destruct (missing_screenshots_key_fails_request (sample_env [[0]%nat]) module_globals
              "https://x.com" "get_cookies" None 60000 None None None None VNone
              eq_refl eq_refl eq_refl eq_refl) as (Hs & _ & Hr).
  split; [exact Hs | exact Hr].
Defined.

(** X12.  A request that gives an empty list of forks runs the primary
    attempt alone, whatever the server's default forks are; a request
    that gives no forks gets the plan of the default forks. *)
Theorem explicit_forks_replace_defaults env globals url cmd cookies max_timeout proxy
    params :
  (∀ fr tasks,
     setup env globals url cmd cookies max_timeout proxy params (Some []) = Ok (fr, tasks) →
     tasks = [PrimaryFactory 0])
  ∧ (∀ fr tasks,
       setup env globals url cmd cookies max_timeout proxy params None = Ok (fr, tasks) →
       tasks = PrimaryFactory 0
               :: (DeferredFactory <$> seq 1 (total_forks (default_forks globals))))
  ∧ (∀ gs fr tasks,
       setup env globals url cmd cookies max_timeout proxy params (Some gs) = Ok (fr, tasks) →
       tasks = PrimaryFactory 0 :: (DeferredFactory <$> seq 1 (total_forks gs))).
Proof.
  repeat split; intros.
  - match goal with H : setup _ _ _ _ _ _ _ _ _ = _ |- _ =>
      apply setup_inv in H as (-> & _) end. reflexivity.
  - match goal with H : setup _ _ _ _ _ _ _ _ _ = _ |- _ =>
      apply setup_inv in H as (-> & _) end. cbn zeta. by rewrite fork_plan_spec.
  - match goal with H : setup _ _ _ _ _ _ _ _ _ = _ |- _ =>
      apply setup_inv in H as (-> & _) end. cbn zeta. by rewrite fork_plan_spec.
Qed.

Lemma explicit_forks_replace_defaults_witness :
  (∃ fr tasks,
     setup (sample_env []) debug_globals "https://x.com" "get_cookies" None 60000
       None None (Some []) = Ok (fr, tasks)
     ∧ tasks = [PrimaryFactory 0])
  ∧ (∃ fr tasks,
       setup (sample_env []) debug_globals "https://x.com" "get_cookies" None 60000
         None None None = Ok (fr, tasks)
       ∧ tasks = [PrimaryFactory 0; DeferredFactory 1; DeferredFactory 2]).
Proof.
  destruct (explicit_forks_replace_defaults (sample_env []) debug_globals "https://x.com"
              "get_cookies" None 60000 None None) as (H1 & H2 & _).
  split.
  - eexists _, _. split; [reflexivity|]. exact (H1 _ _ eq_refl).
  - eexists _, _. split; [reflexivity|]. exact (H2 _ _ eq_refl).
Defined.

(** X13.  Only positive counts add tasks: the plan has one task and one
    more for each unit of each positive count, and a group whose count is
    zero or negative adds none, so that the task factories and the fork
    numbers are those of the list without it.  The group is a group all
    the same: when it is the last of the list it is the [forks_model]
    that the loops leave behind, the one whose delay the deferred tasks
    read; when another group follows it, the plan is that of the list
    without it. *)
Theorem fork_plan_counts_positive_forks (gs : list DefferedForksModel) :
  Z.of_nat (length (solve_tasks (fork_plan gs)))
  = 1 + foldr (fun g z => Z.max 0 (forks g) + z) 0 gs
  ∧ (∀ pre g post, gs = pre ++ g :: post → forks g <= 0 →
       solve_tasks (fork_plan gs) = solve_tasks (fork_plan (pre ++ post))
       ∧ cur_fork_i (fork_plan gs) = cur_fork_i (fork_plan (pre ++ post))
       ∧ (post = [] → forks_model (fork_plan gs) = Some g)
       ∧ (post ≠ [] → fork_plan gs = fork_plan (pre ++ post))).
Proof.
  split.
  - rewrite fork_plan_length.
    induction gs as [|g gs IH]; [reflexivity|].
    cbn [total_forks foldr]. fold (total_forks gs). lia.
  - intros pre g post -> Hg.
    assert (Ht : total_forks (pre ++ g :: post) = total_forks (pre ++ post)).
    { rewrite !total_forks_app. cbn [total_forks foldr]. fold (total_forks post).
      by replace (Z.to_nat (forks g)) with 0%nat by lia. }
    rewrite !fork_plan_spec. cbn [solve_tasks cur_fork_i forks_model]. rewrite Ht.
    split; [reflexivity|]. split; [reflexivity|]. split.
    + intros ->. by rewrite last_snoc.
    + intros Hpost. f_equal.
      destruct post as [|p post]; [done|].
      rewrite !last_app. reflexivity.
Qed.

Lemma fork_plan_counts_positive_forks_witness :
  solve_tasks (fork_plan [ {| forks := 2; delay := 5 |}; {| forks := -3; delay := 1 |} ])
  = solve_tasks (fork_plan [ {| forks := 2; delay := 5 |} ])
  ∧ forks_model (fork_plan [ {| forks := 2; delay := 5 |}; {| forks := -3; delay := 1 |} ])
    = Some {| forks := -3; delay := 1 |}.
Proof.
  destruct (proj2 (fork_plan_counts_positive_forks
                     [ {| forks := 2; delay := 5 |}; {| forks := -3; delay := 1 |} ])
              [ {| forks := 2; delay := 5 |} ] {| forks := -3; delay := 1 |} []
              eq_refl ltac:(cbn; lia)) as (Ht & _ & Hm & _).
  split; [exact Ht | exact (Hm eq_refl)].
Defined.

(** ** The identity fetch and the attempts *)



(** ** The middleware *)

Section MiddlewareFacts.
Context (names_content_type : string -> result bool).

Lemma scan_headers_passed_over (pre rest : list header) :
  Forall (passed_over names_content_type) pre →
  scan_headers names_content_type (pre ++ rest) (pre ++ rest) 0
  = scan_headers names_content_type (pre ++ rest) rest (length pre).
Proof.
  intros Hpre.
  enough (H : ∀ done, scan_headers names_content_type (done ++ pre ++ rest) (pre ++ rest)
                        (length done)
                      = scan_headers names_content_type (done ++ pre ++ rest) rest
                          (length (done ++ pre)))
    by exact (H []).
  induction Hpre as [|h pre Hh _ IH]; intros done.
  - by rewrite app_nil_r.
  - destruct h as [name value|tag]; [|done]. cbn in Hh. cbn [app scan_headers].
    rewrite Hh. cbn.
    specialize (IH (done ++ [HeaderPair name value])).
    rewrite <- !app_assoc in IH. cbn in IH.
    rewrite length_app in IH. cbn in IH. rewrite Nat.add_1_r in IH.
    rewrite IH. reflexivity.
Qed.

(** When the first header named [content-type] comes after
    headers that are pairs with other names, it is replaced by
    [content-type: application/json] and nothing else changes: headers
    after it, further [content-type] headers included, stay as they
    are. *)
Lemma middleware_headers_replace (pre post : list header)
    (name value : string) :
  Forall (passed_over names_content_type) pre →
  names_content_type name = Ok true →
  middleware_headers names_content_type (pre ++ HeaderPair name value :: post)
  = Ok (pre ++ content_type_json :: post).
Proof.
  intros Hpre Hname. unfold middleware_headers.
  rewrite (scan_headers_passed_over pre _ Hpre). cbn [scan_headers].
  rewrite Hname. cbn. f_equal.
  rewrite insert_app_r_alt by lia. by rewrite Nat.sub_diag.
Qed.

(** When every header is a pair with a name other than
    [content-type], the header [content-type: application/json] is added
    at the end. *)
Lemma middleware_headers_append (headers : list header) :
  Forall (passed_over names_content_type) headers →
  middleware_headers names_content_type headers = Ok (headers ++ [content_type_json]).
Proof.
  intros Hall. unfold middleware_headers.
  pose proof (scan_headers_passed_over headers [] Hall) as H.
  rewrite app_nil_r in H. rewrite H. reflexivity.
Qed.

(** When a header that is not a pair comes before any header
    named [content-type], the headers are left as they are: no
    [content-type] is set or added. *)
Lemma middleware_headers_unexpected (pre post : list header) (tag : string) :
  Forall (passed_over names_content_type) pre →
  middleware_headers names_content_type (pre ++ HeaderOther tag :: post)
  = Ok (pre ++ HeaderOther tag :: post).
Proof.
  intros Hpre. unfold middleware_headers.
  by rewrite (scan_headers_passed_over pre _ Hpre).
Qed.

(** When the loop ends without an exception, the headers it has gone
    through have one of the three shapes above. *)
Lemma scan_headers_inv (headers : list header) :
  ∀ done rest hs found,
  headers = done ++ rest →
  Forall (passed_over names_content_type) done →
  scan_headers names_content_type headers rest (length done) = Ok (hs, found) →
  (found = false ∧ hs = headers ∧ Forall (passed_over names_content_type) headers)
  ∨ (found = true ∧ ∃ pre tag post,
       headers = pre ++ HeaderOther tag :: post ∧ Forall (passed_over names_content_type) pre ∧ hs = headers)
  ∨ (found = true ∧ ∃ pre name value post,
       headers = pre ++ HeaderPair name value :: post ∧ Forall (passed_over names_content_type) pre
       ∧ names_content_type name = Ok true
       ∧ hs = pre ++ content_type_json :: post).
Proof.
  intros done rest. revert done.
  induction rest as [|h rest IH]; intros done hs found Hh Hdone.
  - cbn. intros [= <- <-]. left. rewrite app_nil_r in Hh. by subst.
  - destruct h as [name value|tag]; cbn [scan_headers].
    + destruct (names_content_type name) as [[|]|e] eqn:En; cbn; [| |discriminate].
      * intros [= <- <-]. right. right. split; [done|].
        exists done, name, value, rest. repeat split; try done.
        subst headers. rewrite insert_app_r_alt by lia. by rewrite Nat.sub_diag.
      * intros H. apply (IH (done ++ [HeaderPair name value])).
        -- by rewrite <- app_assoc.
        -- apply Forall_app. split; [exact Hdone|]. by apply Forall_singleton.
        -- rewrite length_app. cbn. by rewrite Nat.add_1_r.
    + intros [= <- <-]. right. left. split; [done|]. by exists done, tag, rest.
Qed.

(** X15.  Running the middleware on headers it has already been run on
    changes nothing, provided the name [content-type] itself passes the
    test of line 47. *)
Theorem middleware_idempotent (headers headers' : list header) :
  names_content_type "content-type" = Ok true →
  middleware_headers names_content_type headers = Ok headers' →
  middleware_headers names_content_type headers' = Ok headers'.
Proof.
  intros Hct. unfold middleware_headers at 1.
  destruct (scan_headers names_content_type headers headers 0) as [[hs found]|e] eqn:Es;
    [|discriminate].
  cbn. intros [= <-].
  destruct (scan_headers_inv headers [] headers hs found eq_refl (Forall_nil_2 _) Es)
    as [(-> & -> & Hall)|[(-> & pre & tag & post & -> & Hpre & ->)
                          |(-> & pre & name & value & post & -> & Hpre & Hn & ->)]].
  - change (headers ++ [content_type_json])
      with (headers ++ HeaderPair "content-type" "application/json" :: []).
    by apply middleware_headers_replace.
  - by apply middleware_headers_unexpected.
  - by apply middleware_headers_replace.
Qed.

(** X16.  The middleware never drops a header and adds at most one:
    the list keeps its length or grows by one, and every header that is
    not named [content-type] is still there. *)
Theorem middleware_keeps_other_headers (headers headers' : list header) :
  middleware_headers names_content_type headers = Ok headers' →
  (length headers' = length headers ∨ length headers' = S (length headers))
  ∧ (∀ h, h ∈ headers → (passed_over names_content_type) h ∨ (∃ tag, h = HeaderOther tag) → h ∈ headers').
Proof.
  unfold middleware_headers.
  destruct (scan_headers names_content_type headers headers 0) as [[hs found]|e] eqn:Es;
    [|discriminate].
  cbn. intros [= <-].
  destruct (scan_headers_inv headers [] headers hs found eq_refl (Forall_nil_2 _) Es)
    as [(-> & -> & Hall)|[(-> & pre & tag & post & -> & Hpre & ->)
                          |(-> & pre & name & value & post & -> & Hpre & Hn & ->)]].
  - split; [right; rewrite length_app; cbn; lia|].
    intros h Hh _. apply elem_of_app. by left.
  - split; [by left|]. by intros h Hh _.
  - split; [left; rewrite !length_app; cbn; lia|].
    intros h Hh Hother. apply elem_of_app in Hh as [Hh|Hh].
    + apply elem_of_app. by left.
    + apply elem_of_cons in Hh as [->|Hh].
      * exfalso. destruct Hother as [Hp|[tag [=]]]. cbn in Hp. congruence.
      * apply elem_of_app. right. by right.
Qed.

(** X17.  When the first header named [content-type] comes after
    headers that are pairs with other names, it is replaced by
    [content-type: application/json] and nothing else changes: the
    headers after it, further [content-type] headers included, stay as
    they are. *)
Theorem middleware_replaces_first_content_type (pre post : list header)
    (name value : string) :
  Forall (passed_over names_content_type) pre →
  names_content_type name = Ok true →
  middleware_headers names_content_type (pre ++ HeaderPair name value :: post)
  = Ok (pre ++ content_type_json :: post).
Proof. apply middleware_headers_replace. Qed.

(** X18.  When every header is a pair with a name other than
    [content-type], the header [content-type: application/json] is added
    at the end. *)
Theorem middleware_appends_content_type (headers : list header) :
  Forall (passed_over names_content_type) headers →
  middleware_headers names_content_type headers = Ok (headers ++ [content_type_json]).
Proof. apply middleware_headers_append. Qed.

(** X19.  When a header that is not a pair comes before any header
    named [content-type], the headers are left as they are: no
    [content-type] is set or added. *)
Theorem middleware_leaves_unexpected_headers (pre post : list header) (tag : string) :
  Forall (passed_over names_content_type) pre →
  middleware_headers names_content_type (pre ++ HeaderOther tag :: post)
  = Ok (pre ++ HeaderOther tag :: post).
Proof. apply middleware_headers_unexpected. Qed.

Lemma first_content_type (headers : list header) :
  Forall (decodable_pair names_content_type) headers →
  Forall (passed_over names_content_type) headers
  ∨ ∃ pre name value post,
      headers = pre ++ HeaderPair name value :: post
      ∧ Forall (passed_over names_content_type) pre
      ∧ names_content_type name = Ok true.
Proof.
  induction 1 as [|h headers Hh _ IH]; [by left|].
  destruct h as [name value|tag]; [|done]. destruct Hh as [[|] Hb].
  - right. by exists [], name, value, headers.
  - destruct IH as [IH|(pre & n & v & post & -> & Hpre & Hn)].
    + left. by constructor.
    + right. exists (HeaderPair name value :: pre), n, v, post.
      repeat split; [|exact Hn]. by constructor.
Qed.

(** X20.  When every header is a pair whose name decodes, the
    application finds [content-type: application/json] as the first
    header named [content-type]. *)
Theorem middleware_sets_json_content_type (headers : list header) :
  Forall (decodable_pair names_content_type) headers →
  ∃ pre post,
    middleware_headers names_content_type headers = Ok (pre ++ content_type_json :: post)
    ∧ Forall (passed_over names_content_type) pre.
Proof.
  intros Hall.
  destruct (first_content_type headers Hall)
    as [Hnone|(pre & name & value & post & -> & Hpre & Hn)].
  - exists headers, []. split; [|exact Hnone]. by apply middleware_headers_append.
  - exists pre, post. split; [|exact Hpre]. by apply middleware_headers_replace.
Qed.

End MiddlewareFacts.

Lemma middleware_replaces_first_content_type_witness :
  middleware_headers names_content_type_ascii
    [HeaderPair "Host" "x.com"; HeaderPair "Content-Type" "text/plain";
     HeaderPair "content-type" "text/html"]
  = Ok [HeaderPair "Host" "x.com"; content_type_json;
        HeaderPair "content-type" "text/html"].
Proof.
  apply (middleware_replaces_first_content_type names_content_type_ascii
           [HeaderPair "Host" "x.com"] [HeaderPair "content-type" "text/html"]
           "Content-Type" "text/plain").
  - by repeat constructor.
  - reflexivity.
Defined.

Lemma middleware_appends_content_type_witness :
  middleware_headers names_content_type_ascii [HeaderPair "Host" "x.com"]
  = Ok [HeaderPair "Host" "x.com"; content_type_json].
Proof.
  apply (middleware_appends_content_type names_content_type_ascii
           [HeaderPair "Host" "x.com"]).
  by repeat constructor.
Defined.

Lemma middleware_leaves_unexpected_headers_witness :
  middleware_headers names_content_type_ascii
    [HeaderPair "Host" "x.com"; HeaderOther "list"; HeaderPair "Accept" "*/*"]
  = Ok [HeaderPair "Host" "x.com"; HeaderOther "list"; HeaderPair "Accept" "*/*"].
Proof.
  apply (middleware_leaves_unexpected_headers names_content_type_ascii
           [HeaderPair "Host" "x.com"] [HeaderPair "Accept" "*/*"] "list").
  by repeat constructor.
Defined.

Lemma middleware_idempotent_witness :
  middleware_headers names_content_type_ascii
    [HeaderPair "Host" "x.com"; content_type_json]
  = Ok [HeaderPair "Host" "x.com"; content_type_json].
Proof.
  apply (middleware_idempotent names_content_type_ascii [HeaderPair "Host" "x.com"]);
    reflexivity.
Defined.

Lemma middleware_keeps_other_headers_witness :
  ∃ headers',
    middleware_headers names_content_type_ascii
      [HeaderPair "Host" "x.com"; HeaderPair "CONTENT-TYPE" "text/xml";
       HeaderPair "Accept" "*/*"] = Ok headers'
    ∧ HeaderPair "Accept" "*/*" ∈ headers'.
Proof.
  eexists. split; [reflexivity|].
  apply (proj2 (middleware_keeps_other_headers names_content_type_ascii
                  [HeaderPair "Host" "x.com"; HeaderPair "CONTENT-TYPE" "text/xml";
                   HeaderPair "Accept" "*/*"]
                  _ eq_refl)).
  - right. right. by left.
  - left. reflexivity.
Defined.

Lemma middleware_sets_json_content_type_witness :
  ∃ pre post,
    middleware_headers names_content_type_ascii
      [HeaderPair "Host" "x.com"; HeaderPair "Content-Type" "text/plain"]
    = Ok (pre ++ content_type_json :: post)
    ∧ Forall (passed_over names_content_type_ascii) pre.
Proof.
  apply (middleware_sets_json_content_type names_content_type_ascii).
  repeat constructor; eexists; reflexivity.
Defined.

(** ** Splitting and stripping *)

Lemma py_split_not_nil sep s : py_split sep s ≠ [].
Proof.
  destruct s as [|c s]; cbn; [done|].
  destruct (Ascii.eqb c sep); [done|]. by destruct (py_split sep s).
Qed.

Lemma py_split_length sep s : length (py_split sep s) = S (count_char sep s).
Proof.
  induction s as [|c s IH]; [reflexivity|]. cbn.
  destruct (Ascii.eqb c sep); cbn; [by rewrite IH|].
  destruct (py_split sep s); [done|]. exact IH.
Qed.

Lemma py_split_no_sep sep s : has_char sep s = false → py_split sep s = [s].
Proof.
  induction s as [|c s IH]; [reflexivity|]. cbn.
  destruct (Ascii.eqb c sep); [discriminate|]. cbn. intros H. by rewrite IH.
Qed.

Lemma py_split_app sep a b :
  has_char sep a = false →
  py_split sep (a +:+ String sep b) = a :: py_split sep b.
Proof.
  induction a as [|c a IH]; cbn.
  - intros _. change (EmptyString +:+ String sep b) with (String sep b). cbn.
    by rewrite Ascii.eqb_refl.
  - destruct (Ascii.eqb c sep) eqn:E; [discriminate|]. cbn. intros H.
    rewrite append_cons. cbn. rewrite E, IH by exact H. reflexivity.
Qed.

Lemma py_split_pieces_no_sep sep s : Forall (fun p => has_char sep p = false) (py_split sep s).
Proof.
  induction s as [|c s IH]; cbn; [by repeat constructor|].
  destruct (Ascii.eqb c sep) eqn:E; [by constructor|].
  destruct (py_split sep s) as [|p ps]; [by repeat constructor; cbn; rewrite E|].
  apply Forall_cons in IH as [Hp Hps]. constructor; [|exact Hps]. cbn. by rewrite E, Hp.
Qed.

Lemma py_join_split sep s : py_join sep (py_split sep s) = s.
Proof.
  induction s as [|c s IH]; [reflexivity|]. cbn [py_split].
  destruct (Ascii.eqb_spec c sep) as [->|Hne].
  - pose proof (py_split_not_nil sep s) as Hnn.
    destruct (py_split sep s) as [|p ps]; [done|].
    cbn [py_join] in IH |- *. by rewrite <- IH.
  - destruct (py_split sep s) as [|p ps] eqn:E; [by apply py_split_not_nil in E|].
    destruct ps as [|q qs]; cbn [py_join] in IH |- *.
    + by rewrite IH.
    + rewrite append_cons. by rewrite IH.
Qed.

Lemma py_lstrip_keeps chars c s :
  char_in chars c = false → py_lstrip chars (String c s) = String c s.
Proof. intros H. cbn. by rewrite H. Qed.

Lemma py_rstrip_nil_iff chars s :
  py_rstrip chars s = EmptyString → ∀ c, has_char c s = true → char_in chars c = true.
Proof.
  induction s as [|c0 s IH]; [discriminate|]. cbn.
  destruct (py_rstrip chars s) eqn:E; [|discriminate].
  destruct (char_in chars c0) eqn:Ec; [|discriminate].
  intros _ c. destruct (Ascii.eqb_spec c0 c) as [<-|Hne]; cbn; [done|].
  by apply IH.
Qed.

Lemma py_lstrip_only chars q s :
  only_chars chars q = true → py_lstrip chars (q +:+ s) = py_lstrip chars s.
Proof.
  induction q as [|c q IH]; [done|]. cbn. intros [Hc Hq]%andb_true_iff.
  rewrite append_cons. cbn. rewrite Hc. by apply IH.
Qed.

Lemma py_lstrip_all chars q : only_chars chars q = true → py_lstrip chars q = EmptyString.
Proof.
  induction q as [|c q IH]; [done|]. cbn. intros [Hc Hq]%andb_true_iff.
  rewrite Hc. by apply IH.
Qed.

Lemma py_rstrip_only chars q : only_chars chars q = true → py_rstrip chars q = EmptyString.
Proof.
  induction q as [|c q IH]; [done|]. cbn. intros [Hc Hq]%andb_true_iff.
  by rewrite IH, Hc.
Qed.

Lemma py_rstrip_app_only chars s q :
  only_chars chars q = true → py_rstrip chars (s +:+ q) = py_rstrip chars s.
Proof.
  intros Hq. induction s as [|c s IH].
  - change (EmptyString +:+ q) with q. by rewrite py_rstrip_only.
  - rewrite append_cons. cbn. by rewrite IH.
Qed.

Lemma py_lstrip_length chars t :
  (String.length (py_lstrip chars t) ≤ String.length t)%nat.
Proof. induction t as [|c t IH]; cbn; [lia|]. destruct (char_in chars c); cbn; lia. Qed.

Lemma py_rstrip_length chars t :
  (String.length (py_rstrip chars t) ≤ String.length t)%nat.
Proof.
  induction t as [|c t IH]; cbn; [lia|].
  destruct (py_rstrip chars t); [destruct (char_in chars c)|]; cbn in *; lia.
Qed.

Lemma py_lstrip_fixed_app chars s q :
  only_chars chars q = true → py_lstrip chars s = s →
  py_lstrip chars (s +:+ q) = (if String.eqb s "" then EmptyString else s +:+ q).
Proof.
  intros Hq Hs. destruct s as [|c s].
  - change (EmptyString +:+ q) with q. cbn. by apply py_lstrip_all.
  - cbn in Hs. rewrite append_cons. cbn.
    destruct (char_in chars c) eqn:Ec; [|reflexivity].
    exfalso. pose proof (py_lstrip_length chars s) as Hlen.
    rewrite Hs in Hlen. cbn in Hlen. lia.
Qed.

(** Stripping removes what surrounds a string that has nothing left to
    strip. *)
Lemma py_strip_surrounded chars q1 s q2 :
  only_chars chars q1 = true → only_chars chars q2 = true →
  py_strip chars s = s →
  py_strip chars (q1 +:+ s +:+ q2) = s.
Proof.
  intros H1 H2 Hs. unfold py_strip in *.
  rewrite (py_lstrip_only chars q1 _ H1).
  assert (Hl : py_lstrip chars s = s).
  { destruct s as [|c s]; [reflexivity|]. cbn. destruct (char_in chars c) eqn:Ec; [|done].
    exfalso. pose proof (py_rstrip_length chars (py_lstrip chars (String c s))) as H.
    rewrite Hs in H. cbn in H. rewrite Ec in H.
    pose proof (py_lstrip_length chars s). lia. }
  rewrite (py_lstrip_fixed_app chars s q2 H2 Hl).
  destruct s as [|c s]; [reflexivity|]. cbn [String.eqb].
  rewrite (py_rstrip_app_only chars _ q2 H2). by rewrite Hl in Hs.
Qed.

(** ** [parse_solve_forks] *)

Lemma parse_fork_str_appends b fork_str g :
  parse_fork_str b fork_str = Ok g → is_Some g.
Proof.
  unfold parse_fork_str. pose proof (py_split_not_nil colon fork_str) as Hnn.
  destruct (py_split colon fork_str) as [|first others]; [done|].
  destruct (float_of_str b (str_strip b first)); [|discriminate]. cbn.
  destruct others as [|second others'].
  - cbn. intros [= <-]. eauto.
  - destruct (int_of_str b (str_strip b second)); [|discriminate]. cbn.
    intros [= <-]. eauto.
Qed.

Lemma parse_forks_loop_length b forks_arr :
  ∀ res res', parse_forks_loop b forks_arr res = Ok res' →
  length res' = (length res + length forks_arr)%nat.
Proof.
  induction forks_arr as [|fork_str forks_arr IH]; intros res res'.
  - cbn. intros [= <-]. lia.
  - cbn [parse_forks_loop].
    destruct (parse_fork_str b fork_str) as [g|e] eqn:Eg; [|discriminate]. cbn.
    destruct (parse_fork_str_appends b fork_str g Eg) as [g' ->].
    intros H. apply IH in H. rewrite H, length_app. cbn. lia.
Qed.

(** X21.  A string that parses gives one group for each piece between
    commas, so at least one: a piece is never skipped, and no string
    parses to the empty list. *)
Theorem parse_solve_forks_one_group_per_piece (b : Builtins) (solve_forks : string)
    (res : list DefferedForksModel) :
  parse_solve_forks b solve_forks = Ok res →
  length res = S (count_char comma (py_strip space_and_quote solve_forks)).
Proof.
  unfold parse_solve_forks. intros H. apply parse_forks_loop_length in H.
  by rewrite H, py_split_length.
Qed.

Lemma parse_solve_forks_one_group_per_piece_witness :
  ∃ res, parse_solve_forks digits_builtins "5:2,10" = Ok res ∧ length res = 2%nat.
Proof.
  eexists. split; [reflexivity|].
  apply (parse_solve_forks_one_group_per_piece digits_builtins "5:2,10").
  reflexivity.
Defined.

(** X22.  In a piece, the delay is what precedes the first colon and the
    count is what stands between the first and the second colon; a piece
    without a colon has count 1, and what follows a second colon is
    ignored. *)
Theorem parse_fork_str_fields (b : Builtins) (ds ns junk : string) (d : Q) (n : Z) :
  has_char colon ds = false →
  float_of_str b (str_strip b ds) = Ok d →
  parse_fork_str b ds = Ok (Some {| forks := 1; delay := d |})
  ∧ (has_char colon ns = false →
     int_of_str b (str_strip b ns) = Ok n →
     parse_fork_str b (ds +:+ String colon ns) = Ok (Some {| forks := n; delay := d |})
     ∧ parse_fork_str b (ds +:+ String colon (ns +:+ String colon junk))
       = Ok (Some {| forks := n; delay := d |})).
Proof.
  intros Hds Hd. split; [|intros Hns Hn; split].
  - unfold parse_fork_str. rewrite (py_split_no_sep _ _ Hds). by rewrite Hd.
  - unfold parse_fork_str.
    rewrite (py_split_app _ _ _ Hds), (py_split_no_sep _ _ Hns). by rewrite Hd, Hn.
  - unfold parse_fork_str.
    rewrite (py_split_app _ _ _ Hds), (py_split_app _ _ _ Hns).
    rewrite Hd. cbn. by rewrite Hn.
Qed.

Lemma parse_fork_str_fields_witness :
  parse_fork_str digits_builtins "10" = Ok (Some {| forks := 1; delay := 10 |})
  ∧ parse_fork_str digits_builtins "5:2:x" = Ok (Some {| forks := 2; delay := 5 |}).
Proof.
  split.
  - apply (proj1 (parse_fork_str_fields digits_builtins "10" "" "" 10 0
                    eq_refl eq_refl)).
  - apply (proj2 (parse_fork_str_fields digits_builtins "5" "2" "x" 5 2
                    eq_refl eq_refl) eq_refl eq_refl).
Defined.

(** X23.  Spaces and double quotes around the whole string do not
    count: the string parses as what they surround. *)
Theorem parse_solve_forks_ignores_quotes (b : Builtins) (q1 s q2 : string) :
  only_chars space_and_quote q1 = true →
  only_chars space_and_quote q2 = true →
  py_strip space_and_quote s = s →
  parse_solve_forks b (q1 +:+ s +:+ q2) = parse_solve_forks b s.
Proof.
  intros H1 H2 Hs. unfold parse_solve_forks.
  by rewrite (py_strip_surrounded _ _ _ _ H1 H2 Hs), Hs.
Qed.

Lemma parse_solve_forks_ignores_quotes_witness :
  parse_solve_forks digits_builtins quoted_forks = parse_solve_forks digits_builtins "5:2,10".
Proof.
  apply (parse_solve_forks_ignores_quotes digits_builtins dq "5:2,10" dq); reflexivity.
Defined.

(** X24.  A string of nothing but spaces and double quotes, the empty
    string included, does not parse to an empty list: it is read as one
    empty piece, and the error of [float] on the stripped empty string is
    raised. *)
Theorem parse_solve_forks_blank_raises (b : Builtins) (solve_forks : string) (e : exn) :
  only_chars space_and_quote solve_forks = true →
  float_of_str b (str_strip b "") = Raise e →
  parse_solve_forks b solve_forks = Raise e.
Proof.
  intros Hq He. unfold parse_solve_forks, py_strip.
  rewrite (py_lstrip_all _ _ Hq). cbn. unfold parse_fork_str. cbn. by rewrite He.
Qed.

Lemma parse_solve_forks_blank_raises_witness :
  parse_solve_forks digits_builtins "  "
  = Raise (ValueError "could not convert string to float: ''").
Proof.
  apply (parse_solve_forks_blank_raises digits_builtins "  "); reflexivity.
Defined.

(** ** The bind address *)

(** X25.  The bind address is accepted exactly when it has one colon:
    it is then split into what precedes and what follows the colon.  Any
    other address ends the server with exit status 1. *)
Theorem split_bind_one_colon (bind host port : string) :
  (split_bind bind = Ok (host, port)
   ↔ bind = host +:+ String colon port
     ∧ has_char colon host = false ∧ has_char colon port = false)
  ∧ (count_char colon bind ≠ 1%nat → bind_or_exit bind = inr 1).
Proof.
  split; [split|].
  - unfold split_bind. intros H.
    pose proof (py_join_split colon bind) as Hj.
    pose proof (py_split_pieces_no_sep colon bind) as Hp.
    destruct (py_split colon bind) as [|h [|p [|x xs]]]; try discriminate.
    injection H as -> ->. cbn in Hj.
    apply Forall_cons in Hp as [Hh Hp]. apply Forall_cons in Hp as [Hp _].
    by rewrite <- Hj.
  - intros (-> & Hh & Hp). unfold split_bind.
    by rewrite (py_split_app _ _ _ Hh), (py_split_no_sep _ _ Hp).
  - intros Hc. unfold bind_or_exit, split_bind.
    pose proof (py_split_length colon bind) as Hl.
    destruct (py_split colon bind) as [|h [|p [|x xs]]]; try done.
    cbn in Hl. exfalso. apply Hc. lia.
Qed.

Lemma split_bind_one_colon_witness :
  split_bind "127.0.0.1:8000" = Ok ("127.0.0.1"%string, "8000"%string)
  ∧ bind_or_exit "[::1]:8000" = inr 1.
Proof.
  split.
  - apply (proj1 (split_bind_one_colon "127.0.0.1:8000" "127.0.0.1" "8000")).
    repeat split.
  - apply (proj2 (split_bind_one_colon "[::1]:8000" "" "")). discriminate.
Defined.

(** ** Loading user commands *)

Lemma py_split2_no_pair c1 c2 s : has_pair c1 c2 s = false → py_split2 c1 c2 s = [s].
Proof.
  induction s as [|a s IH]; [reflexivity|].
  destruct s as [|b s'']; [reflexivity|].
  intros H. cbn [has_pair] in H. apply orb_false_iff in H as [H1 H2].
  cbn [py_split2]. rewrite H1.
  specialize (IH H2). cbn [py_split2] in IH. rewrite IH. reflexivity.
Qed.

Lemma py_split2_app c1 c2 a rest :
  has_char c2 a = false →
  py_split2 c1 c2 (a +:+ String c1 (String c2 rest)) = a :: py_split2 c1 c2 rest.
Proof.
  induction a as [|x a IH]; intros H.
  - change (EmptyString +:+ String c1 (String c2 rest)) with (String c1 (String c2 rest)).
    cbn [py_split2]. by rewrite !Ascii.eqb_refl.
  - cbn [has_char] in H. apply orb_false_iff in H as [Hx Ha].
    specialize (IH Ha). rewrite append_cons.
    destruct a as [|y a].
    + change (EmptyString +:+ String c1 (String c2 rest)) with (String c1 (String c2 rest)) in *.
      cbn [py_split2] in *. rewrite !Ascii.eqb_refl in *. cbn [andb] in *.
      destruct (Ascii.eqb_spec x c1) as [->|_]; cbn [andb].
      * rewrite Hx. reflexivity.
      * reflexivity.
    + rewrite append_cons in *.
      cbn [has_char] in Ha. apply orb_false_iff in Ha as [Hy _].
      cbn [py_split2] in *. rewrite Hy, andb_false_r.
      rewrite IH. reflexivity.
Qed.

Lemma py_split2_trailing c1 c2 s :
  c1 ≠ c2 →
  ∃ l, l ≠ [] ∧ py_split2 c1 c2 (s +:+ String c1 (String c2 EmptyString)) = l ++ [EmptyString].
Proof.
  intros Hne.
  assert (Hc : Ascii.eqb c1 c2 = false) by (by apply Ascii.eqb_neq).
  enough (H : (∃ l, l ≠ [] ∧ py_split2 c1 c2 (s +:+ String c1 (String c2 EmptyString))
                              = l ++ [EmptyString])
              ∧ ∀ a, ∃ l, l ≠ [] ∧ py_split2 c1 c2 (String a s +:+ String c1 (String c2 EmptyString))
                              = l ++ [EmptyString]) by apply H.
  induction s as [|b s [IH1 IH2]].
  - split.
    + exists [EmptyString]. split; [done|].
      change (EmptyString +:+ String c1 (String c2 EmptyString))
        with (String c1 (String c2 EmptyString)).
      cbn [py_split2]. by rewrite !Ascii.eqb_refl.
    + intros a. exists [String a EmptyString]. split; [done|].
      rewrite append_cons.
      change (EmptyString +:+ String c1 (String c2 EmptyString))
        with (String c1 (String c2 EmptyString)).
      cbn [py_split2]. rewrite !Ascii.eqb_refl, Hc, andb_false_r. reflexivity.
  - split; [apply IH2|].
    intros a. rewrite !append_cons. cbn [py_split2].
    destruct (Ascii.eqb a c1 && Ascii.eqb b c2).
    + destruct IH1 as (l & Hl & ->). exists (EmptyString :: l). split; [done|reflexivity].
    + destruct (IH2 b) as (l & Hl & E). rewrite !append_cons in E. cbn [py_split2] in E.
      rewrite E. destruct l as [|x l]; [done|].
      exists (String a x :: l). split; [done|reflexivity].
Qed.

Lemma py_partition_app sep a b :
  has_char sep a = false → py_partition sep (a +:+ String sep b) = Some (a, b).
Proof.
  induction a as [|x a IH]; intros H.
  - change (EmptyString +:+ String sep b) with (String sep b).
    cbn [py_partition]. by rewrite Ascii.eqb_refl.
  - cbn [has_char] in H. apply orb_false_iff in H as [Hx Ha].
    rewrite append_cons. cbn [py_partition]. by rewrite Hx, (IH Ha).
Qed.

Lemma py_partition_none sep s : has_char sep s = false → py_partition sep s = None.
Proof.
  induction s as [|x s IH]; [done|]. cbn [has_char py_partition].
  intros [Hx Hs]%orb_false_iff. by rewrite Hx, (IH Hs).
Qed.

Lemma py_rpartition_none sep s : has_char sep s = false → py_rpartition sep s = None.
Proof.
  induction s as [|x s IH]; [done|]. cbn [has_char py_rpartition].
  intros [Hx Hs]%orb_false_iff. by rewrite Hx, (IH Hs).
Qed.

Lemma py_rpartition_app sep a b :
  has_char sep b = false → py_rpartition sep (a +:+ String sep b) = Some (a, b).
Proof.
  intros Hb. induction a as [|x a IH].
  - change (EmptyString +:+ String sep b) with (String sep b).
    cbn [py_rpartition]. by rewrite (py_rpartition_none _ _ Hb), Ascii.eqb_refl.
  - rewrite append_cons. cbn [py_rpartition]. by rewrite IH.
Qed.

Lemma load_class_entry_format imp (cmd path cls : string) :
  has_char colon cmd = false →
  has_char dot cls = false →
  load_class_entry imp (cmd +:+ String colon (path +:+ String dot cls))
  = match instantiate_class imp path cls with
    | Ok obj => Ok (cmd, obj)
    | Raise e => Raise e
    end.
Proof.
  intros Hc Hd. unfold load_class_entry.
  rewrite (py_partition_app _ _ _ Hc), (py_rpartition_app _ _ _ Hd).
  by destruct (instantiate_class imp path cls).
Qed.

Lemma load_class_entry_no_colon imp mod_ :
  has_char colon mod_ = false → load_class_entry imp mod_ = Raise unpack_two_failed.
Proof. intros H. unfold load_class_entry. by rewrite (py_partition_none _ _ H). Qed.

Lemma class_loop_ok imp mods kvs (acc : gmap string PyVal) :
  Forall2 (fun mod_ kv => load_class_entry imp mod_ = Ok kv) mods kvs →
  class_loop imp mods acc = Ok (list_to_map (reverse kvs) ∪ acc).
Proof.
  intros H. revert acc. induction H as [|mod_ [k v] mods kvs E _ IH]; intros acc.
  - cbn. by rewrite (left_id_L ∅ (∪)).
  - cbn [class_loop]. rewrite E, IH. f_equal.
    rewrite reverse_cons, list_to_map_app. cbn [list_to_map foldr curry].
    rewrite <- (assoc_L (∪)). f_equal.
    by rewrite insert_union_singleton_l, insert_empty.
Qed.

Lemma class_loop_raise imp pre mod_ post e0 (acc : gmap string PyVal) :
  Forall (fun m => ∃ kv, load_class_entry imp m = Ok kv) pre →
  load_class_entry imp mod_ = Raise e0 →
  class_loop imp (pre ++ mod_ :: post) acc
  = Raise (Exception ("Can't load user command '" +:+ mod_
                        +:+ "'(by FLARE_BYPASS_COMMANDPROCESSORS): " +:+ exn_str e0)).
Proof.
  intros Hpre E. revert acc. induction Hpre as [|m pre [[k v] Em] _ IH]; intros acc.
  - cbn [app class_loop]. by rewrite E.
  - cbn [app class_loop]. by rewrite Em, IH.
Qed.

Lemma class_loop_cases imp mods (acc : gmap string PyVal) :
  (∃ kvs, Forall2 (fun mod_ kv => load_class_entry imp mod_ = Ok kv) mods kvs)
  ∨ (∃ pre mod_ post e0,
       mods = pre ++ mod_ :: post
       ∧ Forall (fun m => ∃ kv, load_class_entry imp m = Ok kv) pre
       ∧ load_class_entry imp mod_ = Raise e0).
Proof.
  induction mods as [|m mods IH].
  - left. exists []. constructor.
  - destruct (load_class_entry imp m) as [kv|e0] eqn:E.
    + destruct IH as [[kvs H]|(pre & mod_ & post & e0 & -> & Hpre & E0)].
      * left. exists (kv :: kvs). by constructor.
      * right. exists (m :: pre), mod_, post, e0. split; [done|]. split; [|done].
        constructor; [by exists kv|done].
    + right. exists [], m, mods, e0. by repeat split.
Qed.

Lemma foldl_dict_update_lookup (ms : list (gmap string PyVal)) (acc : gmap string PyVal) k :
  (∀ pre m post v, ms = pre ++ m :: post → m !! k = Some v →
     Forall (fun m' : gmap string PyVal => m' !! k = None) post →
     foldl dict_update acc ms !! k = Some v)
  ∧ (Forall (fun m' : gmap string PyVal => m' !! k = None) ms →
     foldl dict_update acc ms !! k = acc !! k).
Proof.
  assert (Hnone : ∀ (ms : list (gmap string PyVal)) acc,
            Forall (fun m' : gmap string PyVal => m' !! k = None) ms →
            foldl dict_update acc ms !! k = acc !! k).
  { clear. intros ms. induction ms as [|m ms IH]; intros acc H; [done|].
    apply Forall_cons in H as [Hm Hms]. cbn [foldl]. rewrite (IH _ Hms).
    unfold dict_update. by rewrite lookup_union_r. }
  split; [|apply Hnone].
  intros pre m post v -> Hm Hpost.
  rewrite foldl_app. cbn [foldl]. rewrite (Hnone _ _ Hpost).
  unfold dict_update at 1. by rewrite (lookup_union_Some_l _ _ _ _ Hm).
Qed.

Lemma extensions_loop_app imp exts ms rest (acc : gmap string PyVal) :
  Forall2 (fun ext m => parse_entrypoint_command_processors imp ext = Ok m) exts ms →
  extensions_loop imp (exts ++ rest) acc
  = extensions_loop imp rest (foldl dict_update acc ms).
Proof.
  intros H. revert acc. induction H as [|ext m exts ms E _ IH]; intros acc; [done|].
  cbn [app extensions_loop foldl]. by rewrite E, IH.
Qed.

Lemma parse_entrypoint_command_processors_raise_inv imp extension e :
  parse_entrypoint_command_processors imp extension = Raise e →
  ∃ msg, e = Exception ("Can't load user command for '" +:+ extension +:+ "': " +:+ msg).
Proof.
  unfold parse_entrypoint_command_processors.
  destruct (py_partition colon extension) as [[m f]|].
  - destruct (call_entry_point imp m f) as [items|e0]; cbn; [discriminate|].
    intros [= <-]. by eexists.
  - intros [= <-]. by eexists.
Qed.

Lemma init_extensions_unfold imp environ exts (reg cls : gmap string PyVal) :
  (if str_truthy environ
   then parse_class_command_processors imp (default "" environ) = Ok cls
   else cls = ∅) →
  init_extensions imp environ (Some exts) reg
  = extensions_loop imp exts (dict_update reg cls).
Proof.
  intros H. unfold init_extensions. destruct (str_truthy environ).
  - rewrite H. by destruct exts.
  - subst cls. unfold dict_update. rewrite (left_id_L ∅ (∪)). by destruct exts.
Qed.

(** X26.  When every element of the list loads, the result has the
    commands that the elements name and no other, and a command named by
    several elements gets the object of the last of them. *)
Theorem parse_class_command_processors_last_wins (imp : Importer) (s : string)
    (kvs : list (string * PyVal)) :
  Forall2 (fun mod_ kv => load_class_entry imp mod_ = Ok kv)
          (py_split2 comma semicolon s) kvs →
  ∃ commands,
    parse_class_command_processors imp s = Ok commands
    ∧ (∀ k, commands !! k = None ↔ k ∉ kvs.*1)
    ∧ (∀ pre k v post, kvs = pre ++ (k, v) :: post → k ∉ post.*1 →
         commands !! k = Some v).
Proof.
  intros H. exists (list_to_map (reverse kvs)). split; [|split].
  - unfold parse_class_command_processors. rewrite (class_loop_ok _ _ _ _ H).
    by rewrite (right_id_L ∅ (∪)).
  - intros k. rewrite <- not_elem_of_list_to_map, fmap_reverse.
    by rewrite elem_of_reverse.
  - intros pre k v post -> Hk.
    rewrite reverse_app, reverse_cons, <- (assoc_L (++)), list_to_map_app.
    rewrite lookup_union_r.
    + cbn [app list_to_map foldr curry]. by rewrite lookup_insert_eq.
    + apply not_elem_of_list_to_map_1. by rewrite fmap_reverse, elem_of_reverse.
Qed.

Lemma parse_class_command_processors_last_wins_witness :
  ∃ commands,
    parse_class_command_processors sample_importer "shot:a.A,;pdf:b.B,;shot:c.C" = Ok commands
    ∧ commands !! "shot" = Some (VObj "C")
    ∧ commands !! "pdf" = Some (VObj "B")
    ∧ commands !! "get" = None.
Proof.
  destruct (parse_class_command_processors_last_wins sample_importer
              "shot:a.A,;pdf:b.B,;shot:c.C"
              [("shot"%string, VObj "A"); ("pdf"%string, VObj "B"); ("shot"%string, VObj "C")])
    as (commands & E & Hnone & Hlast).
  { repeat constructor. }
  exists commands. split; [exact E|]. split; [|split].
  - apply (Hlast [("shot"%string, VObj "A"); ("pdf"%string, VObj "B")] _ _ []);
      [reflexivity|]. cbn. apply not_elem_of_nil.
  - apply (Hlast [("shot"%string, VObj "A")] _ _ [("shot"%string, VObj "C")]);
      [reflexivity|]. cbn. intros H%list_elem_of_singleton. discriminate H.
  - apply Hnone. cbn. rewrite !not_elem_of_cons. repeat split; try done.
    apply not_elem_of_nil.
Defined.

(** X27.  The function raises exactly when an element fails to load.
    The exception is then a plain [Exception] that names the first such
    element and the variable FLARE_BYPASS_COMMANDPROCESSORS, followed by
    the text of the element's own failure; the elements after it are not
    looked at. *)
Theorem parse_class_command_processors_first_failure (imp : Importer) (s : string)
    (e : exn) :
  parse_class_command_processors imp s = Raise e
  ↔ ∃ pre mod_ post e0,
      py_split2 comma semicolon s = pre ++ mod_ :: post
      ∧ Forall (fun m => ∃ kv, load_class_entry imp m = Ok kv) pre
      ∧ load_class_entry imp mod_ = Raise e0
      ∧ e = Exception ("Can't load user command '" +:+ mod_
                         +:+ "'(by FLARE_BYPASS_COMMANDPROCESSORS): " +:+ exn_str e0).
Proof.
  unfold parse_class_command_processors. split.
  - intros H.
    destruct (class_loop_cases imp (py_split2 comma semicolon s) ∅)
      as [[kvs Hk]|(pre & mod_ & post & e0 & E & Hpre & E0)].
    + by rewrite (class_loop_ok _ _ _ _ Hk) in H.
    + exists pre, mod_, post, e0. repeat split; try done.
      rewrite E, (class_loop_raise _ _ _ _ _ _ Hpre E0) in H. by inversion H.
  - intros (pre & mod_ & post & e0 & E & Hpre & E0 & ->).
    by rewrite E, (class_loop_raise _ _ _ _ _ _ Hpre E0).
Qed.

(** X28.  In an element the command is what precedes the first colon,
    the class what follows the last dot and the module what stands
    between; the elements are separated by a comma followed by a
    semicolon, so that a string without this pair is one element, commas
    in it being part of the module path. *)
Theorem class_command_format (imp : Importer) (cmd path cls : string) :
  has_char colon cmd = false →
  has_char dot cls = false →
  has_pair comma semicolon (cmd +:+ String colon (path +:+ String dot cls)) = false →
  parse_class_command_processors imp (cmd +:+ String colon (path +:+ String dot cls))
  = match instantiate_class imp path cls with
    | Ok obj => Ok {[ cmd := obj ]}
    | Raise e0 =>
        Raise (Exception ("Can't load user command '"
                            +:+ (cmd +:+ String colon (path +:+ String dot cls))
                            +:+ "'(by FLARE_BYPASS_COMMANDPROCESSORS): " +:+ exn_str e0))
    end.
Proof.
  intros Hc Hd Hp. unfold parse_class_command_processors.
  rewrite (py_split2_no_pair _ _ _ Hp). cbn [class_loop].
  rewrite (load_class_entry_format imp _ _ _ Hc Hd).
  destruct (instantiate_class imp path cls) as [obj|e0]; [|reflexivity].
  by rewrite insert_empty.
Qed.

Lemma class_command_format_witness :
  parse_class_command_processors sample_importer "shot:a.A,pdf:b.B"
  = Ok {[ "shot"%string := VObj "B" ]}.
Proof.
  apply (class_command_format sample_importer "shot" "a.A,pdf:b" "B"); reflexivity.
Defined.

(** X29.  An element without a colon fails the whole list, whatever
    can be imported; a separator at the end of the string leaves such an
    element, so that a string that ends with the separator never
    loads. *)
Theorem class_commands_need_every_element (imp : Importer) (s : string) :
  (∀ mod_, mod_ ∈ py_split2 comma semicolon s → has_char colon mod_ = false →
     ∃ e, parse_class_command_processors imp s = Raise e)
  ∧ ∃ e, parse_class_command_processors imp
           (s +:+ String comma (String semicolon EmptyString)) = Raise e.
Proof.
  assert (Hfail : ∀ t mod_, mod_ ∈ py_split2 comma semicolon t →
            has_char colon mod_ = false →
            ∃ e, parse_class_command_processors imp t = Raise e).
  { intros t mod_ Hin Hc. unfold parse_class_command_processors.
    destruct (class_loop_cases imp (py_split2 comma semicolon t) ∅)
      as [[kvs Hk]|(pre & m & post & e0 & E & Hpre & E0)].
    - destruct (proj1 (list_elem_of_lookup _ _) Hin) as [i Hi].
      destruct (Forall2_lookup_l _ _ _ _ _ Hk Hi) as (kv & _ & Ekv).
      by rewrite (load_class_entry_no_colon _ _ Hc) in Ekv.
    - rewrite E, (class_loop_raise _ _ _ _ _ _ Hpre E0). by eexists. }
  split; [apply Hfail|].
  destruct (py_split2_trailing comma semicolon s) as (l & _ & E); [done|].
  apply (Hfail _ EmptyString); [|reflexivity].
  rewrite E. apply elem_of_app. right. apply list_elem_of_singleton. reflexivity.
Qed.

Lemma class_commands_need_every_element_witness :
  ∃ e, parse_class_command_processors sample_importer "shot:a.A,;" = Raise e.
Proof.
  apply (proj2 (class_commands_need_every_element sample_importer "shot:a.A")).
Defined.

Lemma parse_class_command_processors_first_failure_witness :
  parse_class_command_processors sample_importer "shot:a.A,;pdf"
  = Raise (Exception ("Can't load user command 'pdf'(by FLARE_BYPASS_COMMANDPROCESSORS): "
                        +:+ exn_str unpack_two_failed)).
Proof.
  apply (proj2 (parse_class_command_processors_first_failure sample_importer
                  "shot:a.A,;pdf" _)).
  exists ["shot:a.A"%string], "pdf"%string, [], unpack_two_failed.
  repeat split. repeat constructor. by eexists.
Defined.

(** X30.  When the classes of the environment load, or the variable is
    unset or empty, and the extensions load one after the other, the
    registry is updated with each in turn and no exception is raised: a
    command is taken from the last extension that defines it, otherwise
    from the classes of the environment, otherwise from the registry as it
    was.  When the next extension then fails, its exception leaves the
    function while the updates made so far stay in the registry. *)
Theorem init_extensions_precedence (imp : Importer) (environ : option string)
    (exts : list string) (reg cls : gmap string PyVal) (ms : list (gmap string PyVal)) :
  (if str_truthy environ
   then parse_class_command_processors imp (default "" environ) = Ok cls
   else cls = ∅) →
  Forall2 (fun ext m => parse_entrypoint_command_processors imp ext = Ok m) exts ms →
  ∃ final,
    init_extensions imp environ (Some exts) reg = (final, None)
    ∧ (∀ k pre m post v, ms = pre ++ m :: post → m !! k = Some v →
         Forall (fun m' : gmap string PyVal => m' !! k = None) post →
         final !! k = Some v)
    ∧ (∀ k, Forall (fun m' : gmap string PyVal => m' !! k = None) ms →
         final !! k = match cls !! k with Some v => Some v | None => reg !! k end)
    ∧ (∀ ext post e, parse_entrypoint_command_processors imp ext = Raise e →
         init_extensions imp environ (Some (exts ++ ext :: post)) reg = (final, Some e)
         ∧ ∃ msg, e = Exception ("Can't load user command for '" +:+ ext +:+ "': " +:+ msg)).
Proof.
  intros Hcls Hexts. exists (foldl dict_update (dict_update reg cls) ms).
  split; [|split; [|split]].
  - rewrite (init_extensions_unfold _ _ _ _ _ Hcls).
    rewrite <- (app_nil_r exts), (extensions_loop_app _ _ _ _ _ Hexts). reflexivity.
  - intros k. apply foldl_dict_update_lookup.
  - intros k Hk. rewrite (proj2 (foldl_dict_update_lookup ms _ k) Hk).
    unfold dict_update. rewrite lookup_union.
    destruct (cls !! k), (reg !! k); reflexivity.
  - intros ext post e E. split.
    + rewrite (init_extensions_unfold _ _ _ _ _ Hcls), (extensions_loop_app _ _ _ _ _ Hexts).
      cbn [extensions_loop]. by rewrite E.
    + apply (parse_entrypoint_command_processors_raise_inv _ _ _ E).
Qed.

Lemma init_extensions_precedence_witness :
  ∃ final,
    init_extensions sample_importer (Some "shot:a.A"%string) (Some ["cmds:get"%string])
      {[ "get_cookies"%string := VObj "builtin" ]} = (final, None)
    ∧ final !! "shot" = Some (VObj "Shot")
    ∧ final !! "get_cookies" = Some (VObj "builtin")
    ∧ ∃ e, init_extensions sample_importer (Some "shot:a.A"%string)
             (Some ["cmds:get"%string; "nomodule"%string])
             {[ "get_cookies"%string := VObj "builtin" ]} = (final, Some e).
Proof.
  destruct (init_extensions_precedence sample_importer (Some "shot:a.A"%string)
              ["cmds:get"%string] {[ "get_cookies"%string := VObj "builtin" ]}
              {[ "shot"%string := VObj "A" ]}
              [<["pdf"%string := VObj "Pdf"]> (<["shot"%string := VObj "Shot"]> ∅)])
    as (final & E & Hlast & Hrest & Hfail).
  { reflexivity. }
  { repeat constructor. }
  exists final. split; [exact E|]. split; [|split].
  - eapply (Hlast "shot"%string [] _ [] (VObj "Shot")); [reflexivity|reflexivity|constructor].
  - rewrite (Hrest "get_cookies"%string); [reflexivity|].
    repeat constructor.
  - eexists. apply (Hfail "nomodule"%string []). reflexivity.
Defined.
